(** * Classification pipeline of the Wi-Fi forensics toolkit (wf.analysis)

    Shallow embedding of [wf/analysis/classifier.py], [wf/utils/geo.py],
    [wf/analysis/config.py] and the writer half of [wf/storage/dao.py].

    Python floats are IEEE-754 binary64; they are modelled by Rocq's
    primitive [float], whose operations are the correctly rounded IEEE
    operations.  Timestamps and counts are Python ints, modelled by [Z].
    Python exceptions are modelled by the error monad [res]. *)

From Stdlib Require Import ZArith Bool List String Lia Permutation Sorted Floats.
Import ListNotations.

#[local] Set Warnings "-inexact-float".

(* ------------------------------------------------------------------ *)
(** ** Python evaluation: exceptions and the unbounded loop *)

(** Results of evaluating Python code.  [Raise] is a Python exception
    propagating out of the call; [OutOfFuel] means that a [while True]
    loop was still running after the number of iterations granted by the
    fuel argument (the Python program has no such bound). *)
Inductive exc := ZeroDivisionError | OverflowError | ValueError | IntegrityError.

Inductive res (A : Type) : Type :=
| Ok : A -> res A
| Raise : exc -> res A
| OutOfFuel : res A.
Arguments Ok {A} _.
Arguments Raise {A} _.
Arguments OutOfFuel {A}.

Definition bind {A B} (m : res A) (k : A -> res B) : res B :=
  match m with
  | Ok a => k a
  | Raise e => Raise e
  | OutOfFuel => OutOfFuel
  end.

Notation "x <- m ;; k" := (bind m (fun x => k))
  (at level 61, m at next level, right associativity).

Fixpoint mapM {A B} (f : A -> res B) (l : list A) : res (list B) :=
  match l with
  | [] => Ok []
  | x :: r => y <- f x ;; ys <- mapM f r ;; Ok (y :: ys)
  end.

Open Scope float_scope.

(** [a / b] on floats: CPython raises when the divisor is zero. *)
Definition py_div (a b : float) : res float :=
  if b =? 0 then Raise ZeroDivisionError else Ok (a / b).

(** Built-in [max(a, b)]: the later argument replaces the current maximum
    only when it compares greater. *)
Definition py_max (a b : float) : float := if a <? b then b else a.

(** Built-in [sum] over floats: [0 + x0 + x1 + ...], left to right. *)
Definition fsum (l : list float) : float := fold_left add l 0.

(** [float(n)] for a Python int: round to nearest, ties to even. *)
Definition float_of_Z (n : Z) : float :=
  SF2Prim (binary_normalize prec emax n 0%Z false).

(** An int operand of float arithmetic ([float.__truediv__] with an int
    divisor): converted by [PyLong_AsDouble], which raises when the
    rounded value does not fit a float. *)
Definition py_float_of_int (n : Z) : res float :=
  let f := float_of_Z n in
  if is_infinity f then Raise OverflowError else Ok f.

(** Floor of a finite float as an integer ([0] for NaN and infinities). *)
Definition floor_Z (x : float) : Z :=
  match Prim2SF x with
  | S754_finite s m e => Z.shiftl (if s then Zneg m else Zpos m) e
  | _ => 0%Z
  end.

(* ------------------------------------------------------------------ *)
(** ** The platform's libm, as called through Python's [math] module *)

(** Python's [math] functions check their arguments and call the C
    library.  The C functions are modelled by series evaluations in
    binary64: these are not bit-identical to the platform's libm, but share
    every property the proofs below use (exact values at 0, NaN in gives
    NaN out, non-negative results of [asin] and [pow] on non-negative
    arguments).  The Python-level checks (which arguments raise) are those
    of CPython. *)
Module Libm.

Definition pi : float := 3.141592653589793.
Definition two_pi : float := 2 * pi.

(** Reduction of the argument to about [-pi, pi]. *)
Definition reduce (x : float) : float :=
  let n := floor_Z (x / two_pi + 0.5) in x - float_of_Z n * two_pi.

(** Horner evaluation of the Taylor series of sine and cosine. *)
Fixpoint sin_horner (k : nat) (r2 s : float) : float :=
  match k with
  | O => s
  | S k' =>
      let a := float_of_Z (Z.of_nat (2 * k)) in
      let b := float_of_Z (Z.of_nat (2 * k + 1)) in
      sin_horner k' r2 (1 - r2 / (a * b) * s)
  end.

Fixpoint cos_horner (k : nat) (r2 c : float) : float :=
  match k with
  | O => c
  | S k' =>
      let a := float_of_Z (Z.of_nat (2 * k - 1)) in
      let b := float_of_Z (Z.of_nat (2 * k)) in
      cos_horner k' r2 (1 - r2 / (a * b) * c)
  end.

Definition c_sin (x : float) : float :=
  let r := reduce x in r * sin_horner 13 (r * r) 1.

Definition c_cos (x : float) : float :=
  let r := reduce x in cos_horner 13 (r * r) 1.

(** Coefficients of the arcsine series [sum_k c_k x^(2k+1)],
    [c_k = (2k)! / (4^k (k!)^2 (2k+1))], from [c_K] down to [c_0]. *)
Fixpoint asin_coeffs (k : nat) : list float :=
  match k with
  | O => [1]
  | S k' =>
      let cs := asin_coeffs k' in
      let prev := hd 1 cs in
      let n := Z.of_nat k in
      let c := prev * float_of_Z ((2 * n - 1) * (2 * n - 1))
                    / float_of_Z ((2 * n) * (2 * n + 1)) in
      c :: cs
  end.

Definition asin_series (x : float) : float :=
  let x2 := x * x in
  match asin_coeffs 60 with
  | [] => x
  | c :: cs => x * fold_left (fun s ck => ck + x2 * s) cs c
  end.

Definition c_asin (x : float) : float :=
  if x <? 0 then - asin_series (- x) else asin_series x.

(** [exp(f * ln 2)] by its Taylor series in Horner form. *)
Definition ln2 : float := 0.6931471805599453.

Fixpoint exp_horner (k : nat) (u s : float) : float :=
  match k with
  | O => s
  | S k' => exp_horner k' u (1 + u / float_of_Z (Z.of_nat k) * s)
  end.

Definition log2_10 : float := 3.321928094887362.

(** [pow(10.0, y)] for a finite non-zero [y]: [2^t] with [t = y log2 10],
    split into an integral power of two and a fractional part. *)
Definition c_pow10 (y : float) : float :=
  let t := y * log2_10 in
  if is_infinity t then (if t <? 0 then 0 else infinity)
  else
    let n := floor_Z t in
    let f := abs (t - float_of_Z n) in
    Z.ldexp (exp_horner 25 (f * ln2) 1) n.

(** [math.sin], [math.cos]: NaN gives NaN, an infinity raises. *)
Definition sin (x : float) : res float :=
  if is_nan x then Ok nan
  else if is_infinity x then Raise ValueError else Ok (c_sin x).

Definition cos (x : float) : res float :=
  if is_nan x then Ok nan
  else if is_infinity x then Raise ValueError else Ok (c_cos x).

(** [math.sqrt]: a negative argument raises ([-0.0] is not negative). *)
Definition sqrt (x : float) : res float :=
  if x <? 0 then Raise ValueError else Ok (PrimFloat.sqrt x).

(** [math.asin]: an argument outside [-1, 1] raises. *)
Definition asin (x : float) : res float :=
  if is_nan x then Ok nan
  else if 1 <? abs x then Raise ValueError else Ok (c_asin x).

(** [math.radians]: multiplication by [pi / 180]. *)
Definition radians (x : float) : float := x * (pi / 180).

(** [x ** 2] on floats ([float_pow]): an overflow raises. *)
Definition pow2 (x : float) : res float :=
  let r := x * x in
  if is_infinity r && is_finite x then Raise OverflowError else Ok r.

(** [10 ** y] with [y] a float ([float_pow] with base 10.0): an overflow
    raises, an underflow gives [0.0]. *)
Definition pow10 (y : float) : res float :=
  if y =? 0 then Ok 1
  else if is_nan y then Ok nan
  else if is_infinity y then Ok (if y <? 0 then 0 else infinity)
  else
    let r := c_pow10 y in
    if is_infinity r then Raise OverflowError else Ok r.

End Libm.

(* ------------------------------------------------------------------ *)
(** ** wf/utils/geo.py *)

Module Geo.

(** [haversine(a, b)]: great-circle distance in metres. *)
Definition haversine (a b : float * float) : res float :=
  let '(lat1, lon1) := a in
  let '(lat2, lon2) := b in
  let phi1 := Libm.radians lat1 in
  let phi2 := Libm.radians lat2 in
  let d_phi := phi2 - phi1 in
  let d_lam := Libm.radians (lon2 - lon1) in
  let r := 6371000.0 in
  s1 <- Libm.sin (d_phi / 2) ;;
  s1sq <- Libm.pow2 s1 ;;
  c1 <- Libm.cos phi1 ;;
  c2 <- Libm.cos phi2 ;;
  s2 <- Libm.sin (d_lam / 2) ;;
  s2sq <- Libm.pow2 s2 ;;
  let h := s1sq + c1 * c2 * s2sq in
  sq <- Libm.sqrt h ;;
  a <- Libm.asin sq ;;
  Ok (2 * r * a).

(** One pass of the [for] loop of Weiszfeld's iteration: the running
    [(num_lat, num_lon, denom)]. *)
Fixpoint weiszfeld_sums (x : float * float)
    (pw : list ((float * float) * float)) (acc : float * float * float)
    : res (float * float * float) :=
  match pw with
  | [] => Ok acc
  | ((lat, lon), w) :: rest =>
      let '(num_lat, num_lon, denom) := acc in
      d0 <- haversine x (lat, lon) ;;
      let d := py_max d0 1e-12 in
      inv <- py_div w d ;;
      weiszfeld_sums x rest (num_lat + inv * lat, num_lon + inv * lon, denom + inv)
  end.

(** One iteration of the [while True] loop: the new iterate. *)
Definition weiszfeld_step (pw : list ((float * float) * float)) (x : float * float)
    : res (float * float) :=
  s <- weiszfeld_sums x pw (0, 0, 0) ;;
  let '(num_lat, num_lon, denom) := s in
  new_lat <- py_div num_lat denom ;;
  new_lon <- py_div num_lon denom ;;
  Ok (new_lat, new_lon).

(** The [while True] loop, run for at most [fuel] iterations. *)
Fixpoint weiszfeld_loop (fuel : nat) (pw : list ((float * float) * float))
    (eps : float) (x : float * float) : res (float * float) :=
  match fuel with
  | O => OutOfFuel
  | S fuel' =>
      nx <- weiszfeld_step pw x ;;
      step <- haversine x nx ;;
      if step <? eps then Ok nx else weiszfeld_loop fuel' pw eps nx
  end.

(** [geometric_median(points, weights, eps)]. *)
Definition geometric_median (fuel : nat) (points : list (float * float))
    (weights : list float) (eps : float) : res (float * float) :=
  let pw := combine points weights in
  let total_w := fsum weights in
  x_lat <- py_div (fsum (map (fun '((lat, _), w) => w * lat) pw)) total_w ;;
  x_lon <- py_div (fsum (map (fun '((_, lon), w) => w * lon) pw)) total_w ;;
  weiszfeld_loop fuel pw eps (x_lat, x_lon).

End Geo.

(* ------------------------------------------------------------------ *)
(** ** wf/analysis/types.py and wf/analysis/config.py *)

(** [Obs]: one packet observation. *)
Record Obs := mkObs {
  mac : string;
  ts : Z;
  lat : float;
  lon : float;
  rssi : float
}.

(** [Win]: a visibility window ([mac] of the window is [wmac]). *)
Record Win := mkWin {
  wmac : string;
  ts_start : Z;
  ts_end : Z;
  points : list Obs
}.

(** [MobileTrackPoint]. *)
Record MobileTrackPoint := mkMTP {
  mt_mac : string;
  mt_ts : Z;
  mt_lat : float;
  mt_lon : float
}.

(** A row of [static_ap]:
    [(mac, lat_mean, lon_mean, loc_error_m, first_seen, last_seen, n_obs)]. *)
Record StaticRow := mkStaticRow {
  sa_mac : string;
  lat_mean : float;
  lon_mean : float;
  loc_error_m : float;
  first_seen : Z;
  last_seen : Z;
  n_obs : Z
}.

(** [ClassifierConfig]. *)
Record ClassifierConfig := mkConfig {
  t_max_gap : Z;
  min_window_len : Z;
  r_stationary : float;
  mobile_decim_d : float;
  mobile_decim_t : Z;
  max_speed_ms : float
}.

(** [ClassifierConfig.driving()]: the defaults. *)
Definition driving : ClassifierConfig :=
  mkConfig 120 1 350.0 100.0 30 (200000 / 3600).

(** [ClassifierConfig.walking()]. *)
Definition walking : ClassifierConfig :=
  mkConfig 60 1 50.0 10.0 5 (8000 / 3600).

(* ------------------------------------------------------------------ *)
(** ** Dictionaries keyed by MAC *)

(** A [defaultdict] keyed by MAC as an association list in insertion
    order (Python dicts iterate in insertion order).  [upd k f d] is
    [d[k] = f(d[k])], the default value being [dflt]. *)
Fixpoint upd {V} (dflt : V) (k : string) (f : V -> V)
    (d : list (string * V)) : list (string * V) :=
  match d with
  | [] => [(k, f dflt)]
  | (k', v) :: d' =>
      if String.eqb k k' then (k', f v) :: d' else (k', v) :: upd dflt k f d'
  end.

(** [sorted(xs, key=lambda o: o.ts)]: a stable sort (insertion sort; every
    stable sort returns the same list). *)
Fixpoint insert_by_ts (o : Obs) (l : list Obs) : list Obs :=
  match l with
  | [] => [o]
  | x :: r => if (ts o <? ts x)%Z then o :: x :: r else x :: insert_by_ts o r
  end.

Definition sort_by_ts (l : list Obs) : list Obs :=
  fold_left (fun acc o => insert_by_ts o acc) l [].

(* ------------------------------------------------------------------ *)
(** ** wf/analysis/classifier.py *)

Module Classifier.

Section Pipeline.

Variable cfg : ClassifierConfig.

(** [Win(mac, cur_pts[0].ts, cur_pts[-1].ts, list(cur_pts))], appended
    when [len(cur_pts) >= min_window_len]. *)
Definition close_window (m : string) (cur_pts : list Obs) : list Win :=
  match cur_pts with
  | [] => []
  | p0 :: _ =>
      if (min_window_len cfg <=? Z.of_nat (List.length cur_pts))%Z
      then [mkWin m (ts p0) (ts (last cur_pts p0)) cur_pts]
      else []
  end.

(** The loop [for prev, curr in zip(pts, pts[1:])] with [cur_pts], then
    the trailing window. *)
Fixpoint window_loop (m : string) (prev : Obs) (rest : list Obs)
    (cur_pts : list Obs) : list Win :=
  match rest with
  | [] => close_window m cur_pts
  | curr :: rest' =>
      if (t_max_gap cfg <=? ts curr - ts prev)%Z
      then close_window m cur_pts ++ window_loop m curr rest' [curr]
      else window_loop m curr rest' (cur_pts ++ [curr])
  end.

Definition windows_of_mac (m : string) (points : list Obs) : list Win :=
  match sort_by_ts points with
  | [] => []
  | p0 :: rest => window_loop m p0 rest [p0]
  end.

(** [obs_by_mac[o.mac].append(o)] for every observation. *)
Definition group_obs (obs : list Obs) : list (string * list Obs) :=
  fold_left (fun d o => upd [] (mac o) (fun l => l ++ [o]) d) obs [].

(** [_windowize]. *)
Definition windowize (obs : list Obs) : list Win :=
  flat_map (fun '(m, pts) => windows_of_mac m pts) (group_obs obs).

(** [d_max] of [_split_stationary]: the double loop over [i < j] with
    [if d > maxd: maxd = d]. *)
Fixpoint maxd_row (p : Obs) (qs : list Obs) (maxd : float) : res float :=
  match qs with
  | [] => Ok maxd
  | q :: qs' =>
      d <- Geo.haversine (lat p, lon p) (lat q, lon q) ;;
      maxd_row p qs' (if maxd <? d then d else maxd)
  end.

Fixpoint maxd_all (pts : list Obs) (maxd : float) : res float :=
  match pts with
  | [] => Ok maxd
  | p :: qs => m <- maxd_row p qs maxd ;; maxd_all qs m
  end.

Definition diameter (w : Win) : res float := maxd_all (points w) 0.

(** [_split_stationary]. *)
Fixpoint split_stationary (wins : list Win) : res (list Win * list Win) :=
  match wins with
  | [] => Ok ([], [])
  | w :: ws =>
      maxd <- diameter w ;;
      r <- split_stationary ws ;;
      let '(stat_wins, mob_wins) := r in
      if maxd <=? r_stationary cfg
      then Ok (w :: stat_wins, mob_wins)
      else Ok (stat_wins, w :: mob_wins)
  end.

(** The five [defaultdict]s of [_aggregate_static] step 1
    ([win_centers_by_mac], [win_weights_by_mac], [ts0_by_mac], [ts1_by_mac],
    [n_obs_by_mac]) are always updated together for the same key, so they
    share their keys and insertion order: one association list of records. *)
Record MacAcc := mkMacAcc {
  centers : list (float * float);
  wweights : list float;
  ts0s : list Z;
  ts1s : list Z;
  nobs : Z
}.

Definition empty_acc : MacAcc := mkMacAcc [] [] [] [] 0.

Definition add_window (c : float * float) (tot_w : float) (w : Win) (a : MacAcc)
    : MacAcc :=
  mkMacAcc (centers a ++ [c]) (wweights a ++ [tot_w]) (ts0s a ++ [ts_start w])
    (ts1s a ++ [ts_end w]) (nobs a + Z.of_nat (List.length (points w))).

(** [wts = [10 ** (p.rssi / 10) for p in w.points]]. *)
Definition window_weights (w : Win) : res (list float) :=
  mapM (fun p => Libm.pow10 (rssi p / 10)) (points w).

(** Step 1: collapse each window to its weighted centroid. *)
Fixpoint collapse (wins : list Win) (acc : list (string * MacAcc))
    : res (list (string * MacAcc)) :=
  match wins with
  | [] => Ok acc
  | w :: ws =>
      wts <- window_weights w ;;
      let tot_w := fsum wts in
      let wp := combine wts (points w) in
      lat_c <- py_div (fsum (map (fun '(x, p) => x * lat p) wp)) tot_w ;;
      lon_c <- py_div (fsum (map (fun '(x, p) => x * lon p) wp)) tot_w ;;
      collapse ws (upd empty_acc (wmac w) (add_window (lat_c, lon_c) tot_w w) acc)
  end.

(** Built-in [min] and [max] of a list of ints: an empty list raises. *)
Definition list_min (l : list Z) : res Z :=
  match l with [] => Raise ValueError | x :: r => Ok (fold_left Z.min r x) end.

Definition list_max (l : list Z) : res Z :=
  match l with [] => Raise ValueError | x :: r => Ok (fold_left Z.max r x) end.

(** Step 2 for one MAC. *)
Definition static_row (fuel : nat) (m : string) (a : MacAcc) : res StaticRow :=
  let wts := wweights a in
  med <- Geo.geometric_median fuel (centers a) wts 1e-6 ;;
  let '(lat_med, lon_med) := med in
  let total_w := fsum wts in
  errs <- mapM (fun c => Geo.haversine (lat_med, lon_med) c) (centers a) ;;
  loc_err <- py_div (fsum (map (fun '(x, e) => x * e) (combine wts errs))) total_w ;;
  first <- list_min (ts0s a) ;;
  last_ <- list_max (ts1s a) ;;
  Ok (mkStaticRow m lat_med lon_med loc_err first last_ (nobs a)).

(** [_aggregate_static]. *)
Definition aggregate_static (fuel : nat) (stat_wins : list Win)
    : res (list StaticRow) :=
  acc <- collapse stat_wins [] ;;
  mapM (fun '(m, a) => static_row fuel m a) acc.

Definition to_mtp (o : Obs) : MobileTrackPoint :=
  mkMTP (mac o) (ts o) (lat o) (lon o).

(** One iteration of the loop of [_decimate_track] on the state
    [(last, decimated)]. *)
Definition decim_step (st : Obs * list MobileTrackPoint) (curr : Obs)
    : res (Obs * list MobileTrackPoint) :=
  let '(last, decimated) := st in
  let dt := (ts curr - ts last)%Z in
  d <- Geo.haversine (lat last, lon last) (lat curr, lon curr) ;;
  if (mobile_decim_d cfg <=? d) || (mobile_decim_t cfg <=? dt)%Z then
    speed <- (q <- py_float_of_int (Z.max dt 1) ;; py_div d q) ;;
    if speed <=? max_speed_ms cfg
    then Ok (curr, decimated ++ [to_mtp curr])
    else Ok st
  else Ok st.

Fixpoint decimate_loop (st : Obs * list MobileTrackPoint) (rest : list Obs)
    : res (Obs * list MobileTrackPoint) :=
  match rest with
  | [] => Ok st
  | curr :: rest' => st' <- decim_step st curr ;; decimate_loop st' rest'
  end.

(** [_decimate_track]. *)
Definition decimate_track (pts : list Obs) : res (list MobileTrackPoint) :=
  match pts with
  | [] => Ok []
  | p0 :: rest => st <- decimate_loop (p0, [to_mtp p0]) rest ;; Ok (snd st)
  end.

(** [pts_by_mac[window.mac].extend(window.points)]. *)
Definition group_windows (mob_wins : list Win) : list (string * list Obs) :=
  fold_left (fun d w => upd [] (wmac w) (fun l => l ++ points w) d) mob_wins [].

Fixpoint decimate_groups (g : list (string * list Obs))
    : res (list MobileTrackPoint) :=
  match g with
  | [] => Ok []
  | (_, pts) :: g' =>
      decimated <- decimate_track (sort_by_ts pts) ;;
      rest <- decimate_groups g' ;;
      Ok ((if (2 <=? List.length decimated)%nat then decimated else []) ++ rest)
  end.

(** [_decimate_mobile]. *)
Definition decimate_mobile (mob_wins : list Win) : res (list MobileTrackPoint) :=
  decimate_groups (group_windows mob_wins).

(** [run] up to the writer: the rows handed to [_write_results]. *)
Definition run (fuel : nat) (obs : list Obs)
    : res (list StaticRow * list MobileTrackPoint) :=
  let wins := windowize obs in
  r <- split_stationary wins ;;
  let '(stat_wins, mob_wins) := r in
  static_rows <- aggregate_static fuel stat_wins ;;
  mobile_rows <- decimate_mobile mob_wins ;;
  Ok (static_rows, mobile_rows).

End Pipeline.

End Classifier.

(* ------------------------------------------------------------------ *)
(** ** The writer: [_write_results] and wf/storage/dao.py *)

Module Dao.

(** The two derived tables of the database. *)
Record Store := mkStore {
  static_ap : list StaticRow;
  mobile_track : list MobileTrackPoint
}.

(** [with self.conn:] runs its block in a transaction: committed when the
    block returns, rolled back when it raises (the exception propagates). *)
Definition with_conn (body : Store -> res Store) (s : Store) : Store * res unit :=
  match body s with
  | Ok s' => (s', Ok tt)
  | Raise e => (s, Raise e)
  | OutOfFuel => (s, OutOfFuel)
  end.

(** [recreate_classification_tables]: both tables dropped and created
    empty.  (Python's [sqlite3] runs DDL outside an implicit transaction,
    so each statement is committed by itself; one block is the more atomic
    reading.) *)
Definition recreate_classification_tables (s : Store) : res Store :=
  Ok (mkStore [] []).

(** The columns are [NOT NULL]; SQLite binds a NaN [REAL] as [NULL], so
    such a row fails with [sqlite3.IntegrityError]. *)
Definition not_null (x : float) : bool := negb (is_nan x).

Definition static_row_ok (r : StaticRow) : bool :=
  not_null (lat_mean r) && not_null (lon_mean r) && not_null (loc_error_m r).

Definition mobile_row_ok (r : MobileTrackPoint) : bool :=
  not_null (mt_lat r) && not_null (mt_lon r).

(** [INSERT ... ON CONFLICT(mac) DO UPDATE SET ...]: every column of the
    row with the same [mac] is overwritten. *)
Fixpoint upsert_static (r : StaticRow) (t : list StaticRow) : list StaticRow :=
  match t with
  | [] => [r]
  | r' :: t' =>
      if String.eqb (sa_mac r) (sa_mac r') then r :: t' else r' :: upsert_static r t'
  end.

Definition same_key (r r' : MobileTrackPoint) : bool :=
  String.eqb (mt_mac r) (mt_mac r') && Z.eqb (mt_ts r) (mt_ts r').

(** [INSERT OR REPLACE] on the primary key [(mac, ts)]: a conflicting row
    is deleted, then the new one inserted. *)
Definition replace_mobile (r : MobileTrackPoint) (t : list MobileTrackPoint)
    : list MobileTrackPoint :=
  filter (fun r' => negb (same_key r r')) t ++ [r].

(** [executemany] of the statement over the rows, in order. *)
Fixpoint insert_static (rows : list StaticRow) (t : list StaticRow)
    : res (list StaticRow) :=
  match rows with
  | [] => Ok t
  | r :: rows' =>
      if static_row_ok r then insert_static rows' (upsert_static r t)
      else Raise IntegrityError
  end.

Fixpoint insert_mobile (rows : list MobileTrackPoint) (t : list MobileTrackPoint)
    : res (list MobileTrackPoint) :=
  match rows with
  | [] => Ok t
  | r :: rows' =>
      if mobile_row_ok r then insert_mobile rows' (replace_mobile r t)
      else Raise IntegrityError
  end.

Definition add_static_ap_bulk (rows : list StaticRow) (s : Store) : res Store :=
  t <- insert_static rows (static_ap s) ;; Ok (mkStore t (mobile_track s)).

Definition add_mobile_track_bulk (rows : list MobileTrackPoint) (s : Store)
    : res Store :=
  t <- insert_mobile rows (mobile_track s) ;; Ok (mkStore (static_ap s) t).

(** [_write_results]: three calls, each with its own [with self.conn:]. *)
Definition write_results (static : list StaticRow) (mobile : list MobileTrackPoint)
    (s : Store) : Store * res unit :=
  let '(s1, r1) := with_conn recreate_classification_tables s in
  match r1 with
  | Ok _ =>
      let '(s2, r2) := with_conn (add_static_ap_bulk static) s1 in
      match r2 with
      | Ok _ => with_conn (add_mobile_track_bulk mobile) s2
      | e => (s2, e)
      end
  | e => (s1, e)
  end.

(** [ClassifierPipeline.run]: the stages, then the writer; an exception
    raised before [_write_results] leaves the database untouched. *)
Definition pipeline_run (cfg : ClassifierConfig) (fuel : nat) (obs : list Obs)
    (s : Store) : Store * res unit :=
  match Classifier.run cfg fuel obs with
  | Ok (static_rows, mobile_rows) => write_results static_rows mobile_rows s
  | Raise e => (s, Raise e)
  | OutOfFuel => (s, OutOfFuel)
  end.

End Dao.

(* ================================================================== *)
(** * Proofs *)

Close Scope float_scope.

(* ------------------------------------------------------------------ *)
(** ** Order on binary64 values *)

(** Primitive comparisons are specified through [Prim2SF] and [SFcompare].
    A non-NaN value is mapped to a lexicographic key on which [SFcompare]
    is the lexicographic comparison; this gives the usual order lemmas. *)

Module FOrd.

Definition key (x : spec_float) : Z * Z * Z :=
  match x with
  | S754_infinity true => (0, 0, 0)
  | S754_finite true m e => (1, - e, - Zpos m)
  | S754_zero _ => (2, 0, 0)
  | S754_finite false m e => (3, e, Zpos m)
  | S754_infinity false => (4, 0, 0)
  | S754_nan => (0, 0, 0)
  end%Z.

Definition lexcmp (a b : Z * Z * Z) : comparison :=
  let '(a1, a2, a3) := a in
  let '(b1, b2, b3) := b in
  match Z.compare a1 b1 with
  | Eq => match Z.compare a2 b2 with Eq => Z.compare a3 b3 | c => c end
  | c => c
  end.

Definition lex_lt (a b : Z * Z * Z) : Prop :=
  let '(a1, a2, a3) := a in
  let '(b1, b2, b3) := b in
  (a1 < b1 \/ (a1 = b1 /\ a2 < b2) \/ (a1 = b1 /\ a2 = b2 /\ a3 < b3))%Z.

Lemma lexcmp_spec a b :
  (lexcmp a b = Lt <-> lex_lt a b) /\
  (lexcmp a b = Eq <-> a = b) /\
  (lexcmp a b = Gt <-> lex_lt b a).
Proof.
  destruct a as [[a1 a2] a3], b as [[b1 b2] b3]; simpl.
  destruct (Z.compare_spec a1 b1); [subst|..];
  [destruct (Z.compare_spec a2 b2); [subst|..];
   [destruct (Z.compare_spec a3 b3); [subst|..]|..]|..];
  repeat split; intros H'; try discriminate; try congruence;
  try (inversion H'; subst); try lia; try reflexivity.
Qed.

Lemma compare_key x y :
  x <> S754_nan -> y <> S754_nan ->
  SFcompare x y = Some (lexcmp (key x) (key y)).
Proof.
  intros Hx Hy.
  destruct x as [[]|[]| |[] mx ex]; try congruence;
  destruct y as [[]|[]| |[] my ey]; try congruence;
  simpl; try reflexivity.
  - replace (Z.compare (- ex) (- ey)) with (Z.compare ey ex)
      by (rewrite Z.compare_opp; reflexivity).
    rewrite (Z.compare_antisym ey ex).
    destruct (Z.compare ey ex); reflexivity.
Qed.

Lemma sfltb_iff u v :
  SFltb u v = true <-> (u <> S754_nan /\ v <> S754_nan /\ lex_lt (key u) (key v)).
Proof.
  unfold SFltb. pose proof (lexcmp_spec (key u) (key v)) as [[L1 L2] _].
  destruct u; try (split; [discriminate | intros (H & _); congruence]).
  all: destruct v; try (split; [discriminate | intros (_ & H & _); congruence]).
  all: rewrite compare_key by discriminate;
       split; [intros H; split; [discriminate|]; split; [discriminate|];
               destruct (lexcmp _ _) eqn:C;
               [discriminate | apply L1; reflexivity | discriminate]
              | intros (_ & _ & H); rewrite (L2 H); reflexivity].
Qed.

Definition lex_le a b := lex_lt a b \/ a = b.

Lemma sfleb_iff u v :
  SFleb u v = true <-> (u <> S754_nan /\ v <> S754_nan /\ lex_le (key u) (key v)).
Proof.
  unfold SFleb. pose proof (lexcmp_spec (key u) (key v)) as [[L1 L2] [[E1 E2] _]].
  destruct u; try (split; [discriminate | intros (H & _); congruence]).
  all: destruct v; try (split; [discriminate | intros (_ & H & _); congruence]).
  all: rewrite compare_key by discriminate;
       split; [intros H; split; [discriminate|]; split; [discriminate|];
               destruct (lexcmp _ _) eqn:C;
               [right; apply E1 | left; apply L1 | discriminate]; reflexivity
              | intros (_ & _ & [H | H]); [rewrite (L2 H) | rewrite (E2 H)]; reflexivity].
Qed.

(** The order value of a primitive float: [None] for NaN. *)
Definition ord (x : float) : option (Z * Z * Z) :=
  match Prim2SF x with
  | S754_nan => None
  | s => Some (key s)
  end.

Lemma ord_some x a :
  ord x = Some a <-> Prim2SF x <> S754_nan /\ key (Prim2SF x) = a.
Proof.
  unfold ord; destruct (Prim2SF x); split;
  intros H; try discriminate; try (inversion H; subst); intuition congruence.
Qed.

Lemma ltb_ord x y :
  (x <? y)%float = true <->
  exists a b, ord x = Some a /\ ord y = Some b /\ lex_lt a b.
Proof.
  rewrite ltb_spec, sfltb_iff. split.
  - intros (H1 & H2 & H3). exists (key (Prim2SF x)), (key (Prim2SF y)).
    rewrite !ord_some. tauto.
  - intros (a & b & Ha & Hb & Hab). apply ord_some in Ha, Hb.
    destruct Ha as [Ha1 Ha2], Hb as [Hb1 Hb2]; subst. tauto.
Qed.

Lemma leb_ord x y :
  (x <=? y)%float = true <->
  exists a b, ord x = Some a /\ ord y = Some b /\ lex_le a b.
Proof.
  rewrite leb_spec, sfleb_iff. split.
  - intros (H1 & H2 & H3). exists (key (Prim2SF x)), (key (Prim2SF y)).
    rewrite !ord_some. tauto.
  - intros (a & b & Ha & Hb & Hab). apply ord_some in Ha, Hb.
    destruct Ha as [Ha1 Ha2], Hb as [Hb1 Hb2]; subst. tauto.
Qed.

Lemma lex_lt_irrefl a : ~ lex_lt a a.
Proof. destruct a as [[a1 a2] a3]; simpl; lia. Qed.

Lemma lex_lt_trans a b c : lex_lt a b -> lex_lt b c -> lex_lt a c.
Proof. destruct a as [[a1 a2] a3], b as [[b1 b2] b3], c as [[c1 c2] c3]; simpl; lia. Qed.

Lemma lex_total a b : lex_lt a b \/ lex_le b a.
Proof.
  unfold lex_le; destruct a as [[a1 a2] a3], b as [[b1 b2] b3]; simpl.
  destruct (Z.lt_trichotomy a1 b1) as [?|[?|?]];
  [|destruct (Z.lt_trichotomy a2 b2) as [?|[?|?]];
    [|destruct (Z.lt_trichotomy a3 b3) as [?|[?|?]]|]|];
  subst; try (left; lia); right; try (left; lia); right; reflexivity.
Qed.

Lemma lex_lt_le_false a b : lex_lt a b -> lex_le b a -> False.
Proof.
  unfold lex_le; intros H [H'|H']; [|subst; exact (lex_lt_irrefl _ H)].
  exact (lex_lt_irrefl _ (lex_lt_trans _ _ _ H H')).
Qed.

Lemma lex_le_trans a b c : lex_le a b -> lex_le b c -> lex_le a c.
Proof.
  unfold lex_le; intros [H|H] [H'|H']; subst; auto.
  left; exact (lex_lt_trans _ _ _ H H').
Qed.

Lemma lex_le_lt_trans a b c : lex_le a b -> lex_lt b c -> lex_lt a c.
Proof. unfold lex_le; intros [H|H] H'; subst; eauto using lex_lt_trans. Qed.

Lemma lex_lt_le_trans a b c : lex_lt a b -> lex_le b c -> lex_lt a c.
Proof. unfold lex_le; intros H [H'|H']; subst; eauto using lex_lt_trans. Qed.

Ltac ord_hyps :=
  repeat match goal with
  | H : (_ <? _)%float = true |- _ =>
      apply ltb_ord in H; destruct H as (? & ? & ? & ? & ?)
  | H : (_ <=? _)%float = true |- _ =>
      apply leb_ord in H; destruct H as (? & ? & ? & ? & ?)
  | H1 : ord ?x = Some ?a, H2 : ord ?x = Some ?b |- _ =>
      rewrite H1 in H2; injection H2; clear H2; intro; subst b
  end.

Lemma ltb_leb_false x y : (x <? y)%float = true -> (y <=? x)%float = false.
Proof.
  intros H. destruct (y <=? x)%float eqn:E; [|reflexivity].
  exfalso. ord_hyps. eauto using lex_lt_le_false.
Qed.

Lemma leb_trans x y z :
  (x <=? y)%float = true -> (y <=? z)%float = true -> (x <=? z)%float = true.
Proof. intros H1 H2. ord_hyps. apply leb_ord. do 2 eexists; repeat split; eauto using lex_le_trans. Qed.

Lemma leb_ltb_trans x y z :
  (x <=? y)%float = true -> (y <? z)%float = true -> (x <? z)%float = true.
Proof. intros H1 H2. ord_hyps. apply ltb_ord. do 2 eexists; repeat split; eauto using lex_le_lt_trans. Qed.

Lemma ltb_leb_trans x y z :
  (x <? y)%float = true -> (y <=? z)%float = true -> (x <? z)%float = true.
Proof. intros H1 H2. ord_hyps. apply ltb_ord. do 2 eexists; repeat split; eauto using lex_lt_le_trans. Qed.

Lemma ltb_false_leb x y :
  ord x <> None -> ord y <> None ->
  (x <? y)%float = false -> (y <=? x)%float = true.
Proof.
  intros Hx Hy H.
  destruct (ord x) as [a|] eqn:Ea; [|congruence].
  destruct (ord y) as [b|] eqn:Eb; [|congruence].
  apply leb_ord. exists b, a. repeat split; auto.
  destruct (lex_total a b) as [L|L]; auto.
  assert (T : (x <? y)%float = true) by (apply ltb_ord; eauto). congruence.
Qed.

Lemma leb_ord_some x y : (x <=? y)%float = true -> ord x <> None /\ ord y <> None.
Proof. intros H. ord_hyps. split; congruence. Qed.

Lemma leb_refl x : ord x <> None -> (x <=? x)%float = true.
Proof.
  intros H. destruct (ord x) as [a|] eqn:E; [|congruence].
  apply leb_ord. exists a, a. unfold lex_le. auto.
Qed.

End FOrd.

(* ------------------------------------------------------------------ *)
(** ** Exact division by one *)

Module FArith.

#[local] Open Scope Z_scope.

Lemma div_eucl_split a b : Z.div_eucl a b = (a / b, a mod b).
Proof. unfold Z.div, Z.modulo. destruct (Z.div_eucl a b); reflexivity. Qed.

Lemma sf_div_one s m e :
  valid_binary (S754_finite s m e) = true ->
  SF64div (S754_finite s m e) (S754_finite false 4503599627370496 (-52)) = S754_finite s m e.
Proof.
  intros V. unfold valid_binary, bounded, canonical_mantissa in V.
  apply andb_prop in V as [V1 V2]. apply Z.eqb_eq in V1. apply Z.leb_le in V2.
  unfold SF64div, SFdiv, SFdiv_core_binary.
  unfold fexp, emin in *. unfold prec, emax in *. simpl Zdigits2.
  set (D := Zpos (digits2_pos m)) in *.
  assert (HD : 0 < D) by reflexivity.
  rewrite xorb_false_r.
  assert (HA : (D = 53 /\ -1074 < e) \/ (e = -1074 /\ D <= 53)) by lia.
  destruct HA as [[HD1 He] | [He HD1]].
  - replace (Z.min (Z.max (D + e - (53 + -52) - 53) (3 - 1024 - 53)) (e - -52)) with (e - 1) by lia.
    replace (e - -52 - (e - 1)) with 53 by lia.
    rewrite div_eucl_split.
    replace (Z.shiftl (Zpos m) 53) with (Zpos (xO m) * 4503599627370496)
      by (rewrite Z.shiftl_mul_pow2 by lia; rewrite (Pos2Z.inj_xO m); change (2 ^ 53) with 9007199254740992; lia).
    rewrite Z.div_mul by lia. rewrite Z.mod_mul by lia.
    unfold binary_round_aux, shr_fexp, shr. simpl Zdigits2.
    rewrite Pos2Z.inj_succ; fold D. unfold fexp.
    replace (Z.max (Z.succ D + (e - 1) - 53) (SpecFloat.emin 53 1024) - (e - 1)) with 1
      by (unfold SpecFloat.emin; lia).
    simpl iter_pos. simpl new_location. simpl shr_record_of_loc. simpl shr_1.
    simpl shr_m. simpl loc_of_shr_record. simpl round_nearest_even. simpl Zdigits2. fold D.
    replace (Z.max (D + (e - 1 + 1) - 53) (SpecFloat.emin 53 1024) - (e - 1 + 1)) with 0
      by (unfold SpecFloat.emin; lia).
    replace (e - 1 + 1) with e by lia.
    simpl. rewrite (proj2 (Z.leb_le e 971) V2). reflexivity.
  - subst e. replace (Z.min (Z.max (D + -1074 - (53 + -52) - 53) (3 - 1024 - 53)) (-1074 - -52)) with (-1074) by lia.
    simpl Z.sub. rewrite div_eucl_split.
    replace (Z.shiftl (Zpos m) 52) with (Zpos m * 4503599627370496)
      by (rewrite Z.shiftl_mul_pow2 by lia; reflexivity).
    rewrite Z.div_mul by lia. rewrite Z.mod_mul by lia.
    unfold binary_round_aux, shr_fexp, shr. simpl Zdigits2. fold D. unfold fexp.
    replace (Z.max (D + -1074 - 53) (SpecFloat.emin 53 1024) - -1074) with 0
      by (unfold SpecFloat.emin; lia).
    simpl new_location. simpl shr_record_of_loc.
    simpl shr_m. simpl loc_of_shr_record. simpl round_nearest_even. simpl Zdigits2. fold D.
    replace (Z.max (D + -1074 - 53) (SpecFloat.emin 53 1024) - -1074) with 0
      by (unfold SpecFloat.emin; lia).
    reflexivity.
Qed.

Lemma div_one (d : float) : (d / 1)%float = d.
Proof.
  apply Prim2SF_inj. rewrite div_spec.
  replace (Prim2SF 1%float) with (S754_finite false 4503599627370496 (-52))
    by (vm_compute; reflexivity).
  pose proof (Prim2SF_valid d) as V.
  destruct (Prim2SF d) as [s|s| |s m e];
    [destruct s; reflexivity | destruct s; reflexivity | reflexivity |].
  apply sf_div_one; exact V.
Qed.

End FArith.

(* ------------------------------------------------------------------ *)
(** ** Rounding of integers to binary64 *)

(** [binary_round] returns a valid binary64 value, finite with the sign
    of its argument when the exponent is in the normal range: the facts
    needed about [float_of_Z]. *)
Module FConv.

Local Open Scope Z_scope.
Lemma pow2_pos k : 0 <= k -> 0 < 2 ^ k.
Proof. intros; apply Z.pow_pos_nonneg; lia. Qed.

Lemma digits2_spec p :
  2 ^ (Zpos (digits2_pos p) - 1) <= Zpos p < 2 ^ Zpos (digits2_pos p).
Proof.
  induction p as [p IH|p IH|]; simpl digits2_pos; [| |simpl; lia];
    rewrite Pos2Z.inj_succ;
    set (d := Zpos (digits2_pos p)) in *;
    assert (0 < d) by (unfold d; lia);
    replace (Z.succ d - 1) with d by lia;
    rewrite Z.pow_succ_r by lia;
    replace d with (Z.succ (d - 1)) at 1 by lia;
    rewrite Z.pow_succ_r by lia; lia.
Qed.

Lemma digits2_unique p k :
  0 < k -> 2 ^ (k - 1) <= Zpos p < 2 ^ k -> Zpos (digits2_pos p) = k.
Proof.
  intros Hk [H1 H2]. pose proof (digits2_spec p) as [D1 D2].
  set (d := Zpos (digits2_pos p)) in *. assert (0 < d) by (unfold d; lia).
  destruct (Z.lt_trichotomy d k) as [L|[E|G]]; [|exact E|].
  - assert (2 ^ d <= 2 ^ (k - 1)) by (apply Z.pow_le_mono_r; lia). lia.
  - assert (2 ^ k <= 2 ^ (d - 1)) by (apply Z.pow_le_mono_r; lia). lia.
Qed.

Lemma shr_1_m r : 0 <= shr_m r -> shr_m (shr_1 r) = Z.shiftr (shr_m r) 1.
Proof.
  destruct r as [m rr ss]; simpl; intros H.
  rewrite <- Z.div2_spec.
  destruct m as [|[p|p|]|p]; simpl; try reflexivity; lia.
Qed.

Lemma iter_shr p : forall r, 0 <= shr_m r ->
  shr_m (iter_pos shr_1 p r) = Z.shiftr (shr_m r) (Zpos p).
Proof.
  induction p as [p IH|p IH|]; intros r H; simpl.
  - assert (H1 : 0 <= shr_m (shr_1 r)) by (rewrite shr_1_m by lia; apply Z.shiftr_nonneg; lia).
    assert (H2 : 0 <= shr_m (iter_pos shr_1 p (shr_1 r))) by (rewrite IH by lia; apply Z.shiftr_nonneg; lia).
    rewrite IH, IH, shr_1_m by lia.
    rewrite !Z.shiftr_shiftr by lia. f_equal. lia.
  - assert (H2 : 0 <= shr_m (iter_pos shr_1 p r)) by (rewrite IH by lia; apply Z.shiftr_nonneg; lia).
    rewrite IH, IH by lia. rewrite Z.shiftr_shiftr by lia. f_equal. lia.
  - apply shr_1_m; exact H.
Qed.

Lemma shr_spec r e n : 0 <= shr_m r ->
  shr_m (fst (shr r e n)) = Z.shiftr (shr_m r) (Z.max n 0) /\
  snd (shr r e n) = e + Z.max n 0.
Proof.
  intros H. destruct n as [|p|p]; simpl.
  - rewrite Z.shiftr_0_r; split; [reflexivity|lia].
  - rewrite iter_shr by exact H. split; [reflexivity|lia].
  - rewrite Z.shiftr_0_r; split; [reflexivity|lia].
Qed.

Lemma round_ne_range m l : 0 <= m ->
  round_nearest_even m l = m \/ round_nearest_even m l = m + 1.
Proof.
  intros H; destruct l as [|[| |]]; simpl; auto.
  destruct (Z.even m); auto.
Qed.

Lemma iter_xO p d : Zpos (Pos.iter xO p d) = Zpos p * 2 ^ Zpos d.
Proof.
  induction d as [|d IH] using Pos.peano_ind.
  - simpl. lia.
  - rewrite Pos.iter_succ, Pos2Z.inj_succ, Z.pow_succ_r by lia.
    change (Zpos (xO (Pos.iter xO p d))) with (2 * Zpos (Pos.iter xO p d)).
    rewrite IH. lia.
Qed.

Lemma fexp_eq x : fexp prec emax x = Z.max (x - 53) (-1074).
Proof. reflexivity. Qed.

Lemma bra_spec sx mx e :
  let D := Zpos (digits2_pos mx) in
  e <= fexp prec emax (D + e) ->
  valid_binary (binary_round_aux prec emax sx (Zpos mx) e loc_Exact) = true /\
  (-1074 <= D + e - 53 -> D + e - 52 <= 971 ->
   exists m e', binary_round_aux prec emax sx (Zpos mx) e loc_Exact = S754_finite sx m e').
Proof.
  intros D Hs. rewrite fexp_eq in Hs.
  pose proof (digits2_spec mx) as [Dl Dh]. fold D in Dl, Dh.
  assert (D1 : 0 < D) by (unfold D; lia).
  unfold binary_round_aux.
  set (s1 := fexp prec emax (Zdigits2 (Zpos mx) + e) - e).
  assert (Es1 : s1 = Z.max (D + e - 53) (-1074) - e) by reflexivity.
  unfold shr_fexp. fold s1.
  pose proof (shr_spec (shr_record_of_loc (Zpos mx) loc_Exact) e s1) as [M1 E1];
    [simpl; lia|].
  destruct (shr (shr_record_of_loc (Zpos mx) loc_Exact) e s1) as [r1 e1] eqn:Sh1.
  simpl in M1, E1. rewrite Z.max_l in M1, E1 by lia.
  set (m1 := shr_m r1) in *.
  assert (P2 : 0 < 2 ^ s1) by (apply pow2_pos; lia).
  assert (M1ge : 0 <= m1) by (rewrite M1; apply Z.shiftr_nonneg; lia).
  assert (M1lt : m1 < 2 ^ 53).
  { rewrite M1, Z.shiftr_div_pow2 by lia.
    apply Z.div_lt_upper_bound; [lia|].
    rewrite <- Z.pow_add_r by lia.
    apply Z.lt_le_trans with (2 ^ D); [lia|]. apply Z.pow_le_mono_r; lia. }
  assert (Mnorm : -1074 <= D + e - 53 -> 2 ^ 52 <= m1).
  { intros N. rewrite M1, Z.shiftr_div_pow2 by lia.
    apply Z.div_le_lower_bound; [lia|].
    rewrite <- Z.pow_add_r by lia.
    apply Z.le_trans with (2 ^ (D - 1)); [|lia]. apply Z.pow_le_mono_r; lia. }
  set (m2 := round_nearest_even m1 (loc_of_shr_record r1)).
  assert (R2 : m2 = m1 \/ m2 = m1 + 1) by (apply round_ne_range; lia).
  assert (M2lt : m2 <= 2 ^ 53) by lia.
  set (s2 := fexp prec emax (Zdigits2 m2 + e1) - e1).
  pose proof (shr_spec (shr_record_of_loc m2 loc_Exact) e1 s2) as [M3 E3];
    [simpl; lia|].
  destruct (shr (shr_record_of_loc m2 loc_Exact) e1 s2) as [r2 e2] eqn:Sh2.
  simpl in M3, E3.
  destruct m2 as [|q|q] eqn:Hm2.
  - (* the rounded mantissa is zero *)
    rewrite Z.shiftr_0_l in M3. rewrite M3. split; [reflexivity|].
    intros N. pose proof (Mnorm N). lia.
  - pose proof (digits2_spec q) as [Ql Qh].
    set (D2 := Zpos (digits2_pos q)) in *.
    assert (D2le : D2 <= 54).
    { destruct (Z.le_gt_cases D2 54) as [|G]; [assumption|].
      assert (2 ^ 54 <= 2 ^ (D2 - 1)) by (apply Z.pow_le_mono_r; lia).
      change (2 ^ 54) with (2 * 2 ^ 53) in *. lia. }
    assert (Es2 : s2 = Z.max (D2 + e1 - 53) (-1074) - e1) by reflexivity.
    assert (S2 : 0 <= s2 <= 1).
    { rewrite Es2. split; [|lia].
      destruct (Z.le_gt_cases (D + e - 53) (-1074)) as [L|G]; [lia|].
      assert (2 ^ 52 <= m1) by (apply Mnorm; lia).
      assert (53 <= D2); [|lia].
      destruct (Z.le_gt_cases 53 D2) as [|L]; [assumption|].
      assert (2 ^ D2 <= 2 ^ 52) by (apply Z.pow_le_mono_r; lia). lia. }
    rewrite Z.max_l in M3, E3 by lia.
    assert (Hq : exists q3, shr_m r2 = Zpos q3 /\
               fexp prec emax (Zpos (digits2_pos q3) + e2) = e2).
    { destruct (Z.eq_dec s2 0) as [Z0|Z1].
      - exists q. rewrite M3, Z0, Z.shiftr_0_r. split; [reflexivity|].
        rewrite E3, Z0, Z.add_0_r, fexp_eq. fold D2. lia.
      - assert (s2 = 1) by lia.
        assert (D2 = 54) by lia.
        assert (Zpos q = 2 ^ 53).
        { assert (2 ^ (D2 - 1) = 2 ^ 53) by (f_equal; lia). lia. }
        exists (2 ^ 52)%positive. rewrite M3, H, Z.shiftr_div_pow2 by lia.
        rewrite H1. split; [reflexivity|].
        rewrite (digits2_unique (2 ^ 52) 53) by (simpl; lia).
        rewrite E3, fexp_eq. lia. }
    destruct Hq as [q3 [Hq3 Cq3]]. rewrite Hq3.
    split.
    + destruct (e2 <=? emax - prec) eqn:Be; [|reflexivity].
      simpl. unfold bounded, canonical_mantissa. rewrite Cq3, Z.eqb_refl, Be. reflexivity.
    + intros N B. assert (e2 <= emax - prec) by (unfold emax, prec; simpl; lia).
      rewrite (proj2 (Z.leb_le _ _) H). eauto.
  - pose proof (round_ne_range m1 (loc_of_shr_record r1)). lia.
Qed.

Lemma br_spec sx mx ex :
  let D := Zpos (digits2_pos mx) in
  valid_binary (binary_round prec emax sx mx ex) = true /\
  (-1074 <= D + ex - 53 -> D + ex - 52 <= 971 ->
   exists m e', binary_round prec emax sx mx ex = S754_finite sx m e').
Proof.
  intros D. unfold binary_round, shl_align. fold D.
  destruct (fexp prec emax (D + ex) - ex) as [|d|d] eqn:Ed.
  - apply bra_spec. fold D. lia.
  - apply bra_spec. fold D. lia.
  - pose proof (digits2_spec mx) as [Dl Dh]. fold D in Dl, Dh.
    assert (0 < 2 ^ Zpos d) by (apply pow2_pos; lia).
    assert (Dz : Zpos (digits2_pos (Pos.iter xO mx d)) = D + Zpos d).
    { apply digits2_unique; [unfold D; lia|]. rewrite iter_xO.
      rewrite Z.add_sub_swap, !Z.pow_add_r by (unfold D; lia). nia. }
    pose proof (bra_spec sx (Pos.iter xO mx d) (fexp prec emax (D + ex))) as B.
    cbv zeta in B. rewrite Dz in B.
    replace (D + Zpos d + fexp prec emax (D + ex)) with (D + ex) in B by lia.
    destruct B as [B1 B2]; [lia|]. split; [exact B1|].
    intros N1 N2. apply B2; rewrite fexp_eq in *; lia.
Qed.

Lemma binary_normalize_valid n :
  valid_binary (binary_normalize prec emax n 0 false) = true.
Proof. destruct n as [|p|p]; [reflexivity| |]; apply br_spec. Qed.

Lemma Prim2SF_float_of_Z n :
  Prim2SF (float_of_Z n) = binary_normalize prec emax n 0 false.
Proof. unfold float_of_Z. apply Prim2SF_SF2Prim, binary_normalize_valid. Qed.

(** A positive int below [2^64] converts to a positive finite float. *)
Lemma float_of_Z_finite n : 1 <= n < 2 ^ 64 ->
  exists m e, Prim2SF (float_of_Z n) = S754_finite false m e.
Proof.
  intros Hn. rewrite Prim2SF_float_of_Z.
  destruct n as [|p|p]; try lia. simpl binary_normalize.
  pose proof (digits2_spec p) as [Dl Dh].
  assert (Zpos (digits2_pos p) <= 64).
  { destruct (Z.le_gt_cases (Zpos (digits2_pos p)) 64) as [|G]; [assumption|].
    assert (2 ^ 64 <= 2 ^ (Zpos (digits2_pos p) - 1)) by (apply Z.pow_le_mono_r; lia).
    lia. }
  apply br_spec; lia.
Qed.

End FConv.

Open Scope float_scope.

(* ------------------------------------------------------------------ *)
(** ** Facts about the Python-level operations *)

Module PyFacts.

Lemma bind_ok {A B} (a : A) (k : A -> res B) : bind (Ok a) k = k a.
Proof. reflexivity. Qed.

Lemma py_div_ok a b : (b =? 0) = false -> py_div a b = Ok (a / b).
Proof. unfold py_div. intros H; rewrite H; reflexivity. Qed.

(** Timestamps are read from an SQLite [INTEGER] column: 64-bit. *)
Definition int64 (z : Z) : Prop := (- 2 ^ 63 <= z < 2 ^ 63)%Z.

(** [float(n)] of a positive int below [2^64] succeeds with a non-zero
    float. *)
Lemma py_float_of_int_ok n : (1 <= n < 2 ^ 64)%Z ->
  py_float_of_int n = Ok (float_of_Z n) /\ (float_of_Z n =? 0) = false.
Proof.
  intros Hn. destruct (FConv.float_of_Z_finite n Hn) as [m [e He]].
  unfold py_float_of_int, is_infinity. rewrite !eqb_spec, abs_spec, He.
  split; reflexivity.
Qed.

Lemma float_of_Z_1 : float_of_Z 1 = 1.
Proof. reflexivity. Qed.

End PyFacts.

(* ------------------------------------------------------------------ *)
(** ** The mobile decimator ([_decimate_track]) *)

Module Decimation.
Import PyFacts.

(** C6: one iteration of the decimation loop, against the last emitted
    point [last].  When the keep-condition
    [d >= mobile_decim_d or dt >= mobile_decim_t] fails, the point is
    skipped and [last] stays the reference.  When it holds and
    [speed = d / max(dt, 1)] exceeds [max_speed_ms], the point is discarded
    and [last] stays the reference; when [speed <= max_speed_ms], the point
    is emitted and becomes the new reference.  (Timestamps are 64-bit, as
    read from the database.) *)
Theorem decim_step_spec (cfg : ClassifierConfig) (last curr : Obs)
    (decimated : list MobileTrackPoint) (d : float)
    (Hlast : int64 (ts last)) (Hcurr : int64 (ts curr))
    (Hd : Geo.haversine (lat last, lon last) (lat curr, lon curr) = Ok d) :
  let dt := (ts curr - ts last)%Z in
  let keep := (mobile_decim_d cfg <=? d) || (mobile_decim_t cfg <=? dt)%Z in
  let speed := d / float_of_Z (Z.max dt 1) in
  (keep = false ->
     Classifier.decim_step cfg (last, decimated) curr = Ok (last, decimated)) /\
  (keep = true -> (max_speed_ms cfg <? speed) = true ->
     Classifier.decim_step cfg (last, decimated) curr = Ok (last, decimated)) /\
  (keep = true -> (speed <=? max_speed_ms cfg) = true ->
     Classifier.decim_step cfg (last, decimated) curr
     = Ok (curr, decimated ++ [Classifier.to_mtp curr])).
Proof.
  intros dt keep speed.
  unfold int64 in *.
  destruct (py_float_of_int_ok (Z.max dt 1)) as [Hq Hz]; [unfold dt; lia|].
  unfold Classifier.decim_step. rewrite Hd, bind_ok. fold dt. fold keep.
  rewrite Hq, bind_ok, py_div_ok by exact Hz. rewrite bind_ok. fold speed.
  split; [|split].
  - intros K; rewrite K; reflexivity.
  - intros K G. rewrite K, (FOrd.ltb_leb_false _ _ G). reflexivity.
  - intros K L. rewrite K, L. reflexivity.
Qed.

(** The hypotheses of C6 hold on a concrete step: [40 s] and about
    [111 m] after the reference, the point is emitted. *)
Lemma decim_step_spec_witness :
  int64 0 /\ int64 40 /\
  Classifier.decim_step driving (mkObs "a" 0 0 0 0, []) (mkObs "a" 40 0 0.001 0)
  = Ok (mkObs "a" 40 0 0.001 0, [Classifier.to_mtp (mkObs "a" 40 0 0.001 0)]).
Proof.
  assert (H1 : int64 (ts (mkObs "a" 0 0 0 0))) by (unfold int64; simpl; lia).
  assert (H2 : int64 (ts (mkObs "a" 40 0 0.001 0))) by (unfold int64; simpl; lia).
  assert (H3 : Geo.haversine (lat (mkObs "a" 0 0 0 0), lon (mkObs "a" 0 0 0 0))
      (lat (mkObs "a" 40 0 0.001 0), lon (mkObs "a" 40 0 0.001 0))
      = Ok 111.19492664455875) by (vm_compute; reflexivity).
  destruct (decim_step_spec driving _ _ [] _ H1 H2 H3) as [_ [_ C]].
  split; [exact H1|split; [exact H2|]].
  apply C; vm_compute; reflexivity.
Defined.

End Decimation.

(* ------------------------------------------------------------------ *)
(** ** The stationary splitter ([_split_stationary]) *)

Module Splitter.
Import PyFacts.

Lemma is_nan_ord x : is_nan x = false -> FOrd.ord x <> None.
Proof.
  unfold is_nan, FOrd.ord. rewrite eqb_spec.
  destruct (Prim2SF x); simpl; congruence.
Qed.

Lemma ltb_leb x y : (x <? y) = true -> (x <=? y) = true.
Proof.
  intros H. FOrd.ord_hyps. apply FOrd.leb_ord. do 2 eexists; repeat split; eauto.
  left; assumption.
Qed.

Lemma ltb_ord_r x y : (x <? y) = true -> FOrd.ord y <> None.
Proof. intros H. FOrd.ord_hyps. congruence. Qed.

Lemma ord_0 : FOrd.ord 0 <> None.
Proof. vm_compute. discriminate. Qed.

(** [p] comes before [q] in the list: a pair [(pts[i], pts[j])], [i < j]. *)
Inductive pair_in : list Obs -> Obs -> Obs -> Prop :=
| pair_here p q l : In q l -> pair_in (p :: l) p q
| pair_there x p q l : pair_in l p q -> pair_in (x :: l) p q.

Definition dist (p q : Obs) : res float := Geo.haversine (lat p, lon p) (lat q, lon q).

(** The running maximum of [if d > maxd: maxd = d]. *)
Lemma max_step_spec m d : FOrd.ord m <> None ->
  let m1 := if m <? d then d else m in
  FOrd.ord m1 <> None /\ (m <=? m1) = true /\
  (is_nan d = false -> (d <=? m1) = true).
Proof.
  intros Hm m1. unfold m1. destruct (m <? d) eqn:L.
  - pose proof (ltb_ord_r _ _ L).
    split; [assumption|]. split; [apply ltb_leb; assumption|].
    intros _; apply FOrd.leb_refl; assumption.
  - split; [assumption|]. split; [apply FOrd.leb_refl; assumption|].
    intros N. apply FOrd.ltb_false_leb; auto using is_nan_ord.
Qed.

Lemma maxd_row_spec p qs : forall m m', FOrd.ord m <> None ->
  Classifier.maxd_row p qs m = Ok m' ->
  FOrd.ord m' <> None /\ (m <=? m') = true /\
  (forall q d, In q qs -> dist p q = Ok d -> is_nan d = false -> (d <=? m') = true) /\
  (m' = m \/ exists q, In q qs /\ dist p q = Ok m').
Proof.
  induction qs as [|q qs IH]; intros m m' Hm H;
    cbn [Classifier.maxd_row Classifier.maxd_all] in H.
  - injection H as <-. split; [assumption|]. split; [apply FOrd.leb_refl; assumption|].
    split; [intros ? ? []|left; reflexivity].
  - destruct (Geo.haversine (lat p, lon p) (lat q, lon q)) as [d| |] eqn:Hd;
      try discriminate.
    cbn [bind] in H.
    destruct (max_step_spec m d Hm) as (O1 & L1 & D1).
    destruct (IH _ _ O1 H) as (O' & L' & A' & E').
    split; [assumption|]. split; [eapply FOrd.leb_trans; eassumption|].
    split.
    + intros q' d' [<-|Iq] Hd' N.
      * unfold dist in Hd'. rewrite Hd in Hd'. injection Hd' as <-.
        eapply FOrd.leb_trans; [apply D1, N|exact L'].
      * eapply A'; eassumption.
    + destruct E' as [E'|(q' & Iq & Hq)].
      * destruct (m <? d); [right; exists q; split; [left; reflexivity|]|left];
          unfold dist; congruence.
      * right; exists q'; split; [right|]; assumption.
Qed.

Lemma maxd_all_spec pts : forall m m', FOrd.ord m <> None ->
  Classifier.maxd_all pts m = Ok m' ->
  FOrd.ord m' <> None /\ (m <=? m') = true /\
  (forall p q d, pair_in pts p q -> dist p q = Ok d -> is_nan d = false ->
     (d <=? m') = true) /\
  (m' = m \/ exists p q, pair_in pts p q /\ dist p q = Ok m').
Proof.
  induction pts as [|p qs IH]; intros m m' Hm H;
    cbn [Classifier.maxd_row Classifier.maxd_all] in H.
  - injection H as <-. split; [assumption|]. split; [apply FOrd.leb_refl; assumption|].
    split; [intros ? ? ? P; inversion P|left; reflexivity].
  - destruct (Classifier.maxd_row p qs m) as [m1| |] eqn:Hr; try discriminate.
    cbn [bind] in H.
    destruct (maxd_row_spec p qs m m1 Hm Hr) as (O1 & L1 & A1 & E1).
    destruct (IH _ _ O1 H) as (O' & L' & A' & E').
    split; [assumption|]. split; [eapply FOrd.leb_trans; eassumption|].
    split.
    + intros p' q' d P Hd N. inversion P; subst.
      * eapply FOrd.leb_trans; [eapply A1; eassumption|exact L'].
      * eapply A'; eassumption.
    + destruct E' as [E'|(p' & q' & P & Hq)].
      * subst m'. destruct E1 as [E1|(q & Iq & Hq)]; [left; assumption|].
        right; exists p, q; split; [constructor; assumption|assumption].
      * right; exists p', q'; split; [constructor 2; assumption|assumption].
Qed.


(** [maxd <= r_stationary] for the window's [maxd]. *)
Definition is_stationary (cfg : ClassifierConfig) (w : Win) : bool :=
  match Classifier.diameter w with Ok d => d <=? r_stationary cfg | _ => false end.

Lemma split_stationary_filter cfg wins : forall s m,
  Classifier.split_stationary cfg wins = Ok (s, m) <->
  Forall (fun w => exists d, Classifier.diameter w = Ok d) wins /\
  s = filter (is_stationary cfg) wins /\
  m = filter (fun w => negb (is_stationary cfg w)) wins.
Proof.
  induction wins as [|w ws IH]; intros s m.
  - cbn [Classifier.split_stationary filter]. split.
    + intros H; injection H as <- <-. auto.
    + intros (_ & -> & ->). reflexivity.
  - cbn [Classifier.split_stationary filter].
    destruct (Classifier.diameter w) as [d| |] eqn:Hd; cbn [bind].
    + assert (St : is_stationary cfg w = (d <=? r_stationary cfg))
        by (unfold is_stationary; rewrite Hd; reflexivity).
      rewrite St.
      destruct (Classifier.split_stationary cfg ws) as [[s' m']| |] eqn:Hs; cbn [bind].
      * destruct (proj1 (IH s' m') eq_refl) as (F & -> & ->).
        destruct (d <=? r_stationary cfg); cbn [negb]; split.
        -- intros H; injection H as <- <-. split; [constructor; eauto|auto].
        -- intros (_ & -> & ->). reflexivity.
        -- intros H; injection H as <- <-. split; [constructor; eauto|auto].
        -- intros (_ & -> & ->). reflexivity.
      * split; [discriminate|]. intros (F & _). inversion F; subst.
        pose proof (proj2 (IH _ _) (conj H2 (conj eq_refl eq_refl))) as C.
        discriminate C.
      * split; [discriminate|]. intros (F & _). inversion F; subst.
        pose proof (proj2 (IH _ _) (conj H2 (conj eq_refl eq_refl))) as C.
        discriminate C.
    + split; [discriminate|]. intros (F & _). inversion F as [|? ? [d' Hd'] _].
      congruence.
    + split; [discriminate|]. intros (F & _). inversion F as [|? ? [d' Hd'] _].
      congruence.
Qed.

Lemma filter_partition_perm {A} (f : A -> bool) l :
  Permutation (filter f l ++ filter (fun x => negb (f x)) l) l.
Proof.
  induction l as [|a l IH]; [constructor|]. simpl.
  destruct (f a); simpl.
  - constructor; exact IH.
  - apply Permutation_sym, Permutation_cons_app, Permutation_sym, IH.
Qed.

Lemma diameter_single w p : points w = [p] -> Classifier.diameter w = Ok 0.
Proof. intros H. unfold Classifier.diameter. rewrite H. reflexivity. Qed.

(** C5: [_split_stationary] returns [Ok (stat_wins, mob_wins)] exactly when
    every window's [d_max] is computed, and then [stat_wins] holds the
    windows with [d_max <= r_stationary] and [mob_wins] the others, both in
    input order, so that together they are a permutation of the input.
    [d_max] is the maximum pairwise haversine distance: every pairwise
    distance (other than NaN) is at most [d_max], and [d_max] is one of them
    or [0.0] when there is none.  A single-point window has [d_max = 0.0]
    and is stationary when [r_stationary >= 0]. *)
Theorem split_stationary_spec (cfg : ClassifierConfig) :
  (forall wins s m, Classifier.split_stationary cfg wins = Ok (s, m) <->
     Forall (fun w => exists d, Classifier.diameter w = Ok d) wins /\
     s = filter (is_stationary cfg) wins /\
     m = filter (fun w => negb (is_stationary cfg w)) wins) /\
  (forall wins s m, Classifier.split_stationary cfg wins = Ok (s, m) ->
     Permutation (s ++ m) wins) /\
  (forall w d, Classifier.diameter w = Ok d ->
     (forall p q dpq, pair_in (points w) p q -> dist p q = Ok dpq ->
        is_nan dpq = false -> (dpq <=? d) = true) /\
     (d = 0 \/ exists p q, pair_in (points w) p q /\ dist p q = Ok d)) /\
  (forall w p, points w = [p] ->
     Classifier.diameter w = Ok 0 /\
     ((0 <=? r_stationary cfg) = true -> is_stationary cfg w = true)).
Proof.
  split; [apply split_stationary_filter|].
  split.
  - intros wins s m H. apply split_stationary_filter in H as (_ & -> & ->).
    apply filter_partition_perm.
  - split.
    + intros w d H.
      destruct (maxd_all_spec (points w) 0 d ord_0 H) as (_ & _ & A & E).
      split; assumption.
    + intros w p H. pose proof (diameter_single w p H) as D.
      split; [exact D|]. unfold is_stationary. rewrite D. tauto.
Qed.

(** A one-point window and a two-point window [1.1 km] wide, with the
    driving preset. *)
Lemma split_stationary_spec_witness :
  let w1 := mkWin "a" 0 0 [mkObs "a" 0 0 0 (-50)] in
  let w2 := mkWin "b" 0 10 [mkObs "b" 0 0 0 (-50); mkObs "b" 10 0 0.01 (-50)] in
  Classifier.split_stationary driving [w1; w2] = Ok ([w1], [w2]) /\
  Permutation ([w1] ++ [w2]) [w1; w2].
Proof.
  intros w1 w2.
  assert (H : Classifier.split_stationary driving [w1; w2] = Ok ([w1], [w2]))
    by (vm_compute; reflexivity).
  split; [exact H|].
  exact (proj1 (proj2 (split_stationary_spec driving)) _ _ _ H).
Defined.

End Splitter.

(* ------------------------------------------------------------------ *)
(** ** Lists: adjacent elements, sorting by timestamp, MAC dictionaries *)

Module Lists.

(** [adj l a b]: [b] follows [a] immediately in [l]. *)
Inductive adj {A} : list A -> A -> A -> Prop :=
| adj_here a b l : adj (a :: b :: l) a b
| adj_there x a b l : adj l a b -> adj (x :: l) a b.

Definition le_ts (a b : Obs) : Prop := (ts a <= ts b)%Z.

Lemma sorted_adj l a b : Sorted le_ts l -> adj l a b -> le_ts a b.
Proof.
  intros S A. induction A as [a b l|x a b l A IH].
  - inversion S as [|? ? _ H]; subst. inversion H; assumption.
  - inversion S; subst. apply IH; assumption.
Qed.

Lemma insert_by_ts_perm o l : Permutation (insert_by_ts o l) (o :: l).
Proof.
  induction l as [|x r IH]; simpl; [reflexivity|].
  destruct (ts o <? ts x)%Z; [reflexivity|].
  rewrite IH. apply perm_swap.
Qed.

Lemma insert_by_ts_hdrel y o l :
  le_ts y o -> HdRel le_ts y l -> HdRel le_ts y (insert_by_ts o l).
Proof.
  intros H1 H2. destruct l as [|x r]; simpl.
  - constructor; assumption.
  - destruct (ts o <? ts x)%Z; constructor; [assumption|]. inversion H2; assumption.
Qed.

Lemma insert_by_ts_sorted o l : Sorted le_ts l -> Sorted le_ts (insert_by_ts o l).
Proof.
  induction l as [|x r IH]; intros S; simpl.
  - repeat constructor.
  - destruct (ts o <? ts x)%Z eqn:L.
    + constructor; [assumption|]. constructor. unfold le_ts. lia.
    + inversion S as [|? ? S' H]; subst. constructor; [apply IH; assumption|].
      apply insert_by_ts_hdrel; [unfold le_ts; lia|assumption].
Qed.

Lemma sort_by_ts_spec l :
  Sorted le_ts (sort_by_ts l) /\ Permutation (sort_by_ts l) l.
Proof.
  unfold sort_by_ts.
  assert (G : forall acc, Sorted le_ts acc ->
    Sorted le_ts (fold_left (fun acc o => insert_by_ts o acc) l acc) /\
    Permutation (fold_left (fun acc o => insert_by_ts o acc) l acc) (rev l ++ acc)).
  { induction l as [|o l IH]; intros acc S; simpl; [split; [assumption|reflexivity]|].
    destruct (IH (insert_by_ts o acc)) as [S' P']; [apply insert_by_ts_sorted; assumption|].
    split; [assumption|]. rewrite P', insert_by_ts_perm, <- app_assoc.
    apply Permutation_app_head. simpl. reflexivity. }
  destruct (G [] (Sorted_nil _)) as [S P]. split; [assumption|].
  rewrite P, app_nil_r. apply Permutation_sym, Permutation_rev.
Qed.

(** The [defaultdict] update. *)
Lemma upd_keys {V} (dflt : V) k f d x :
  In x (map fst (upd dflt k f d)) -> x = k \/ In x (map fst d).
Proof.
  induction d as [|[k' v] d IH]; simpl.
  - intuition.
  - destruct (String.eqb k k'); simpl; intuition.
Qed.

Lemma upd_nodup {V} (dflt : V) k f d :
  NoDup (map fst d) -> NoDup (map fst (upd dflt k f d)).
Proof.
  induction d as [|[k' v] d IH]; simpl; intros N.
  - repeat constructor; simpl; tauto.
  - inversion N as [|? ? Ni Nd]; subst.
    destruct (String.eqb k k') eqn:E; simpl; constructor; auto.
    intros I. apply upd_keys in I as [->|I]; [|contradiction].
    rewrite String.eqb_refl in E. discriminate.
Qed.

Lemma upd_in {V} (dflt : V) k f d k' v :
  In (k', v) (upd dflt k f d) ->
  In (k', v) d \/ (k' = k /\ (v = f dflt \/ exists v0, In (k, v0) d /\ v = f v0)).
Proof.
  induction d as [|[k1 v1] d IH]; simpl.
  - intros [E|[]]. injection E as <- <-. right; auto.
  - destruct (String.eqb k k1) eqn:E.
    + apply String.eqb_eq in E; subst k1.
      intros [E'|I]; [|auto]. injection E' as <- <-.
      right; split; [reflexivity|right; exists v1; auto].
    + intros [E'|I]; [auto|]. apply IH in I as [I|(-> & [H|(v0 & I0 & H)])]; auto.
      right; split; [reflexivity|right; exists v0; auto].
Qed.

End Lists.

(* ------------------------------------------------------------------ *)
(** ** The windowizer ([_windowize]) *)

Module Windows.
Import Lists.

(** Consecutive points are at most [T] apart, in non-decreasing order. *)
Definition run_ok (T : Z) (cur : list Obs) : Prop :=
  forall a b, adj cur a b -> (0 <= ts b - ts a < T)%Z.

(** What the code promises of each window [w] it emits for [m]. *)
Definition window_ok (cfg : ClassifierConfig) (m : string) (w : Win) : Prop :=
  wmac w = m /\ points w <> [] /\ run_ok (t_max_gap cfg) (points w) /\
  (min_window_len cfg <= Z.of_nat (List.length (points w)))%Z /\
  (exists p0, hd_error (points w) = Some p0 /\ ts_start w = ts p0 /\
              ts_end w = ts (last (points w) p0)).

Lemma adj_single {A} (x a b : A) : ~ adj [x] a b.
Proof. intros H; inversion H as [|? ? ? ? H']; inversion H'. Qed.

Lemma adj_app_last {A} (l : list A) x a b d :
  adj (l ++ [x]) a b -> adj l a b \/ (l <> [] /\ a = last l d /\ b = x).
Proof.
  induction l as [|y l IH]; simpl; intros H.
  - exfalso; exact (adj_single _ _ _ H).
  - destruct l as [|z l].
    + inversion H as [|? ? ? ? H']; subst.
      * right; split; [discriminate|split; reflexivity].
      * exfalso; exact (adj_single _ _ _ H').
    + inversion H as [|? ? ? ? H']; subst.
      * left; constructor.
      * destruct (IH H') as [L|(_ & -> & ->)]; [left; constructor; assumption|].
        right; split; [discriminate|auto].
Qed.

Lemma hd_app {A} (l l' : list A) d : l <> [] -> hd d (l ++ l') = hd d l.
Proof. destruct l; [contradiction|reflexivity]. Qed.

Lemma last_irrel {A} (l : list A) d d' : l <> [] -> last l d = last l d'.
Proof.
  induction l as [|x l IH]; intros Ne; [contradiction|].
  destruct l as [|y l]; [reflexivity|]. apply IH; discriminate.
Qed.

Lemma close_window_cases cfg m cur d :
  cur <> [] -> run_ok (t_max_gap cfg) cur ->
  Classifier.close_window cfg m cur = [] \/
  exists wc, Classifier.close_window cfg m cur = [wc] /\ window_ok cfg m wc /\
    points wc = cur /\ ts_start wc = ts (hd d cur) /\ ts_end wc = ts (last cur d).
Proof.
  intros Ne R. unfold Classifier.close_window.
  destruct cur as [|p0 r]; [contradiction|].
  destruct (min_window_len cfg <=? Z.of_nat (List.length (p0 :: r)))%Z eqn:L;
    [right|left; reflexivity].
  eexists; split; [reflexivity|]. cbn [points ts_start ts_end hd].
  split; [|split; [reflexivity|split; [reflexivity|]]].
  - split; [reflexivity|]. split; [discriminate|]. split; [assumption|].
    split; [apply Z.leb_le; exact L|].
    exists p0; split; [reflexivity|split; reflexivity].
  - f_equal. apply last_irrel; discriminate.
Qed.

Lemma adj_in_r {A} (l : list A) a b : adj l a b -> In b l.
Proof.
  induction 1; simpl; auto.
Qed.

Lemma adj_in_l {A} (l : list A) a b : adj l a b -> In a l.
Proof.
  induction 1; simpl; auto.
Qed.

Lemma window_loop_spec cfg m rest : forall prev cur,
  cur <> [] -> last cur prev = prev -> run_ok (t_max_gap cfg) cur ->
  Sorted le_ts (prev :: rest) -> (ts (hd prev cur) <= ts prev)%Z ->
  let W := Classifier.window_loop cfg m prev rest cur in
  (forall w, In w W -> window_ok cfg m w /\
     (forall o, In o (points w) -> In o cur \/ In o rest) /\
     (ts (hd prev cur) <= ts_start w)%Z) /\
  (forall w1 w2, adj W w1 w2 -> (t_max_gap cfg <= ts_start w2 - ts_end w1)%Z).
Proof.
  induction rest as [|curr rest' IH]; intros prev cur Ne La R S H0 W.
  - unfold W; cbn [Classifier.window_loop].
    destruct (close_window_cases cfg m cur prev Ne R) as [E|(wc & E & Ok_ & P & Ts & Te)];
      rewrite E.
    + split; [intros ? []|intros ? ? A; inversion A].
    + split.
      * intros w [<-|[]]. split; [assumption|]. split; [rewrite P; auto|lia].
      * intros ? ? A; exfalso; exact (adj_single _ _ _ A).
  - unfold W; cbn [Classifier.window_loop].
    inversion S as [|? ? S' Hd]; subst.
    assert (Lp : (ts prev <= ts curr)%Z) by (inversion Hd; assumption).
    destruct (t_max_gap cfg <=? ts curr - ts prev)%Z eqn:G.
    + apply Z.leb_le in G.
      assert (Rc : run_ok (t_max_gap cfg) [curr])
        by (intros a b A; exfalso; exact (adj_single _ _ _ A)).
      destruct (IH curr [curr]) as [IH1 IH2];
        [discriminate|reflexivity|assumption|assumption|simpl; lia|].
      set (W' := Classifier.window_loop cfg m curr rest' [curr]) in *.
      destruct (close_window_cases cfg m cur prev Ne R) as [E|(wc & E & Ok_ & P & Ts & Te)];
        rewrite E; simpl app.
      * split; [|exact IH2].
        intros w Iw. destruct (IH1 w Iw) as (O & Pts & T).
        split; [assumption|]. split; [|simpl in T; lia].
        intros o Io. destruct (Pts o Io) as [[<-|[]]|I]; right; simpl; auto.
      * split.
        -- intros w [<-|Iw].
           ++ split; [assumption|]. split; [rewrite P; auto|lia].
           ++ destruct (IH1 w Iw) as (O & Pts & T).
              split; [assumption|]. split; [|simpl in T; lia].
              intros o Io. destruct (Pts o Io) as [[<-|[]]|I]; right; simpl; auto.
        -- intros w1 w2 A. inversion A as [a b l|x a b l A']; subst.
           ++ destruct (IH1 w2) as (_ & _ & T);
                [match goal with H : _ :: _ = W' |- _ => rewrite <- H end; left; reflexivity|].
              simpl in T. rewrite Te, La. lia.
           ++ apply IH2; assumption.
    + apply Z.leb_gt in G.
      assert (Ne' : cur ++ [curr] <> []) by (destruct cur; discriminate).
      assert (R' : run_ok (t_max_gap cfg) (cur ++ [curr])).
      { intros a b A. destruct (adj_app_last cur curr a b prev A) as [A'|(_ & -> & ->)].
        - apply R; assumption.
        - rewrite La. lia. }
      assert (Hh : hd curr (cur ++ [curr]) = hd prev cur).
      { destruct cur; [contradiction|reflexivity]. }
      destruct (IH curr (cur ++ [curr])) as [IH1 IH2];
        [assumption|apply last_last|assumption|assumption|rewrite Hh; lia|].
      split; [|exact IH2].
      intros w Iw. destruct (IH1 w Iw) as (O & Pts & T).
      split; [assumption|]. split; [|rewrite Hh in T; exact T].
      intros o Io. destruct (Pts o Io) as [I|I].
      * apply in_app_or in I as [I|[<-|[]]]; [left; assumption|right; left; reflexivity].
      * right; right; assumption.
Qed.

Lemma windows_of_mac_spec cfg m pts :
  (forall w, In w (Classifier.windows_of_mac cfg m pts) ->
     window_ok cfg m w /\ forall o, In o (points w) -> In o pts) /\
  (forall w1 w2, adj (Classifier.windows_of_mac cfg m pts) w1 w2 ->
     (t_max_gap cfg <= ts_start w2 - ts_end w1)%Z).
Proof.
  unfold Classifier.windows_of_mac.
  destruct (sort_by_ts_spec pts) as [S P].
  destruct (sort_by_ts pts) as [|p0 rest] eqn:E.
  - split; [intros ? []|intros ? ? A; inversion A].
  - destruct (window_loop_spec cfg m rest p0 [p0]) as [W1 W2];
      [discriminate|reflexivity|intros a b A; exfalso; exact (adj_single _ _ _ A)
      |assumption|simpl; lia|].
    split; [|exact W2].
    intros w Iw. destruct (W1 w Iw) as (O & Pts & _). split; [assumption|].
    intros o Io. apply (Permutation_in _ P).
    destruct (Pts o Io) as [[<-|[]]|I]; [left; reflexivity|right; assumption].
Qed.

(** [obs_by_mac]: distinct keys, each list holding observations of its key. *)
Definition groups_ok (U : list Obs) (d : list (string * list Obs)) : Prop :=
  NoDup (map fst d) /\
  forall k l o, In (k, l) d -> In o l -> mac o = k /\ In o U.

Lemma group_obs_spec obs : groups_ok obs (Classifier.group_obs obs).
Proof.
  unfold Classifier.group_obs.
  assert (G : forall rest acc, (forall o, In o rest -> In o obs) -> groups_ok obs acc ->
    groups_ok obs (fold_left (fun d o => upd [] (mac o) (fun l => l ++ [o]) d) rest acc)).
  { induction rest as [|o rest IH]; intros acc Sub [N Acc]; simpl; [split; assumption|].
    apply IH; [intros; apply Sub; right; assumption|].
    split; [apply upd_nodup; assumption|].
    intros k l o' I Io'.
    apply upd_in in I as [I|(-> & [->|(v0 & I0 & ->)])].
    - apply (Acc k l o' I Io').
    - destruct Io' as [<-|[]]. split; [reflexivity|apply Sub; left; reflexivity].
    - apply in_app_or in Io' as [Io'|[<-|[]]].
      + apply (Acc _ _ _ I0 Io').
      + split; [reflexivity|apply Sub; left; reflexivity]. }
  apply G; [auto|]. split; [constructor|intros ? ? ? []].
Qed.

Lemma filter_all {A} (f : A -> bool) l : (forall x, In x l -> f x = true) -> filter f l = l.
Proof.
  induction l as [|x l IH]; intros H; simpl; [reflexivity|].
  rewrite (H x (or_introl eq_refl)), IH; auto. intros; apply H; right; assumption.
Qed.

Lemma filter_none {A} (f : A -> bool) l : (forall x, In x l -> f x = false) -> filter f l = [].
Proof.
  induction l as [|x l IH]; intros H; simpl; [reflexivity|].
  rewrite (H x (or_introl eq_refl)), IH; auto. intros; apply H; right; assumption.
Qed.

Lemma filter_windows cfg m G :
  NoDup (map fst G) ->
  filter (fun w => String.eqb (wmac w) m)
    (flat_map (fun '(k, pts) => Classifier.windows_of_mac cfg k pts) G) = [] \/
  exists pts, In (m, pts) G /\
    filter (fun w => String.eqb (wmac w) m)
      (flat_map (fun '(k, pts) => Classifier.windows_of_mac cfg k pts) G)
    = Classifier.windows_of_mac cfg m pts.
Proof.
  induction G as [|[k pts] G IH]; intros N; [left; reflexivity|].
  inversion N as [|? ? Nk N']; subst. cbn [flat_map]. rewrite filter_app.
  assert (Wk : forall w, In w (Classifier.windows_of_mac cfg k pts) -> wmac w = k)
    by (intros w Iw; apply (windows_of_mac_spec cfg k pts), Iw).
  destruct (String.eqb k m) eqn:E.
  - apply String.eqb_eq in E; subst k.
    rewrite filter_all by (intros w Iw; rewrite (Wk w Iw); apply String.eqb_refl).
    destruct (IH N') as [->|(pts' & I & _)].
    + right; exists pts; split; [left; reflexivity|apply app_nil_r].
    + exfalso; apply Nk. apply (in_map fst _ _ I).
  - rewrite filter_none
      by (intros w Iw; rewrite (Wk w Iw); exact E).
    destruct (IH N') as [->|(pts' & I & ->)]; [left; reflexivity|].
    right; exists pts'; split; [right; assumption|reflexivity].
Qed.

(** C4: every window emitted by [_windowize] is non-empty, made of
    observations of its MAC, in non-decreasing [ts] order with consecutive
    gaps strictly below [t_max_gap], has at least [min_window_len] points,
    and spans from its first to its last point; among the windows of one
    MAC, the next window starts at least [t_max_gap] after the previous one
    ends.  With the driving preset, two observations [119 s] apart give one
    window and [121 s] apart give two. *)
Theorem windowize_spec :
  (forall (cfg : ClassifierConfig) (obs : list Obs),
   (forall w, In w (Classifier.windowize cfg obs) ->
      points w <> [] /\
      (forall o, In o (points w) -> mac o = wmac w /\ In o obs) /\
      (forall a b, adj (points w) a b -> (0 <= ts b - ts a < t_max_gap cfg)%Z) /\
      (min_window_len cfg <= Z.of_nat (List.length (points w)))%Z /\
      (exists p0, hd_error (points w) = Some p0 /\ ts_start w = ts p0 /\
                  ts_end w = ts (last (points w) p0))) /\
   (forall m w1 w2,
      adj (filter (fun w => String.eqb (wmac w) m) (Classifier.windowize cfg obs)) w1 w2 ->
      (t_max_gap cfg <= ts_start w2 - ts_end w1)%Z)) /\
  List.length (Classifier.windowize driving
    [mkObs "m" 1000 0 0 (-50); mkObs "m" 1119 0 0 (-50)]) = 1%nat /\
  List.length (Classifier.windowize driving
    [mkObs "m" 1000 0 0 (-50); mkObs "m" 1121 0 0 (-50)]) = 2%nat.
Proof.
  split; [|split; vm_compute; reflexivity].
  intros cfg obs. destruct (group_obs_spec obs) as [N Gs].
  unfold Classifier.windowize. split.
  - intros w Iw. apply in_flat_map in Iw as ([k pts] & Ik & Iw).
    destruct (windows_of_mac_spec cfg k pts) as [W1 _].
    destruct (W1 w Iw) as ((Wm & Ne & R & L & H) & Pts).
    split; [assumption|]. split; [|split; [exact R|split; assumption]].
    intros o Io. rewrite Wm. apply (Gs k pts o Ik), Pts, Io.
  - intros m w1 w2 A.
    destruct (filter_windows cfg m _ N) as [E|(pts & _ & E)];
      rewrite E in A; [inversion A|].
    apply (windows_of_mac_spec cfg m pts); assumption.
Qed.

End Windows.

(* ------------------------------------------------------------------ *)
(** ** Mobile tracks ([_decimate_mobile]) *)

Module Tracks.
Import PyFacts Lists Windows.

(** Consecutive emitted points [(p, q)] of a track, as the decimator
    checked them. *)
Definition step_ok (cfg : ClassifierConfig) (p q : MobileTrackPoint) : Prop :=
  (mt_ts p <= mt_ts q)%Z /\
  exists d, Geo.haversine (mt_lat p, mt_lon p) (mt_lat q, mt_lon q) = Ok d /\
    ((mobile_decim_d cfg <=? d) || (mobile_decim_t cfg <=? mt_ts q - mt_ts p)%Z) = true /\
    (d / float_of_Z (Z.max (mt_ts q - mt_ts p) 1) <=? max_speed_ms cfg) = true.

Lemma bind_inv {A B} (m : res A) (k : A -> res B) b :
  bind m k = Ok b -> exists a, m = Ok a /\ k a = Ok b.
Proof. destruct m as [a| |]; simpl; [eauto|discriminate|discriminate]. Qed.

Lemma py_float_of_int_inv n f : py_float_of_int n = Ok f -> f = float_of_Z n.
Proof. unfold py_float_of_int. destruct (is_infinity _); congruence. Qed.

Lemma py_div_inv a b c : py_div a b = Ok c -> c = a / b.
Proof. unfold py_div. destruct (b =? 0); congruence. Qed.

Lemma decim_step_inv cfg last dec curr st' :
  Classifier.decim_step cfg (last, dec) curr = Ok st' ->
  st' = (last, dec) \/
  (st' = (curr, dec ++ [Classifier.to_mtp curr]) /\
   exists d, Geo.haversine (lat last, lon last) (lat curr, lon curr) = Ok d /\
     ((mobile_decim_d cfg <=? d) || (mobile_decim_t cfg <=? ts curr - ts last)%Z) = true /\
     (d / float_of_Z (Z.max (ts curr - ts last) 1) <=? max_speed_ms cfg) = true).
Proof.
  unfold Classifier.decim_step. intros H.
  apply bind_inv in H as (d & Hd & H).
  destruct (_ || _)%bool eqn:K; [|injection H as <-; left; reflexivity].
  apply bind_inv in H as (speed & Hs & H).
  apply bind_inv in Hs as (q & Hq & Hs).
  apply py_float_of_int_inv in Hq. apply py_div_inv in Hs. subst q speed.
  destruct (_ <=? _) eqn:L in H; injection H as <-; [right|left; reflexivity].
  split; [reflexivity|]. exists d. auto.
Qed.

Lemma last_app_single {A} (l : list A) x d : last (l ++ [x]) d = x.
Proof. induction l as [|y l IH]; [reflexivity|]. simpl. rewrite IH. destruct (l ++ [x]) eqn:E; [destruct l; discriminate|reflexivity]. Qed.

Lemma decimate_loop_spec cfg rest : forall last dec st',
  StronglySorted le_ts (last :: rest) ->
  (exists pre, dec = pre ++ [Classifier.to_mtp last]) ->
  (forall a b, adj dec a b -> step_ok cfg a b) ->
  Classifier.decimate_loop cfg (last, dec) rest = Ok st' ->
  (exists pre, snd st' = pre ++ [Classifier.to_mtp (fst st')]) /\
  (forall a b, adj (snd st') a b -> step_ok cfg a b) /\
  (forall r, In r (snd st') -> In r dec \/ exists o, In o rest /\ r = Classifier.to_mtp o).
Proof.
  induction rest as [|curr rest IH]; intros last dec st' S Pre A H.
  - injection H as <-. simpl. split; [assumption|split; [assumption|auto]].
  - cbn [Classifier.decimate_loop] in H. apply bind_inv in H as ([l1 d1] & Hs & H).
    inversion S as [|? ? S1 F1]; subst. inversion S1 as [|? ? S2 F2]; subst.
    inversion F1 as [|? ? Lc F1']; subst.
    apply decim_step_inv in Hs as [E|(E & d & Hd & K & Sp)]; injection E as -> ->.
    + destruct (IH last dec st') as (P1 & P2 & P3);
        [constructor; assumption|assumption|assumption|assumption|].
      split; [assumption|split; [assumption|]].
      intros r Ir. destruct (P3 r Ir) as [I|(o & Io & ->)]; [auto|].
      right; exists o; split; [right|]; auto.
    + destruct (IH curr (dec ++ [Classifier.to_mtp curr]) st') as (P1 & P2 & P3);
        [constructor; assumption|exists dec; reflexivity| |assumption|].
      * intros a b Ab. apply (adj_app_last _ _ _ _ (Classifier.to_mtp last)) in Ab
          as [Ab|(_ & -> & ->)]; [auto|].
        destruct Pre as [pre ->]. rewrite last_app_single.
        split; [exact Lc|]. exists d. auto.
      * split; [assumption|split; [assumption|]].
        intros r Ir. destruct (P3 r Ir) as [I|(o & Io & ->)].
        -- apply in_app_or in I as [I|[<-|[]]]; [auto|right; exists curr; split; [left|]; auto].
        -- right; exists o; split; [right|]; auto.
Qed.

Lemma decimate_track_spec cfg pts tr :
  Sorted le_ts pts -> Classifier.decimate_track cfg pts = Ok tr ->
  (forall r, In r tr -> exists o, In o pts /\ r = Classifier.to_mtp o) /\
  (forall a b, adj tr a b -> step_ok cfg a b).
Proof.
  intros S H.
  apply Sorted_StronglySorted in S; [|intros a b c; unfold le_ts; lia].
  destruct pts as [|p0 rest]; [injection H as <-; split; [intros _ []|intros ? ? A; inversion A]|].
  cbn [Classifier.decimate_track] in H. apply bind_inv in H as (st & Hl & H).
  injection H as <-.
  destruct (decimate_loop_spec cfg rest p0 [Classifier.to_mtp p0] st) as (_ & P2 & P3);
    [assumption|exists []; reflexivity|intros ? ? A; exfalso; exact (adj_single _ _ _ A)|assumption|].
  split; [|assumption].
  intros r Ir. destruct (P3 r Ir) as [[<-|[]]|(o & Io & ->)]; eexists; split;
    [left|reflexivity|right|reflexivity]; auto.
Qed.

(** Every point of a window of [_windowize] has the window's MAC. *)
Lemma windowize_mac cfg obs w o :
  In w (Classifier.windowize cfg obs) -> In o (points w) -> mac o = wmac w.
Proof.
  intros Iw Io. unfold Classifier.windowize in Iw.
  apply in_flat_map in Iw as ([k pts] & Ik & Iw).
  destruct (windows_of_mac_spec cfg k pts) as [W1 _].
  destruct (W1 w Iw) as ((-> & _) & Pts).
  apply (proj2 (group_obs_spec obs) k pts o Ik), Pts, Io.
Qed.

Lemma split_mobile_in cfg wins s m w :
  Classifier.split_stationary cfg wins = Ok (s, m) -> In w m -> In w wins.
Proof.
  intros H Iw. apply Splitter.split_stationary_filter in H as (_ & _ & ->).
  apply filter_In in Iw. apply Iw.
Qed.

(** [pts_by_mac]: distinct keys, each list holding points of its key. *)
Lemma group_windows_spec wins :
  (forall w o, In w wins -> In o (points w) -> mac o = wmac w) ->
  NoDup (map fst (Classifier.group_windows wins)) /\
  forall k pts o, In (k, pts) (Classifier.group_windows wins) -> In o pts -> mac o = k.
Proof.
  intros Hw. unfold Classifier.group_windows.
  assert (G : forall rest acc, (forall w, In w rest -> In w wins) ->
    NoDup (map fst acc) ->
    (forall k pts o, In (k, pts) acc -> In o pts -> mac o = k) ->
    NoDup (map fst (fold_left (fun d w => upd [] (wmac w) (fun l => l ++ points w) d) rest acc)) /\
    forall k pts o, In (k, pts) (fold_left (fun d w => upd [] (wmac w) (fun l => l ++ points w) d) rest acc) ->
      In o pts -> mac o = k).
  { induction rest as [|w rest IH]; intros acc Sub N Acc; simpl; [split; assumption|].
    apply IH; [intros; apply Sub; right; assumption|apply upd_nodup; assumption|].
    intros k pts o I Io.
    apply upd_in in I as [I|(-> & [->|(v0 & I0 & ->)])].
    - apply (Acc k pts o I Io).
    - apply (Hw w o (Sub w (or_introl eq_refl)) Io).
    - apply in_app_or in Io as [Io|Io]; [apply (Acc _ _ _ I0 Io)|].
      apply (Hw w o (Sub w (or_introl eq_refl)) Io). }
  apply G; [auto|constructor|intros ? ? ? []].
Qed.

Lemma decimate_groups_spec cfg g out :
  NoDup (map fst g) ->
  (forall k pts o, In (k, pts) g -> In o pts -> mac o = k) ->
  Classifier.decimate_groups cfg g = Ok out ->
  (forall r, In r out -> In (mt_mac r) (map fst g)) /\
  forall m, filter (fun r => String.eqb (mt_mac r) m) out = [] \/
    exists pts tr, In (m, pts) g /\
      Classifier.decimate_track cfg (sort_by_ts pts) = Ok tr /\
      (2 <= List.length tr)%nat /\
      filter (fun r => String.eqb (mt_mac r) m) out = tr.
Proof.
  revert out. induction g as [|[k pts] g IH]; intros out N Hg H.
  - injection H as <-. split; [intros _ []|intros m; left; reflexivity].
  - cbn [Classifier.decimate_groups] in H.
    apply bind_inv in H as (tr & Ht & H). apply bind_inv in H as (rest & Hr & H).
    injection H as <-.
    change (match List.length tr with Datatypes.S (Datatypes.S _) => true | _ => false end)
      with (2 <=? List.length tr)%nat.
    inversion N as [|? ? Nk N']; subst.
    destruct (IH rest N') as [R1 R2];
      [intros; eapply Hg; [right|]; eassumption|assumption|].
    destruct (sort_by_ts_spec pts) as [S P].
    destruct (decimate_track_spec cfg _ _ S Ht) as [T1 _].
    assert (Tk : forall r, In r tr -> mt_mac r = k).
    { intros r Ir. destruct (T1 r Ir) as (o & Io & ->).
      apply (Hg k pts o (or_introl eq_refl)). apply (Permutation_in _ P Io). }
    set (tr' := if (2 <=? List.length tr)%nat then tr else []).
    assert (Tk' : forall r, In r tr' -> mt_mac r = k)
      by (unfold tr'; destruct (_ <=? _)%nat; [exact Tk|intros _ []]).
    split.
    + intros r Ir. apply in_app_or in Ir as [Ir|Ir].
      * rewrite (Tk' r Ir). left; reflexivity.
      * right; apply R1, Ir.
    + intros m. rewrite filter_app.
      destruct (String.eqb k m) eqn:E.
      * apply String.eqb_eq in E; subst k.
        rewrite filter_all by (intros r Ir; rewrite (Tk' r Ir); apply String.eqb_refl).
        rewrite filter_none, app_nil_r.
        2: { intros r Ir. apply String.eqb_neq. intros Em.
             apply Nk. rewrite <- Em. apply R1, Ir. }
        unfold tr'. destruct (2 <=? List.length tr)%nat eqn:L; [right|left; reflexivity].
        exists pts, tr. split; [left; reflexivity|split; [assumption|split; [|reflexivity]]].
        apply Nat.leb_le, L.
      * rewrite filter_none by (intros r Ir; rewrite (Tk' r Ir); exact E).
        destruct (R2 m) as [->|(pts' & tr0 & I & Ht0 & L & ->)]; [left; reflexivity|].
        right; exists pts', tr0. split; [right; assumption|auto].
Qed.

(** The mobile rows handed to the writer, grouped by MAC. *)
Lemma run_mobile_spec cfg fuel obs st mob :
  Classifier.run cfg fuel obs = Ok (st, mob) ->
  forall m, filter (fun r => String.eqb (mt_mac r) m) mob = [] \/
    exists tr, (2 <= List.length tr)%nat /\
      filter (fun r => String.eqb (mt_mac r) m) mob = tr /\
      (forall r, In r tr -> mt_mac r = m) /\
      (forall a b, adj tr a b -> step_ok cfg a b).
Proof.
  intros H m. unfold Classifier.run in H.
  apply bind_inv in H as ([sw mw] & Hs & H).
  apply bind_inv in H as (sr & _ & H). apply bind_inv in H as (mr & Hm & H).
  injection H as <- <-.
  destruct (group_windows_spec mw) as [N G].
  { intros w o Iw Io. apply (windowize_mac cfg obs); [|assumption].
    apply (split_mobile_in cfg _ _ _ _ Hs Iw). }
  destruct (decimate_groups_spec cfg _ _ N G Hm) as [_ R].
  destruct (R m) as [E|(pts & tr & I & Ht & L & E)]; [left; exact E|right].
  exists tr. split; [exact L|split; [exact E|]].
  split; [|exact (proj2 (decimate_track_spec cfg _ _ (proj1 (sort_by_ts_spec pts)) Ht))].
  intros r Ir. rewrite <- E in Ir. apply filter_In in Ir as [_ Ir].
  apply String.eqb_eq, Ir.
Qed.

(** With [mobile_decim_t > 0] and [mobile_decim_d > max_speed_ms], a
    checked step strictly advances [ts]. *)
Lemma step_ok_strict cfg p q :
  (0 < mobile_decim_t cfg)%Z -> (max_speed_ms cfg <? mobile_decim_d cfg) = true ->
  step_ok cfg p q -> (mt_ts p < mt_ts q)%Z.
Proof.
  intros HT HD (Le & d & _ & K & Sp).
  destruct (Z.eq_dec (mt_ts p) (mt_ts q)) as [E|E]; [|lia].
  exfalso. rewrite E, Z.sub_diag in K, Sp.
  assert (T0 : (mobile_decim_t cfg <=? 0)%Z = false) by (apply Z.leb_gt; lia).
  rewrite T0, orb_false_r in K.
  change (Z.max 0 1) with 1%Z in Sp. rewrite float_of_Z_1, FArith.div_one in Sp.
  pose proof (FOrd.ltb_leb_trans _ _ _ HD K) as Md.
  rewrite (FOrd.ltb_leb_false _ _ Md) in Sp. discriminate.
Qed.

Lemma adj_sorted {A} (R : A -> A -> Prop) l :
  (forall a b, adj l a b -> R a b) -> Sorted R l.
Proof.
  induction l as [|a l IH]; intros H; constructor.
  - apply IH. intros; apply H; constructor; assumption.
  - destruct l as [|b l]; constructor. apply H; constructor.
Qed.

Lemma strict_nodup l :
  (forall a b, adj l a b -> (mt_ts a < mt_ts b)%Z) -> NoDup (map mt_ts l).
Proof.
  intros H. apply adj_sorted in H.
  apply Sorted_StronglySorted in H; [|intros a b c; lia].
  induction H as [|a l S IH F]; constructor; [|exact IH].
  intros I. apply in_map_iff in I as (b & E & Ib).
  rewrite Forall_forall in F. specialize (F b Ib). lia.
Qed.

Definition key (r : MobileTrackPoint) : string * Z := (mt_mac r, mt_ts r).

Lemma nodup_by_mac (l : list MobileTrackPoint) :
  (forall m, NoDup (map mt_ts (filter (fun r => String.eqb (mt_mac r) m) l))) ->
  NoDup (map key l).
Proof.
  induction l as [|r l IH]; intros H; constructor.
  - intros I. apply in_map_iff in I as (x & E & Ix).
    unfold key in E. injection E as Em Et.
    specialize (H (mt_mac r)). simpl in H. rewrite String.eqb_refl in H.
    inversion H as [|? ? Nin _]. apply Nin. rewrite <- Et.
    apply in_map, filter_In. split; [exact Ix|]. rewrite Em. apply String.eqb_refl.
  - apply IH. intros m. specialize (H m). simpl in H.
    destruct (String.eqb (mt_mac r) m); [inversion H|]; assumption.
Qed.

Lemma same_key_true r r' : Dao.same_key r r' = true -> key r = key r'.
Proof.
  unfold Dao.same_key, key. intros H. apply andb_true_iff in H as [H1 H2].
  apply String.eqb_eq in H1. apply Z.eqb_eq in H2. congruence.
Qed.

(** [INSERT OR REPLACE] of rows with pairwise distinct keys into a table
    holding none of them replaces nothing. *)
Lemma insert_mobile_fresh rows : forall t,
  NoDup (map key rows) -> (forall r, In r rows -> ~ In (key r) (map key t)) ->
  Dao.insert_mobile rows t = Ok (t ++ rows) \/ Dao.insert_mobile rows t = Raise IntegrityError.
Proof.
  induction rows as [|r rows IH]; intros t N F; simpl.
  - left; rewrite app_nil_r; reflexivity.
  - destruct (Dao.mobile_row_ok r); [|right; reflexivity].
    inversion N as [|? ? Nr N']; subst.
    unfold Dao.replace_mobile. rewrite filter_all.
    2: { intros x Ix. destruct (Dao.same_key r x) eqn:E; [|reflexivity].
         exfalso. apply (F r (or_introl eq_refl)). rewrite (same_key_true _ _ E).
         apply in_map, Ix. }
    replace (t ++ r :: rows) with ((t ++ [r]) ++ rows) by (rewrite <- app_assoc; reflexivity).
    apply IH; [assumption|].
    intros x Ix I. rewrite map_app in I. apply in_app_or in I as [I|[E|[]]].
    + apply (F x (or_intror Ix) I).
    + apply Nr. rewrite E. apply in_map, Ix.
Qed.

(** C7: in the mobile rows of a successful run, the points of any MAC
    [m] are either absent or at least two; and any two consecutive points
    [(p, q)] of [m] satisfy [q.ts >= p.ts], the keep-condition
    [haversine(p, q) >= mobile_decim_d or q.ts - p.ts >= mobile_decim_t],
    and the speed gate [haversine(p, q) / max(q.ts - p.ts, 1) <= max_speed_ms]. *)
Theorem decimate_mobile_spec (cfg : ClassifierConfig) (fuel : nat) (obs : list Obs)
    (st : list StaticRow) (mob : list MobileTrackPoint)
    (H : Classifier.run cfg fuel obs = Ok (st, mob)) (m : string) :
  let T := filter (fun r => String.eqb (mt_mac r) m) mob in
  T = [] \/
  ((2 <= List.length T)%nat /\
   forall p q, adj T p q ->
     (mt_ts p <= mt_ts q)%Z /\
     exists d, Geo.haversine (mt_lat p, mt_lon p) (mt_lat q, mt_lon q) = Ok d /\
       ((mobile_decim_d cfg <=? d) || (mobile_decim_t cfg <=? mt_ts q - mt_ts p)%Z) = true /\
       (d / float_of_Z (Z.max (mt_ts q - mt_ts p) 1) <=? max_speed_ms cfg) = true).
Proof.
  intros T. destruct (run_mobile_spec cfg fuel obs st mob H m) as [E|(tr & L & E & _ & A)];
    [left; exact E|right]. unfold T; rewrite E. split; [exact L|exact A].
Qed.

(** A driving track: the point [10 s] after the second one moved too
    little and is skipped; the last one, at the same [ts] as the third
    emitted point, fails the speed gate. *)
Lemma decimate_mobile_spec_witness :
  let obs := [mkObs "mm" 0 0 0 (-50); mkObs "mm" 60 0 0.01 (-50);
              mkObs "mm" 70 0 0.0101 (-50); mkObs "mm" 120 0 0.02 (-50);
              mkObs "mm" 120 0 0.025 (-50)] in
  let mob := [mkMTP "mm" 0 0 0; mkMTP "mm" 60 0 0.01; mkMTP "mm" 120 0 0.02] in
  Classifier.run driving 100 obs = Ok ([], mob) /\
  let T := filter (fun r => String.eqb (mt_mac r) "mm") mob in
  T = [] \/
  ((2 <= List.length T)%nat /\
   forall p q, adj T p q ->
     (mt_ts p <= mt_ts q)%Z /\
     exists d, Geo.haversine (mt_lat p, mt_lon p) (mt_lat q, mt_lon q) = Ok d /\
       ((mobile_decim_d driving <=? d) || (mobile_decim_t driving <=? mt_ts q - mt_ts p)%Z) = true /\
       (d / float_of_Z (Z.max (mt_ts q - mt_ts p) 1) <=? max_speed_ms driving) = true).
Proof.
  intros obs mob.
  assert (H : Classifier.run driving 100 obs = Ok ([], mob)) by (vm_compute; reflexivity).
  split; [exact H|]. exact (decimate_mobile_spec driving 100 obs [] mob H "mm").
Defined.

(** C10: when [mobile_decim_t > 0] and [mobile_decim_d > max_speed_ms],
    consecutive mobile points of one MAC have strictly increasing [ts], so
    the [(mac, ts)] keys of the mobile rows are pairwise distinct, and
    [INSERT OR REPLACE] of these rows into the freshly re-created table
    stores exactly them (or fails with [IntegrityError] on a [NULL]):
    no emitted point is replaced. *)
Theorem mobile_keys_distinct (cfg : ClassifierConfig) (fuel : nat) (obs : list Obs)
    (st : list StaticRow) (mob : list MobileTrackPoint)
    (HT : (0 < mobile_decim_t cfg)%Z)
    (HD : (max_speed_ms cfg <? mobile_decim_d cfg) = true)
    (H : Classifier.run cfg fuel obs = Ok (st, mob)) :
  (forall m p q, adj (filter (fun r => String.eqb (mt_mac r) m) mob) p q ->
     (mt_ts p < mt_ts q)%Z) /\
  NoDup (map (fun r => (mt_mac r, mt_ts r)) mob) /\
  (Dao.insert_mobile mob [] = Ok mob \/ Dao.insert_mobile mob [] = Raise IntegrityError).
Proof.
  assert (S : forall m p q, adj (filter (fun r => String.eqb (mt_mac r) m) mob) p q ->
     (mt_ts p < mt_ts q)%Z).
  { intros m p q A. destruct (run_mobile_spec cfg fuel obs st mob H m) as [E|(tr & _ & E & _ & Ad)].
    - rewrite E in A. inversion A.
    - rewrite E in A. apply (step_ok_strict cfg p q HT HD), Ad, A. }
  assert (N : NoDup (map key mob)) by (apply nodup_by_mac; intros m; apply strict_nodup, S).
  split; [exact S|split; [exact N|]].
  apply (insert_mobile_fresh mob [] N). intros r _ [].
Qed.

(** The driving and walking presets meet the hypotheses of C10; on the
    track of the C7 witness both emitted keys differ. *)
Lemma mobile_keys_distinct_witness :
  let obs := [mkObs "mm" 0 0 0 (-50); mkObs "mm" 60 0 0.01 (-50);
              mkObs "mm" 120 0 0.02 (-50); mkObs "mm" 120 0 0.025 (-50)] in
  let mob := [mkMTP "mm" 0 0 0; mkMTP "mm" 60 0 0.01; mkMTP "mm" 120 0 0.02] in
  (0 < mobile_decim_t walking)%Z /\ (max_speed_ms walking <? mobile_decim_d walking) = true /\
  (0 < mobile_decim_t driving)%Z /\ (max_speed_ms driving <? mobile_decim_d driving) = true /\
  Classifier.run driving 100 obs = Ok ([], mob) /\
  NoDup (map (fun r => (mt_mac r, mt_ts r)) mob).
Proof.
  intros obs mob.
  assert (H1 : (0 < mobile_decim_t driving)%Z) by (vm_compute; reflexivity).
  assert (H2 : (max_speed_ms driving <? mobile_decim_d driving) = true) by (vm_compute; reflexivity).
  assert (H : Classifier.run driving 100 obs = Ok ([], mob)) by (vm_compute; reflexivity).
  split; [vm_compute; reflexivity|split; [vm_compute; reflexivity|]].
  split; [exact H1|split; [exact H2|split; [exact H|]]].
  exact (proj1 (proj2 (mobile_keys_distinct driving 100 obs [] mob H1 H2 H))).
Defined.

End Tracks.

(* ------------------------------------------------------------------ *)
(** ** The writer ([_write_results]) *)

Module Writer.

Lemma insert_static_eq rows : forall t,
  Dao.insert_static rows t =
  if forallb Dao.static_row_ok rows
  then Ok (fold_left (fun t r => Dao.upsert_static r t) rows t)
  else Raise IntegrityError.
Proof.
  induction rows as [|r rows IH]; intros t; [reflexivity|]. simpl.
  destruct (Dao.static_row_ok r); [apply IH|reflexivity].
Qed.

Lemma insert_mobile_eq rows : forall t,
  Dao.insert_mobile rows t =
  if forallb Dao.mobile_row_ok rows
  then Ok (fold_left (fun t r => Dao.replace_mobile r t) rows t)
  else Raise IntegrityError.
Proof.
  induction rows as [|r rows IH]; intros t; [reflexivity|]. simpl.
  destruct (Dao.mobile_row_ok r); [apply IH|reflexivity].
Qed.

(** C1: [_write_results] commits its three DAO calls one by one.  From
    any store, the result is the full new tables when every row is
    writable; when a static row is not ([NaN] bound as [NULL] into a
    [NOT NULL] column), both tables are left re-created and empty; when
    only a mobile row is not, the static rows stay committed while the
    mobile table is empty. *)
Theorem write_results_steps (static : list StaticRow) (mobile : list MobileTrackPoint)
    (s : Dao.Store) :
  let S := fold_left (fun t r => Dao.upsert_static r t) static [] in
  let M := fold_left (fun t r => Dao.replace_mobile r t) mobile [] in
  Dao.write_results static mobile s =
  if forallb Dao.static_row_ok static then
    if forallb Dao.mobile_row_ok mobile then (Dao.mkStore S M, Ok tt)
    else (Dao.mkStore S [], Raise IntegrityError)
  else (Dao.mkStore [] [], Raise IntegrityError).
Proof.
  intros S M. unfold Dao.write_results, Dao.with_conn,
    Dao.recreate_classification_tables, Dao.add_static_ap_bulk, Dao.add_mobile_track_bulk.
  cbn [Dao.static_ap Dao.mobile_track]. rewrite insert_static_eq.
  destruct (forallb Dao.static_row_ok static); [|reflexivity].
  cbn [bind Dao.static_ap Dao.mobile_track]. rewrite insert_mobile_eq.
  destruct (forallb Dao.mobile_row_ok mobile); reflexivity.
Qed.

(** Two observations [1000 s] apart with an [rssi] of [3080]: the window
    weights [10 ** 308.0] sum to [inf], so [loc_error_m] is [NaN] and the
    static insert fails after the tables were re-created: a store holding
    earlier results ends with both tables empty, neither its old contents
    nor the new artifacts. *)
Lemma write_results_not_atomic :
  let obs := [mkObs "aa" 0 0 0.001 3080; mkObs "aa" 1000 0 (-0.001) 3080] in
  let s0 := Dao.mkStore [mkStaticRow "old" 1 2 3 0 5 1]
                        [mkMTP "oldm" 0 1 1; mkMTP "oldm" 10 1 2] in
  Dao.pipeline_run driving 100 obs s0 = (Dao.mkStore [] [], Raise IntegrityError) /\
  Dao.mkStore [] [] <> s0.
Proof. split; [vm_compute; reflexivity|discriminate]. Qed.

End Writer.

(* ------------------------------------------------------------------ *)
(** ** Floats that are not negative *)

(** [nn x]: [x < 0] is false, i.e. [x] is [NaN], a zero of either sign or
    positive. *)
Module FSign.
Import PyFacts.

Definition nn (x : float) : Prop := (x <? 0) = false.

Definition nnSF (x : spec_float) : Prop :=
  match x with
  | S754_finite true _ _ | S754_infinity true => False
  | _ => True
  end.

Lemma nn_iff x : nn x <-> nnSF (Prim2SF x).
Proof.
  unfold nn. rewrite ltb_spec. change (Prim2SF 0) with (S754_zero false).
  destruct (Prim2SF x) as [[]|[]| |[] m e]; simpl; split; intros H;
    try reflexivity; try discriminate; try exact I; contradiction.
Qed.

Lemma bra_nn m e l : nnSF (binary_round_aux prec emax false m e l).
Proof.
  unfold binary_round_aux.
  destruct (shr_fexp prec emax m e l) as [r1 e1].
  destruct (shr_fexp prec emax _ e1 loc_Exact) as [r2 e2].
  destruct (shr_m r2); [exact I| |exact I].
  destruct (e2 <=? _)%Z; exact I.
Qed.

Lemma br_nn m e : nnSF (binary_round prec emax false m e).
Proof. unfold binary_round. destruct (shl_align _ _ _). apply bra_nn. Qed.

Lemma bn_nn n e sz : (0 <= n)%Z -> nnSF (binary_normalize prec emax n e sz).
Proof. intros H. destruct n as [|p|p]; [exact I|apply br_nn|lia]. Qed.

Lemma mul_nn a b : nn a -> nn b -> nn (a * b).
Proof.
  rewrite !nn_iff, mul_spec.
  destruct (Prim2SF a) as [[]|[]| |[] ma ea], (Prim2SF b) as [[]|[]| |[] mb eb];
    intros Ha Hb; simpl in Ha, Hb; try exact I; try contradiction; apply bra_nn.
Qed.

Lemma add_nn a b : nn a -> nn b -> nn (a + b).
Proof.
  rewrite !nn_iff, add_spec.
  destruct (Prim2SF a) as [[]|[]| |[] ma ea], (Prim2SF b) as [[]|[]| |[] mb eb];
    intros Ha Hb; simpl in Ha, Hb; try exact I; try contradiction.
  apply bn_nn. simpl. lia.
Qed.

Lemma div_nn a b : nn a -> nn b -> (b =? 0) = false -> nn (a / b).
Proof.
  rewrite !nn_iff, div_spec, eqb_spec. change (Prim2SF 0) with (S754_zero false).
  destruct (Prim2SF a) as [[]|[]| |[] ma ea], (Prim2SF b) as [[]|[]| |[] mb eb];
    intros Ha Hb Hz; simpl in Ha, Hb, Hz; try exact I; try contradiction; try discriminate.
  simpl. destruct (SFdiv_core_binary _ _ _ _ _ _) as [[mz ez] lz]. apply bra_nn.
Qed.

Lemma sqrt_nn a : nn (PrimFloat.sqrt a).
Proof.
  rewrite nn_iff, sqrt_spec.
  destruct (Prim2SF a) as [[]|[]| |[] ma ea]; try exact I.
  simpl. destruct (SFsqrt_core_binary _ _ _ _) as [[mz ez] lz]. apply bra_nn.
Qed.

Lemma abs_nn a : nn (abs a).
Proof.
  rewrite nn_iff, abs_spec.
  destruct (Prim2SF a) as [[]|[]| |[] ma ea]; exact I.
Qed.

Lemma ldexp_nn a n : nn a -> nn (Z.ldexp a n).
Proof.
  unfold Z.ldexp. rewrite !nn_iff, ldshiftexp_spec.
  destruct (Prim2SF a) as [[]|[]| |[] ma ea]; intros H; simpl in H; try exact I; try contradiction.
  apply br_nn.
Qed.

Lemma float_of_Z_nn n : (0 <= n)%Z -> nn (float_of_Z n).
Proof. intros H. rewrite nn_iff, FConv.Prim2SF_float_of_Z. apply bn_nn, H. Qed.

Lemma fsum_nn l : Forall nn l -> nn (fsum l).
Proof.
  unfold fsum. assert (G : forall acc, nn acc -> Forall nn l -> nn (fold_left add l acc)).
  { induction l as [|x l IH]; intros acc Ha F; [exact Ha|].
    inversion F; subst. apply IH; [apply add_nn|]; assumption. }
  intros F. apply G; [reflexivity|exact F].
Qed.

End FSign.

(** The weights [10 ** (rssi / 10)] and haversine distances are not
    negative. *)
Module Nonneg.
Import PyFacts FSign Tracks.

Lemma exp_horner_nn k : forall u s, (k <= 25)%nat -> nn u -> nn s ->
  nn (Libm.exp_horner k u s).
Proof.
  induction k as [|k IH]; intros u s Hk Hu Hs; [exact Hs|]. cbn [Libm.exp_horner].
  apply IH; [lia|exact Hu|].
  destruct (py_float_of_int_ok (Z.of_nat (Datatypes.S k))) as [_ Z0]; [lia|].
  apply add_nn; [reflexivity|]. apply mul_nn; [|exact Hs].
  apply div_nn; [exact Hu| |exact Z0]. apply float_of_Z_nn. lia.
Qed.

Lemma pow10_nn y r : Libm.pow10 y = Ok r -> nn r.
Proof.
  unfold Libm.pow10. intros H.
  destruct (y =? 0); [injection H as <-; reflexivity|].
  destruct (is_nan y); [injection H as <-; reflexivity|].
  destruct (is_infinity y); [injection H as <-; destruct (y <? 0); reflexivity|].
  destruct (is_infinity (Libm.c_pow10 y)); [discriminate|injection H as <-].
  unfold Libm.c_pow10.
  destruct (is_infinity _); [destruct (_ <? 0); reflexivity|].
  apply ldexp_nn, exp_horner_nn; [lia| |reflexivity].
  apply mul_nn; [apply abs_nn|reflexivity].
Qed.

Lemma asin_coeffs_nn : Forall nn (Libm.asin_coeffs 60).
Proof.
  assert (B : forallb (fun c => negb (c <? 0)) (Libm.asin_coeffs 60) = true)
    by (vm_compute; reflexivity).
  apply Forall_forall. intros c Ic. eapply forallb_forall in B; [|exact Ic].
  unfold nn. destruct (c <? 0); [discriminate|reflexivity].
Qed.

Lemma asin_nn x a : nn x -> Libm.asin x = Ok a -> nn a.
Proof.
  unfold Libm.asin. intros Hx H.
  destruct (is_nan x); [injection H as <-; reflexivity|].
  destruct (1 <? abs x); [discriminate|injection H as <-].
  unfold Libm.c_asin. rewrite Hx. unfold Libm.asin_series.
  pose proof asin_coeffs_nn as F.
  destruct (Libm.asin_coeffs 60) as [|c cs]; [exact Hx|].
  inversion F as [|? ? Hc Fs]; subst. apply mul_nn; [exact Hx|].
  assert (X2 : nn (x * x)) by (apply mul_nn; exact Hx).
  revert Fs. generalize c Hc. clear c Hc F.
  induction cs as [|ck cs IH]; intros s Hs Fs; [exact Hs|].
  inversion Fs; subst. apply IH; [apply add_nn; [|apply mul_nn]|]; assumption.
Qed.

Lemma haversine_nn a b d : Geo.haversine a b = Ok d -> nn d.
Proof.
  destruct a as [lat1 lon1], b as [lat2 lon2]. unfold Geo.haversine. intros H.
  do 6 (apply bind_inv in H as (? & _ & H)).
  apply bind_inv in H as (sq & Hsq & H). apply bind_inv in H as (a & Ha & H).
  injection H as <-.
  unfold Libm.sqrt in Hsq. destruct (_ <? 0); [discriminate|injection Hsq as <-].
  apply mul_nn; [reflexivity|]. exact (asin_nn _ _ (sqrt_nn _) Ha).
Qed.

End Nonneg.

(* ------------------------------------------------------------------ *)
(** ** The static aggregator ([_aggregate_static]) *)

Module Static.
Import PyFacts Lists Windows Tracks FSign Nonneg.

Lemma upd_in_nodup {V} (dflt : V) k f d k' v :
  NoDup (map fst d) -> In (k', v) (upd dflt k f d) ->
  (k' <> k /\ In (k', v) d) \/
  (k' = k /\ ((v = f dflt /\ ~ In k (map fst d)) \/ exists v0, In (k, v0) d /\ v = f v0)).
Proof.
  induction d as [|[k1 v1] d IH]; simpl; intros N.
  - intros [E|[]]. injection E as <- <-. right; auto.
  - inversion N as [|? ? N1 N2]; subst.
    destruct (String.eqb k k1) eqn:E.
    + apply String.eqb_eq in E; subst k1.
      intros [E'|I].
      * injection E' as <- <-. right; split; [reflexivity|right; exists v1; auto].
      * left. split; [|auto]. intros ->. apply N1, (in_map fst _ _ I).
    + apply String.eqb_neq in E.
      intros [E'|I].
      * injection E' as <- <-. left; split; [congruence|auto].
      * destruct (IH N2 I) as [[Ne I']|(-> & [[-> Nin]|(v0 & I0 & ->)])].
        -- left; auto.
        -- right; split; [reflexivity|left; split; [reflexivity|]].
           intros [Ek|Ik]; [congruence|contradiction].
        -- right; split; [reflexivity|right; exists v0; auto].
Qed.

Lemma mapM_in {A B} (f : A -> res B) l l' :
  mapM f l = Ok l' ->
  (forall y, In y l' -> exists x, In x l /\ f x = Ok y) /\
  (forall x, In x l -> exists y, In y l' /\ f x = Ok y).
Proof.
  revert l'. induction l as [|x l IH]; intros l' H.
  - injection H as <-. split; intros ? [].
  - cbn [mapM] in H. apply bind_inv in H as (y & Hy & H).
    apply bind_inv in H as (ys & Hys & H). injection H as <-.
    destruct (IH ys Hys) as [I1 I2]. split.
    + intros z [E|I]; [subst z; exists x; split; [left|]; auto|].
      destruct (I1 z I) as (x' & ? & ?). exists x'; split; [right|]; auto.
    + intros z [E|I]; [subst z; exists y; split; [left|]; auto|].
      destruct (I2 z I) as (y' & ? & ?). exists y'; split; [right|]; auto.
Qed.

Definition zsum (l : list Z) : Z := fold_right Z.add 0%Z l.

Lemma zsum_app l l' : zsum (l ++ l') = (zsum l + zsum l')%Z.
Proof. induction l as [|x l IH]; simpl; [reflexivity|]. unfold zsum in *. rewrite IH. lia. Qed.

(** The number of points of a list of windows. *)
Definition npoints (W : list Win) : Z :=
  zsum (map (fun w => Z.of_nat (List.length (points w))) W).

(** What [collapse] has gathered for each MAC, after the windows [P]. *)
Definition acc_ok (P : list Win) (acc : list (string * Classifier.MacAcc)) : Prop :=
  NoDup (map fst acc) /\
  (forall w, In w P -> In (wmac w) (map fst acc)) /\
  forall k a, In (k, a) acc ->
    let W := filter (fun w => String.eqb (wmac w) k) P in
    W <> [] /\ Classifier.ts0s a = map ts_start W /\ Classifier.ts1s a = map ts_end W /\
    Classifier.nobs a = npoints W /\ Forall nn (Classifier.wweights a).

Lemma filter_app_single k P w :
  filter (fun w => String.eqb (wmac w) k) (P ++ [w]) =
  filter (fun w => String.eqb (wmac w) k) P ++
  (if String.eqb (wmac w) k then [w] else []).
Proof. rewrite filter_app. simpl. destruct (String.eqb (wmac w) k); reflexivity. Qed.

Lemma window_weights_nn w wts :
  Classifier.window_weights w = Ok wts -> Forall nn wts.
Proof.
  intros H. apply mapM_in in H as [I _]. apply Forall_forall.
  intros y Iy. destruct (I y Iy) as (p & _ & Hp). exact (pow10_nn _ _ Hp).
Qed.

Lemma collapse_spec ws : forall P acc acc',
  acc_ok P acc -> Classifier.collapse ws acc = Ok acc' -> acc_ok (P ++ ws) acc'.
Proof.
  induction ws as [|w ws IH]; intros P acc acc' Ok0 H.
  - injection H as <-. rewrite app_nil_r. exact Ok0.
  - cbn [Classifier.collapse] in H.
    apply bind_inv in H as (wts & Hw & H). apply bind_inv in H as (lat_c & _ & H).
    apply bind_inv in H as (lon_c & _ & H).
    replace (P ++ w :: ws) with ((P ++ [w]) ++ ws) by (rewrite <- app_assoc; reflexivity).
    eapply IH; [|exact H].
    destruct Ok0 as (N & Cov & Ent).
    pose proof (fsum_nn _ (window_weights_nn _ _ Hw)) as Tw.
    split; [apply upd_nodup, N|split].
    + intros w' Iw'. apply in_app_or in Iw' as [Iw'|[<-|[]]].
      * apply Cov in Iw'. clear -Iw'.
        induction acc as [|[k v] acc IHa]; [destruct Iw'|]. simpl.
        destruct (String.eqb (wmac w) k); simpl in *; [tauto|]. tauto.
      * clear. induction acc as [|[k v] acc IHa]; simpl; [left; reflexivity|].
        destruct (String.eqb (wmac w) k) eqn:E; simpl; [left; symmetry; apply String.eqb_eq, E|auto].
    + intros k a I. rewrite filter_app_single.
      apply upd_in_nodup in I; [|exact N].
      destruct I as [[Ne I]|(-> & [[-> Nin]|(v0 & I0 & ->)])].
      * destruct (Ent k a I) as (W1 & W2 & W3 & W4 & W5).
        rewrite (proj2 (String.eqb_neq _ _) (not_eq_sym Ne)), app_nil_r. auto.
      * rewrite String.eqb_refl.
        assert (E0 : filter (fun w' => String.eqb (wmac w') (wmac w)) P = []).
        { apply filter_none. intros x Ix. apply String.eqb_neq. intros Ex.
          apply Nin. rewrite <- Ex. apply Cov, Ix. }
        rewrite E0. simpl. split; [discriminate|].
        split; [reflexivity|split; [reflexivity|split]].
        -- unfold npoints, zsum. simpl. lia.
        -- constructor; [exact Tw|constructor].
      * rewrite String.eqb_refl.
        destruct (Ent _ _ I0) as (W1 & W2 & W3 & W4 & W5). simpl.
        split; [destruct (filter _ P); [contradiction|discriminate]|].
        rewrite !map_app, W2, W3. split; [reflexivity|split; [reflexivity|split]].
        -- rewrite W4. unfold npoints. rewrite map_app, zsum_app. simpl. lia.
        -- apply Forall_app; split; [exact W5|constructor; [exact Tw|constructor]].
Qed.

Lemma fold_min_spec r : forall x0,
  In (fold_left Z.min r x0) (x0 :: r) /\
  forall y, In y (x0 :: r) -> (fold_left Z.min r x0 <= y)%Z.
Proof.
  induction r as [|x r IH]; intros x0; simpl.
  - split; [auto|]. intros y [<-|[]]; lia.
  - destruct (IH (Z.min x0 x)) as [I L]. split.
    + destruct I as [E|I]; [|auto]. rewrite <- E.
      destruct (Z.min_spec x0 x) as [[_ ->]|[_ ->]]; auto.
    + intros y Iy. assert (Z.min x0 x <= y \/ In y r)%Z as [M|M]
        by (destruct Iy as [<-|[<-|Iy]]; [left; lia|left; lia|right; exact Iy]).
      * specialize (L _ (or_introl eq_refl)). lia.
      * apply L. right; exact M.
Qed.

Lemma fold_max_spec r : forall x0,
  In (fold_left Z.max r x0) (x0 :: r) /\
  forall y, In y (x0 :: r) -> (y <= fold_left Z.max r x0)%Z.
Proof.
  induction r as [|x r IH]; intros x0; simpl.
  - split; [auto|]. intros y [<-|[]]; lia.
  - destruct (IH (Z.max x0 x)) as [I L]. split.
    + destruct I as [E|I]; [|auto]. rewrite <- E.
      destruct (Z.max_spec x0 x) as [[_ ->]|[_ ->]]; auto.
    + intros y Iy. assert (y <= Z.max x0 x \/ In y r)%Z as [M|M]
        by (destruct Iy as [<-|[<-|Iy]]; [left; lia|left; lia|right; exact Iy]).
      * specialize (L _ (or_introl eq_refl)). lia.
      * apply L. right; exact M.
Qed.

Lemma list_min_spec l x : Classifier.list_min l = Ok x ->
  In x l /\ forall y, In y l -> (x <= y)%Z.
Proof.
  destruct l as [|x0 r]; [discriminate|]. intros H; injection H as <-. apply fold_min_spec.
Qed.

Lemma list_max_spec l x : Classifier.list_max l = Ok x ->
  In x l /\ forall y, In y l -> (y <= x)%Z.
Proof.
  destruct l as [|x0 r]; [discriminate|]. intros H; injection H as <-. apply fold_max_spec.
Qed.

Lemma py_div_inv' a b c : py_div a b = Ok c -> (b =? 0) = false /\ c = a / b.
Proof. unfold py_div. destruct (b =? 0); [discriminate|]. intros H; injection H as <-; auto. Qed.

Lemma static_row_spec fuel k a r :
  Classifier.static_row fuel k a = Ok r ->
  sa_mac r = k /\ Classifier.list_min (Classifier.ts0s a) = Ok (first_seen r) /\
  Classifier.list_max (Classifier.ts1s a) = Ok (last_seen r) /\
  n_obs r = Classifier.nobs a /\
  (Forall nn (Classifier.wweights a) -> nn (loc_error_m r)).
Proof.
  unfold Classifier.static_row. intros H.
  apply bind_inv in H as ([lat_med lon_med] & _ & H).
  apply bind_inv in H as (errs & He & H). apply bind_inv in H as (loc_err & Hl & H).
  apply bind_inv in H as (first & Hf & H). apply bind_inv in H as (last_ & Hla & H).
  injection H as <-. cbn [sa_mac first_seen last_seen n_obs loc_error_m].
  split; [reflexivity|split; [exact Hf|split; [exact Hla|split; [reflexivity|]]]].
  intros Fw. apply py_div_inv' in Hl as [Hz ->].
  apply div_nn; [|apply fsum_nn, Fw|exact Hz].
  apply fsum_nn, Forall_forall. intros z Iz.
  apply in_map_iff in Iz as ([x e] & <- & Ixe).
  apply mapM_in in He as [Ie _].
  apply mul_nn.
  - apply in_combine_l in Ixe. rewrite Forall_forall in Fw. apply Fw, Ixe.
  - apply in_combine_r in Ixe. destruct (Ie e Ixe) as (c & _ & Hc).
    exact (haversine_nn _ _ _ Hc).
Qed.

Lemma run_ok_span T p0 l :
  run_ok T (p0 :: l) -> (ts p0 <= ts (last (p0 :: l) p0))%Z.
Proof.
  revert p0. induction l as [|p1 l IH]; intros p0 R; [simpl; lia|].
  assert (G : (0 <= ts p1 - ts p0)%Z) by (apply (R p0 p1); constructor).
  assert (R' : run_ok T (p1 :: l)) by (intros a b A; apply R; constructor; exact A).
  specialize (IH p1 R').
  change (last (p0 :: p1 :: l) p0) with (last (p1 :: l) p0).
  rewrite (last_irrel (p1 :: l) p0 p1) by discriminate. lia.
Qed.

(** A window of [_windowize] has points, and starts no later than it ends. *)
Lemma windowize_window cfg obs w :
  In w (Classifier.windowize cfg obs) -> points w <> [] /\ (ts_start w <= ts_end w)%Z.
Proof.
  intros Iw. unfold Classifier.windowize in Iw.
  apply in_flat_map in Iw as ([k pts] & _ & Iw).
  destruct (proj1 (windows_of_mac_spec cfg k pts) w Iw) as ((_ & Ne & R & _ & p0 & Hd & Hs & He) & _).
  split; [exact Ne|]. rewrite Hs, He.
  destruct (points w) as [|q l]; [contradiction|]. injection Hd as <-.
  exact (run_ok_span _ _ _ R).
Qed.

Lemma npoints_pos W :
  W <> [] -> (forall w, In w W -> points w <> []) -> (1 <= npoints W)%Z.
Proof.
  intros Ne P. unfold npoints.
  assert (G : forall W, (0 <= zsum (map (fun w => Z.of_nat (List.length (points w))) W))%Z).
  { induction W0 as [|x W0 IH]; simpl; [lia|]. unfold zsum in *. simpl. lia. }
  destruct W as [|w W]; [contradiction|]. simpl. unfold zsum in *. simpl.
  specialize (G W). specialize (P w (or_introl eq_refl)).
  assert (1 <= List.length (points w))%nat by (destruct (points w); [contradiction|simpl; lia]).
  lia.
Qed.

(** C8 (amended): in a successful run, every MAC with a stationary window
    has a static row, and the row [r] of a MAC, against its stationary
    windows [W], has [first_seen = min ts_start], [last_seen = max ts_end],
    [n_obs] the number of points of [W], [first_seen <= last_seen],
    [n_obs >= 1], and a [loc_error_m] that is not negative: it is [>= 0]
    or [NaN]. *)
Theorem static_rows_spec (cfg : ClassifierConfig) (fuel : nat) (obs : list Obs)
    (st : list StaticRow) (mob : list MobileTrackPoint)
    (H : Classifier.run cfg fuel obs = Ok (st, mob)) :
  let SW := filter (Splitter.is_stationary cfg) (Classifier.windowize cfg obs) in
  (forall w, In w SW -> exists r, In r st /\ sa_mac r = wmac w) /\
  forall r, In r st ->
    let W := filter (fun w => String.eqb (wmac w) (sa_mac r)) SW in
    W <> [] /\
    (forall w, In w W -> first_seen r <= ts_start w)%Z /\
    (exists w, In w W /\ ts_start w = first_seen r) /\
    (forall w, In w W -> ts_end w <= last_seen r)%Z /\
    (exists w, In w W /\ ts_end w = last_seen r) /\
    n_obs r = npoints W /\
    (first_seen r <= last_seen r)%Z /\ (1 <= n_obs r)%Z /\
    (loc_error_m r <? 0) = false.
Proof.
  intros SW. unfold Classifier.run in H.
  apply bind_inv in H as ([sw mw] & Hs & H). apply bind_inv in H as (sr & Ha & H).
  apply bind_inv in H as (mr & _ & H). injection H as <- _.
  apply Splitter.split_stationary_filter in Hs as (_ & Esw & _). fold SW in Esw. subst sw.
  unfold Classifier.aggregate_static in Ha. apply bind_inv in Ha as (acc & Hc & Hm).
  destruct (collapse_spec SW [] [] acc) as (N & Cov & Ent);
    [split; [constructor|split; [intros _ []|intros ? ? []]]|exact Hc|].
  simpl in Cov, Ent. apply mapM_in in Hm as [I1 I2].
  assert (InW : forall w, In w SW -> points w <> [] /\ (ts_start w <= ts_end w)%Z).
  { intros w Iw. apply filter_In in Iw as [Iw _]. exact (windowize_window _ _ _ Iw). }
  split.
  - intros w Iw. apply Cov in Iw. apply in_map_iff in Iw as ([k a] & Ek & Ika).
    simpl in Ek. subst k. destruct (I2 _ Ika) as (r & Ir & Hr).
    exists r. split; [exact Ir|]. exact (proj1 (static_row_spec _ _ _ _ Hr)).
  - intros r Ir W. destruct (I1 r Ir) as ([k a] & Ika & Hr).
    destruct (static_row_spec _ _ _ _ Hr) as (Em & Hmin & Hmax & Hn & Hloc).
    destruct (Ent k a Ika) as (W1 & W2 & W3 & W4 & W5).
    assert (EW : W = filter (fun w => String.eqb (wmac w) k) SW) by (unfold W; rewrite Em; reflexivity).
    rewrite <- EW in W1, W2, W3, W4.
    assert (InW' : forall w, In w W -> points w <> [] /\ (ts_start w <= ts_end w)%Z).
    { intros w Iw. rewrite EW in Iw. apply filter_In in Iw as [Iw _]. exact (InW w Iw). }
    rewrite W2 in Hmin. rewrite W3 in Hmax.
    apply list_min_spec in Hmin as [Imin Lmin]. apply list_max_spec in Hmax as [Imax Lmax].
    split; [exact W1|].
    split; [intros w Iw; apply Lmin, in_map, Iw|].
    split; [apply in_map_iff in Imin as (w & E & Iw); exists w; auto|].
    split; [intros w Iw; apply Lmax, in_map, Iw|].
    split; [apply in_map_iff in Imax as (w & E & Iw); exists w; auto|].
    split; [rewrite Hn; exact W4|].
    split.
    + assert (E0 : exists w0, In w0 W).
      { clearbody W. destruct W as [|w0 ?]; [contradiction|exists w0; left; reflexivity]. }
      destruct E0 as [w0 Iw0].
      specialize (Lmin (ts_start w0) (in_map _ _ _ Iw0)).
      specialize (Lmax (ts_end w0) (in_map _ _ _ Iw0)).
      destruct (InW' w0 Iw0) as [_ Sp]. lia.
    + split; [rewrite Hn, W4; apply npoints_pos; [exact W1|intros w Iw; apply InW', Iw]|].
      apply Hloc, W5.
Qed.

(** Two observations [1000 s] apart with an [rssi] of [3080]: the two
    window weights [10 ** 308.0] sum to [inf], and [loc_error_m] is
    [inf / inf], i.e. [NaN]: [loc_error_m >= 0] is false. *)
Lemma static_rows_nan_error :
  let obs := [mkObs "aa" 0 0 0.001 3080; mkObs "aa" 1000 0 (-0.001) 3080] in
  Classifier.run driving 100 obs = Ok ([mkStaticRow "aa" 0 0 nan 0 1000 2], []) /\
  (0 <=? loc_error_m (mkStaticRow "aa" 0 0 nan 0 1000 2)) = false.
Proof. split; vm_compute; reflexivity. Qed.

(** A MAC seen in two stationary windows, [0-10 s] and [500 s]. *)
Lemma static_rows_spec_witness :
  let obs := [mkObs "cc" 0 0 0 (-50); mkObs "cc" 10 0 0.0001 (-60);
              mkObs "cc" 500 0 0.0002 (-50)] in
  let r := mkStaticRow "cc" 0 9.0909977545535462e-06 10.108630164433571 0 500 3 in
  Classifier.run driving 5000 obs = Ok ([r], []) /\
  (first_seen r <= last_seen r)%Z /\ (1 <= n_obs r)%Z /\ (loc_error_m r <? 0) = false.
Proof.
  intros obs r.
  assert (H : Classifier.run driving 5000 obs = Ok ([r], [])) by (vm_compute; reflexivity).
  destruct (static_rows_spec driving 5000 obs [r] [] H) as [_ R].
  destruct (R r (or_introl eq_refl)) as (_ & _ & _ & _ & _ & _ & F & N & L).
  split; [exact H|split; [exact F|split; [exact N|exact L]]].
Defined.

End Static.

(* ------------------------------------------------------------------ *)
(** ** Zero window weight in the static aggregator *)

Module ZeroWeight.
Import PyFacts Tracks.

Lemma collapse_app l1 l2 acc :
  Classifier.collapse (l1 ++ l2) acc =
  bind (Classifier.collapse l1 acc) (Classifier.collapse l2).
Proof.
  revert acc. induction l1 as [|w l1 IH]; intros acc; [reflexivity|].
  cbn [app Classifier.collapse].
  destruct (Classifier.window_weights w) as [wts| |]; [|reflexivity|reflexivity].
  cbn [bind]. destruct (py_div _ _) as [lat_c| |]; [|reflexivity|reflexivity].
  cbn [bind]. destruct (py_div _ _) as [lon_c| |]; [|reflexivity|reflexivity].
  apply IH.
Qed.

Lemma collapse_zero w ws acc wts :
  Classifier.window_weights w = Ok wts -> (fsum wts =? 0) = true ->
  Classifier.collapse (w :: ws) acc = Raise ZeroDivisionError.
Proof.
  intros Hw Hz. cbn [Classifier.collapse]. rewrite Hw, bind_ok.
  unfold py_div at 1. rewrite Hz. reflexivity.
Qed.

(** C3 (amended): a stationary window whose weights [10 ** (rssi / 10)]
    sum to [0] is not skipped.  When every window's diameter is computed
    and the stationary windows before it collapse without error, [run]
    raises [ZeroDivisionError], and [pipeline_run] propagates it with the
    database unchanged. *)
Theorem zero_weight_raises (cfg : ClassifierConfig) (fuel : nat) (obs : list Obs)
    (s : Dao.Store) (pre post : list Win) (w : Win)
    (acc : list (string * Classifier.MacAcc)) (wts : list float)
    (Hd : Forall (fun w => exists d, Classifier.diameter w = Ok d)
            (Classifier.windowize cfg obs))
    (Hsw : filter (Splitter.is_stationary cfg) (Classifier.windowize cfg obs)
           = pre ++ w :: post)
    (Hpre : Classifier.collapse pre [] = Ok acc)
    (Hw : Classifier.window_weights w = Ok wts) (Hz : (fsum wts =? 0) = true) :
  Classifier.run cfg fuel obs = Raise ZeroDivisionError /\
  Dao.pipeline_run cfg fuel obs s = (s, Raise ZeroDivisionError).
Proof.
  assert (R : Classifier.run cfg fuel obs = Raise ZeroDivisionError).
  { unfold Classifier.run.
    rewrite (proj2 (Splitter.split_stationary_filter cfg _ _ _) (conj Hd (conj eq_refl eq_refl))).
    rewrite bind_ok. unfold Classifier.aggregate_static. rewrite Hsw, collapse_app, Hpre.
    cbn [bind]. rewrite (collapse_zero w post acc wts Hw Hz). reflexivity. }
  split; [exact R|]. unfold Dao.pipeline_run. rewrite R. reflexivity.
Qed.

(** One observation with [rssi = -5000]: its weight [10 ** -500.0]
    underflows to [0.0], and the run raises. *)
Lemma zero_weight_raises_witness :
  let obs := [mkObs "bb" 0 0 0 (-5000)] in
  Classifier.run driving 100 obs = Raise ZeroDivisionError /\
  Dao.pipeline_run driving 100 obs (Dao.mkStore [] []) = (Dao.mkStore [] [], Raise ZeroDivisionError).
Proof.
  intros obs. set (w := mkWin "bb" 0 0 obs).
  assert (E : Classifier.windowize driving obs = [w]) by (vm_compute; reflexivity).
  assert (H0 : Forall (fun w => exists d, Classifier.diameter w = Ok d)
                 (Classifier.windowize driving obs)).
  { rewrite E. constructor; [exists 0; vm_compute; reflexivity|constructor]. }
  assert (H1 : filter (Splitter.is_stationary driving) (Classifier.windowize driving obs)
               = [] ++ w :: []) by (vm_compute; reflexivity).
  assert (H2 : Classifier.collapse [] [] = Ok []) by reflexivity.
  assert (H3 : Classifier.window_weights w = Ok [0]) by (vm_compute; reflexivity).
  assert (H4 : (fsum [0] =? 0) = true) by reflexivity.
  exact (zero_weight_raises driving 100 obs (Dao.mkStore [] []) [] [] w [] [0] H0 H1 H2 H3 H4).
Defined.

(** The same observation: the MAC is not skipped, the exception leaves
    the pipeline, and the earlier database contents stay. *)
Lemma zero_weight_not_skipped :
  let obs := [mkObs "bb" 0 0 0 (-5000)] in
  let s0 := Dao.mkStore [mkStaticRow "old" 1 2 3 0 5 1] [] in
  Classifier.run driving 100 obs = Raise ZeroDivisionError /\
  Dao.pipeline_run driving 100 obs s0 = (s0, Raise ZeroDivisionError).
Proof. split; vm_compute; reflexivity. Qed.

End ZeroWeight.

(* ------------------------------------------------------------------ *)
(** ** What the pipeline reads of [rssi] *)

Module Offset.
Import PyFacts Tracks Static.

(** [rssi + delta] on every observation. *)
Definition shift_rssi (delta : float) (o : Obs) : Obs :=
  mkObs (mac o) (ts o) (lat o) (lon o) (rssi o + delta).

Section Relabel.

(** [f] changes observations without touching their MAC, time or
    position. *)
Variable cfg : ClassifierConfig.
Variable f : Obs -> Obs.
Hypothesis f_mac : forall o, mac (f o) = mac o.
Hypothesis f_ts : forall o, ts (f o) = ts o.
Hypothesis f_lat : forall o, lat (f o) = lat o.
Hypothesis f_lon : forall o, lon (f o) = lon o.

Definition map_win (w : Win) : Win :=
  mkWin (wmac w) (ts_start w) (ts_end w) (map f (points w)).

Definition map_group (g : string * list Obs) : string * list Obs :=
  let '(k, l) := g in (k, map f l).

Lemma insert_map o l : insert_by_ts (f o) (map f l) = map f (insert_by_ts o l).
Proof.
  induction l as [|x l IH]; [reflexivity|]. simpl. rewrite !f_ts.
  destruct (ts o <? ts x)%Z; simpl; [reflexivity|]. rewrite IH. reflexivity.
Qed.

Lemma sort_map_aux l : forall acc,
  fold_left (fun acc o => insert_by_ts o acc) (map f l) (map f acc)
  = map f (fold_left (fun acc o => insert_by_ts o acc) l acc).
Proof.
  induction l as [|o l IH]; intros acc; [reflexivity|]. simpl.
  rewrite insert_map. apply IH.
Qed.

Lemma sort_map l : sort_by_ts (map f l) = map f (sort_by_ts l).
Proof. apply (sort_map_aux l []). Qed.

Lemma last_map (l : list Obs) d : last (map f l) (f d) = f (last l d).
Proof.
  induction l as [|x l IH]; [reflexivity|]. destruct l as [|y l]; [reflexivity|].
  simpl in IH |- *. exact IH.
Qed.

Lemma close_window_map m cur :
  Classifier.close_window cfg m (map f cur) = map map_win (Classifier.close_window cfg m cur).
Proof.
  destruct cur as [|p0 r]; [reflexivity|]. unfold Classifier.close_window.
  change (map f (p0 :: r)) with (f p0 :: map f r).
  rewrite <- (map_cons f p0 r), length_map.
  destruct (_ <=? _)%Z; [|reflexivity]. unfold map_win; cbn [map wmac ts_start ts_end points].
  rewrite <- (map_cons f p0 r), last_map, !f_ts. reflexivity.
Qed.

Lemma window_loop_map m rest : forall prev cur,
  Classifier.window_loop cfg m (f prev) (map f rest) (map f cur)
  = map map_win (Classifier.window_loop cfg m prev rest cur).
Proof.
  induction rest as [|curr rest IH]; intros prev cur; simpl; [apply close_window_map|].
  rewrite !f_ts. destruct (_ <=? _)%Z.
  - rewrite map_app, close_window_map. f_equal. apply (IH curr [curr]).
  - rewrite <- (IH curr (cur ++ [curr])), map_app. reflexivity.
Qed.

Lemma windows_of_mac_map m pts :
  Classifier.windows_of_mac cfg m (map f pts) = map map_win (Classifier.windows_of_mac cfg m pts).
Proof.
  unfold Classifier.windows_of_mac. rewrite sort_map.
  destruct (sort_by_ts pts) as [|p0 rest]; [reflexivity|]. apply (window_loop_map m rest p0 [p0]).
Qed.

Lemma upd_map_app k x (d : list (string * list Obs)) :
  upd [] k (fun l => l ++ map f x) (map map_group d) = map map_group (upd [] k (fun l => l ++ x) d).
Proof.
  induction d as [|[k' v] d IH]; simpl; [reflexivity|].
  destruct (String.eqb k k'); simpl; [rewrite map_app; reflexivity|]. rewrite IH. reflexivity.
Qed.

Lemma group_obs_map obs :
  Classifier.group_obs (map f obs) = map map_group (Classifier.group_obs obs).
Proof.
  unfold Classifier.group_obs.
  assert (G : forall d, fold_left (fun d o => upd [] (mac o) (fun l => l ++ [o]) d) (map f obs) (map map_group d)
    = map map_group (fold_left (fun d o => upd [] (mac o) (fun l => l ++ [o]) d) obs d)).
  { induction obs as [|o obs IH]; intros d; [reflexivity|]. simpl.
    rewrite f_mac. rewrite <- IH. f_equal. apply (upd_map_app (mac o) [o] d). }
  apply (G []).
Qed.

Lemma windowize_map obs :
  Classifier.windowize cfg (map f obs) = map map_win (Classifier.windowize cfg obs).
Proof.
  unfold Classifier.windowize. rewrite group_obs_map.
  induction (Classifier.group_obs obs) as [|[k l] G IH]; [reflexivity|].
  simpl. rewrite windows_of_mac_map, map_app, IH. reflexivity.
Qed.

Lemma maxd_row_map p qs m : Classifier.maxd_row (f p) (map f qs) m = Classifier.maxd_row p qs m.
Proof.
  revert m. induction qs as [|q qs IH]; intros m; [reflexivity|]. cbn [Classifier.maxd_row map].
  rewrite !f_lat, !f_lon. destruct (Geo.haversine (lat p, lon p) (lat q, lon q)); cbn [bind];
    [apply IH|reflexivity|reflexivity].
Qed.

Lemma maxd_all_map pts m : Classifier.maxd_all (map f pts) m = Classifier.maxd_all pts m.
Proof.
  revert m. induction pts as [|p pts IH]; intros m; [reflexivity|]. cbn [Classifier.maxd_all map].
  rewrite maxd_row_map. destruct (Classifier.maxd_row p pts m); cbn [bind]; [apply IH|reflexivity|reflexivity].
Qed.

Lemma diameter_map w : Classifier.diameter (map_win w) = Classifier.diameter w.
Proof. apply maxd_all_map. Qed.

Lemma split_stationary_map wins :
  Classifier.split_stationary cfg (map map_win wins) =
  bind (Classifier.split_stationary cfg wins) (fun r => Ok (map map_win (fst r), map map_win (snd r))).
Proof.
  induction wins as [|w ws IH]; [reflexivity|]. cbn [Classifier.split_stationary map].
  rewrite diameter_map.
  destruct (Classifier.diameter w) as [d| |]; cbn [bind]; [|reflexivity|reflexivity].
  rewrite IH. destruct (Classifier.split_stationary cfg ws) as [[s m]| |]; cbn [bind fst snd map];
    [|reflexivity|reflexivity].
  destruct (d <=? r_stationary cfg); reflexivity.
Qed.

Lemma to_mtp_map o : Classifier.to_mtp (f o) = Classifier.to_mtp o.
Proof. unfold Classifier.to_mtp. rewrite f_mac, f_ts, f_lat, f_lon. reflexivity. Qed.

Lemma decim_step_map last dec curr :
  Classifier.decim_step cfg (f last, dec) (f curr) =
  bind (Classifier.decim_step cfg (last, dec) curr) (fun st => Ok (f (fst st), snd st)).
Proof.
  unfold Classifier.decim_step. cbv beta iota zeta.
  rewrite !f_ts, !f_lat, !f_lon, to_mtp_map.
  destruct (Geo.haversine (lat last, lon last) (lat curr, lon curr)) as [d| |]; cbn [bind];
    [|reflexivity|reflexivity].
  destruct (_ || _)%bool; [|reflexivity].
  destruct (py_float_of_int (Z.max (ts curr - ts last) 1)) as [q| |]; cbn [bind];
    [|reflexivity|reflexivity].
  destruct (py_div d q) as [sp| |]; cbn [bind]; [|reflexivity|reflexivity].
  destruct (sp <=? max_speed_ms cfg); reflexivity.
Qed.

Lemma decimate_loop_map rest : forall last dec,
  Classifier.decimate_loop cfg (f last, dec) (map f rest) =
  bind (Classifier.decimate_loop cfg (last, dec) rest) (fun st => Ok (f (fst st), snd st)).
Proof.
  induction rest as [|curr rest IH]; intros last dec; [reflexivity|].
  cbn [Classifier.decimate_loop map]. rewrite decim_step_map.
  destruct (Classifier.decim_step cfg (last, dec) curr) as [[l d]| |]; cbn [bind fst snd];
    [apply IH|reflexivity|reflexivity].
Qed.

Lemma decimate_track_map pts :
  Classifier.decimate_track cfg (map f pts) = Classifier.decimate_track cfg pts.
Proof.
  destruct pts as [|p0 rest]; [reflexivity|]. unfold Classifier.decimate_track. cbn [map].
  rewrite to_mtp_map, decimate_loop_map.
  destruct (Classifier.decimate_loop cfg (p0, [Classifier.to_mtp p0]) rest); reflexivity.
Qed.

Lemma decimate_groups_map g :
  Classifier.decimate_groups cfg (map map_group g) = Classifier.decimate_groups cfg g.
Proof.
  induction g as [|[k l] g IH]; [reflexivity|].
  cbn [map map_group Classifier.decimate_groups]. rewrite sort_map, decimate_track_map, IH.
  reflexivity.
Qed.

Lemma group_windows_map wins :
  Classifier.group_windows (map map_win wins) = map map_group (Classifier.group_windows wins).
Proof.
  unfold Classifier.group_windows.
  assert (G : forall d,
    fold_left (fun d w => upd [] (wmac w) (fun l => l ++ points w) d) (map map_win wins) (map map_group d)
    = map map_group (fold_left (fun d w => upd [] (wmac w) (fun l => l ++ points w) d) wins d)).
  { induction wins as [|w wins IH]; intros d; [reflexivity|]. cbn [map fold_left].
    rewrite <- IH. f_equal. apply (upd_map_app (wmac w) (points w) d). }
  apply (G []).
Qed.

Lemma decimate_mobile_map wins :
  Classifier.decimate_mobile cfg (map map_win wins) = Classifier.decimate_mobile cfg wins.
Proof.
  unfold Classifier.decimate_mobile. rewrite group_windows_map. apply decimate_groups_map.
Qed.

(** What [_aggregate_static] keeps of a MAC besides positions: its key,
    window starts and ends, and observation count. *)
Definition acc_skel (acc : list (string * Classifier.MacAcc)) :=
  map (fun kv => (fst kv, Classifier.ts0s (snd kv), Classifier.ts1s (snd kv),
                  Classifier.nobs (snd kv))) acc.

Lemma upd_add_skel k c c' t t' w : forall acc accb,
  acc_skel acc = acc_skel accb ->
  acc_skel (upd Classifier.empty_acc k (Classifier.add_window c t w) acc) =
  acc_skel (upd Classifier.empty_acc k (Classifier.add_window c' t' (map_win w)) accb).
Proof.
  induction acc as [|[k1 a] acc IH]; intros [|[k2 b] accb] E; try discriminate.
  - unfold acc_skel, Classifier.add_window, map_win. cbn. rewrite length_map. reflexivity.
  - cbn in E. injection E as <- E0 E1 En Er.
    cbn [upd]. destruct (String.eqb k k1).
    + unfold acc_skel, Classifier.add_window, map_win. cbn [map fst snd Classifier.ts0s
        Classifier.ts1s Classifier.nobs points ts_start ts_end].
      rewrite E0, E1, En, length_map. f_equal. exact Er.
    + unfold acc_skel. cbn [map fst snd]. rewrite E0, E1, En. f_equal. apply IH. exact Er.
Qed.

Lemma collapse_skel ws : forall acc accb acc' accb',
  acc_skel acc = acc_skel accb ->
  Classifier.collapse ws acc = Ok acc' ->
  Classifier.collapse (map map_win ws) accb = Ok accb' ->
  acc_skel acc' = acc_skel accb'.
Proof.
  induction ws as [|w ws IH]; intros acc accb acc' accb' E H H'.
  - cbn in H, H'. injection H as <-. injection H' as <-. exact E.
  - cbn [Classifier.collapse map] in H, H'.
    apply bind_inv in H as [wts [_ H]]. apply bind_inv in H as [la [_ H]].
    apply bind_inv in H as [lo [_ H]].
    apply bind_inv in H' as [wts' [_ H']]. apply bind_inv in H' as [la' [_ H']].
    apply bind_inv in H' as [lo' [_ H']].
    eapply IH; [|exact H|exact H']. apply upd_add_skel. exact E.
Qed.

End Relabel.

(** The part of a static row that does not depend on positions or
    weights. *)
Definition row_skel (r : StaticRow) : string * Z * Z * Z :=
  (sa_mac r, first_seen r, last_seen r, n_obs r).

Lemma mapM_skel fuel fuel' : forall acc accb st st',
  acc_skel acc = acc_skel accb ->
  mapM (fun '(m, a) => Classifier.static_row fuel m a) acc = Ok st ->
  mapM (fun '(m, a) => Classifier.static_row fuel' m a) accb = Ok st' ->
  map row_skel st = map row_skel st'.
Proof.
  induction acc as [|[k a] acc IH]; intros [|[k' b] accb] st st' E H H'; try discriminate.
  - cbn in H, H'. injection H as <-. injection H' as <-. reflexivity.
  - cbn in E. injection E as <- E0 E1 En Er.
    cbn [mapM] in H, H'.
    apply bind_inv in H as [r [Hr H]]. apply bind_inv in H as [rs [Hrs H]]. injection H as <-.
    apply bind_inv in H' as [r' [Hr' H']]. apply bind_inv in H' as [rs' [Hrs' H']].
    injection H' as <-.
    apply static_row_spec in Hr as [M [F [L [N _]]]].
    apply static_row_spec in Hr' as [M' [F' [L' [N' _]]]].
    rewrite E0 in F. rewrite F' in F. rewrite E1 in L. rewrite L' in L.
    injection F as F. injection L as L.
    cbn [map]. unfold row_skel at 1 3. rewrite M, M', F, L, N, N', En. f_equal.
    eapply IH; eassumption.
Qed.

(** Running on observations relabelled by [f]: the mobile rows and the
    static-row skeletons agree whenever both runs succeed. *)
Lemma run_map cfg f fuel fuel' obs st mob st' mob'
    (f_mac : forall o, mac (f o) = mac o) (f_ts : forall o, ts (f o) = ts o)
    (f_lat : forall o, lat (f o) = lat o) (f_lon : forall o, lon (f o) = lon o) :
  Classifier.run cfg fuel obs = Ok (st, mob) ->
  Classifier.run cfg fuel' (map f obs) = Ok (st', mob') ->
  mob' = mob /\ map row_skel st' = map row_skel st.
Proof.
  intros H H'. unfold Classifier.run in H, H'.
  rewrite (windowize_map cfg f f_mac f_ts), (split_stationary_map cfg f f_lat f_lon) in H'.
  apply bind_inv in H as [[sw mw] [Hs H]]. rewrite Hs in H'. cbn [bind fst snd] in H'.
  apply bind_inv in H as [rows [Ha H]]. apply bind_inv in H as [mrows [Hm H]].
  injection H as <- <-.
  apply bind_inv in H' as [rows' [Ha' H']]. apply bind_inv in H' as [mrows' [Hm' H']].
  injection H' as <- <-.
  rewrite (decimate_mobile_map cfg f f_mac f_ts f_lat f_lon) in Hm'.
  split; [congruence|].
  unfold Classifier.aggregate_static in Ha, Ha'.
  apply bind_inv in Ha as [acc [Hc Ha]]. apply bind_inv in Ha' as [acc' [Hc' Ha']].
  symmetry. eapply mapM_skel; [|exact Ha|exact Ha'].
  eapply collapse_skel; [reflexivity|exact Hc|exact Hc'].
Qed.

(** A static MAC seen twice in one window and a walking MAC. *)
Definition offset_obs : list Obs :=
  [mkObs "cc" 0 0 0 (-50); mkObs "cc" 10 0 0.0001 (-60);
   mkObs "mm" 0 0 0 (-50); mkObs "mm" 60 0 0.01 (-50); mkObs "mm" 120 0 0.02 (-50)].

Definition offset_mobile : list MobileTrackPoint :=
  [mkMTP "mm" 0 0 0; mkMTP "mm" 60 0 0.01; mkMTP "mm" 120 0 0.02].

(** C9 (amended).  When the run on a batch and the run on the same batch
    with [delta] added to every [rssi] both succeed, they return the same
    mobile track points, and the same static rows up to position and
    [loc_error_m]: one row per MAC in the same order, with the same
    [first_seen], [last_seen] and [n_obs].  The positions are only equal
    over the reals; in floating point the weights [10 ** (rssi / 10)] are
    rounded, and a large offset makes them overflow or vanish. *)
Theorem rssi_offset_spec cfg fuel fuel' obs delta st mob st' mob'
    (H : Classifier.run cfg fuel obs = Ok (st, mob))
    (H' : Classifier.run cfg fuel' (map (shift_rssi delta) obs) = Ok (st', mob')) :
  mob' = mob /\ map row_skel st' = map row_skel st.
Proof. eapply run_map; [| | | |exact H|exact H']; reflexivity. Qed.

Lemma rssi_offset_spec_witness :
  Classifier.run driving 100 offset_obs =
    Ok ([mkStaticRow "cc" 0 9.0909090909090961e-06 0 0 10 2], offset_mobile) /\
  Classifier.run driving 100 (map (shift_rssi 1) offset_obs) =
    Ok ([mkStaticRow "cc" 0 9.0909090909090944e-06 0 0 10 2], offset_mobile) /\
  offset_mobile = offset_mobile /\
  map row_skel [mkStaticRow "cc" 0 9.0909090909090944e-06 0 0 10 2] =
  map row_skel [mkStaticRow "cc" 0 9.0909090909090961e-06 0 0 10 2].
Proof.
  assert (H1 : Classifier.run driving 100 offset_obs =
    Ok ([mkStaticRow "cc" 0 9.0909090909090961e-06 0 0 10 2], offset_mobile))
    by (vm_compute; reflexivity).
  assert (H2 : Classifier.run driving 100 (map (shift_rssi 1) offset_obs) =
    Ok ([mkStaticRow "cc" 0 9.0909090909090944e-06 0 0 10 2], offset_mobile))
    by (vm_compute; reflexivity).
  split; [exact H1|]. split; [exact H2|].
  exact (rssi_offset_spec driving 100 100 offset_obs 1 _ _ _ _ H1 H2).
Defined.

(** C9 fails as stated: the batch runs, and the same batch with 5000 dB
    added to every [rssi] raises [OverflowError] at [10 ** 495.0]. *)
Lemma rssi_offset_overflow :
  Classifier.run driving 100 offset_obs =
    Ok ([mkStaticRow "cc" 0 9.0909090909090961e-06 0 0 10 2], offset_mobile) /\
  Classifier.run driving 100 (map (shift_rssi 5000) offset_obs) = Raise OverflowError.
Proof. split; vm_compute; reflexivity. Qed.

End Offset.

(* ------------------------------------------------------------------ *)
(** ** When Weiszfeld's iteration returns *)

Module Median.
Import PyFacts Tracks.

Lemma weiszfeld_loop_converged fuel pw eps : forall x r,
  Geo.weiszfeld_loop fuel pw eps x = Ok r ->
  exists y step, Geo.weiszfeld_step pw y = Ok r /\ Geo.haversine y r = Ok step /\
                 (step <? eps) = true.
Proof.
  induction fuel as [|fuel IH]; intros x r H; cbn [Geo.weiszfeld_loop] in H; [discriminate|].
  apply bind_inv in H as [nx [Hs H]]. apply bind_inv in H as [st [Hh H]].
  destruct (st <? eps) eqn:E.
  - injection H as <-. exists x, st. auto.
  - eapply IH. exact H.
Qed.

Lemma weiszfeld_loop_more fuel k pw eps : forall x r,
  Geo.weiszfeld_loop fuel pw eps x = Ok r -> Geo.weiszfeld_loop (fuel + k) pw eps x = Ok r.
Proof.
  induction fuel as [|fuel IH]; intros x r H; cbn [Geo.weiszfeld_loop] in H; [discriminate|].
  cbn [Nat.add Geo.weiszfeld_loop].
  destruct (Geo.weiszfeld_step pw x) as [nx| |]; cbn [bind] in H |- *; try discriminate.
  destruct (Geo.haversine x nx) as [st| |]; cbn [bind] in H |- *; try discriminate.
  destruct (st <? eps); [exact H|]. apply IH. exact H.
Qed.

(** C2 (what the code does).  [geometric_median] has no iteration cap: it
    returns only an iterate [r] produced by a step whose length is below
    [eps], and the bound on the number of iterations is no cap, since
    allowing more iterations returns the same point. *)
Theorem geometric_median_converged fuel pts wts eps r
    (H : Geo.geometric_median fuel pts wts eps = Ok r) :
  (exists y step, Geo.weiszfeld_step (combine pts wts) y = Ok r /\
                  Geo.haversine y r = Ok step /\ (step <? eps) = true) /\
  (forall k, Geo.geometric_median (fuel + k) pts wts eps = Ok r).
Proof.
  unfold Geo.geometric_median in *.
  apply bind_inv in H as [xl [Hl H]]. apply bind_inv in H as [xo [Ho H]].
  split.
  - eapply weiszfeld_loop_converged. exact H.
  - intros k. rewrite Hl, Ho. cbn [bind]. apply weiszfeld_loop_more. exact H.
Qed.

Lemma geometric_median_converged_witness :
  Geo.geometric_median 100 [(0, 0); (0, 0.0001)] [1; 1] 1e-6 = Ok (0, 5.0000000000000002e-05) /\
  ((exists y step,
      Geo.weiszfeld_step (combine [(0, 0); (0, 0.0001)] [1; 1]) y = Ok (0, 5.0000000000000002e-05) /\
      Geo.haversine y (0, 5.0000000000000002e-05) = Ok step /\ (step <? 1e-6) = true) /\
   (forall k, Geo.geometric_median (100 + k) [(0, 0); (0, 0.0001)] [1; 1] 1e-6 =
              Ok (0, 5.0000000000000002e-05))).
Proof.
  assert (H : Geo.geometric_median 100 [(0, 0); (0, 0.0001)] [1; 1] 1e-6 =
              Ok (0, 5.0000000000000002e-05)) by (vm_compute; reflexivity).
  split; [exact H|]. exact (geometric_median_converged _ _ _ _ _ H).
Defined.

(** One point of weight [1e308]: [w / max(d, 1e-12)] overflows to
    infinity, [inf * 0.0] is NaN, and from a NaN iterate every step is NaN,
    which is never [< eps]: the [while True] loop never returns. *)
Definition huge_pw : list ((float * float) * float) := [((0, 0), 1e308)].

Lemma weiszfeld_loop_nan fuel :
  Geo.weiszfeld_loop fuel huge_pw 1e-6 (nan, nan) = OutOfFuel.
Proof.
  induction fuel as [|fuel IH]; [reflexivity|]. cbn [Geo.weiszfeld_loop].
  assert (S1 : Geo.weiszfeld_step huge_pw (nan, nan) = Ok (nan, nan)) by (vm_compute; reflexivity).
  assert (S2 : Geo.haversine (nan, nan) (nan, nan) = Ok nan) by (vm_compute; reflexivity).
  assert (S3 : (nan <? 1e-6) = false) by (vm_compute; reflexivity).
  rewrite S1. cbn [bind]. rewrite S2. cbn [bind]. rewrite S3. exact IH.
Qed.

(** C2 fails: no cap returns a final iterate; on this input the result is
    [OutOfFuel] whatever the number of iterations allowed. *)
Lemma geometric_median_no_cap :
  Geo.weiszfeld_step huge_pw (0, 0) = Ok (nan, nan) /\
  Geo.weiszfeld_step huge_pw (nan, nan) = Ok (nan, nan) /\
  (forall fuel, Geo.geometric_median fuel [(0, 0)] [1e308] 1e-6 = OutOfFuel).
Proof.
  split; [vm_compute; reflexivity|]. split; [vm_compute; reflexivity|].
  intros [|fuel]; [reflexivity|].
  assert (E : Geo.geometric_median (S fuel) [(0, 0)] [1e308] 1e-6 =
              Geo.weiszfeld_loop (S fuel) huge_pw 1e-6 (0, 0)).
  { unfold Geo.geometric_median. generalize (Geo.weiszfeld_loop (S fuel)) as L.
    intros L. vm_compute. reflexivity. }
  rewrite E. cbn [Geo.weiszfeld_loop].
  assert (S1 : Geo.weiszfeld_step huge_pw (0, 0) = Ok (nan, nan)) by (vm_compute; reflexivity).
  assert (S2 : Geo.haversine (0, 0) (nan, nan) = Ok nan) by (vm_compute; reflexivity).
  assert (S3 : (nan <? 1e-6) = false) by (vm_compute; reflexivity).
  rewrite S1. cbn [bind]. rewrite S2. cbn [bind]. rewrite S3. apply weiszfeld_loop_nan.
Qed.

End Median.

(* ------------------------------------------------------------------ *)
(** ** The DAO's bulk inserts *)

Module DaoFacts.
Import PyFacts Tracks Writer.

(** The row a lookup by primary key finds. *)
Definition find_static (m : string) (t : list StaticRow) : option StaticRow :=
  find (fun r => String.eqb (sa_mac r) m) t.

Definition find_mobile (k : string * Z) (t : list MobileTrackPoint)
    : option MobileTrackPoint :=
  find (fun r => String.eqb (mt_mac r) (fst k) && Z.eqb (mt_ts r) (snd k)) t.

(** The last element of [l] that satisfies [p]. *)
Fixpoint last_with {A} (p : A -> bool) (l : list A) : option A :=
  match l with
  | [] => None
  | x :: l' =>
      match last_with p l' with
      | Some y => Some y
      | None => if p x then Some x else None
      end
  end.

Lemma find_upsert_static m r t :
  find_static m (Dao.upsert_static r t) =
  if String.eqb (sa_mac r) m then Some r else find_static m t.
Proof.
  unfold find_static. induction t as [|r' t IH]; cbn [Dao.upsert_static find].
  - destruct (String.eqb (sa_mac r) m); reflexivity.
  - destruct (String.eqb (sa_mac r) (sa_mac r')) eqn:E.
    + apply String.eqb_eq in E. cbn [find]. rewrite E. destruct (String.eqb (sa_mac r') m); reflexivity.
    + cbn [find]. destruct (String.eqb (sa_mac r') m) eqn:E'; [|exact IH].
      apply String.eqb_eq in E'. subst m. rewrite E. reflexivity.
Qed.

Lemma upsert_static_keys r t :
  NoDup (map sa_mac t) -> NoDup (map sa_mac (Dao.upsert_static r t)) /\
  (forall m, In m (map sa_mac (Dao.upsert_static r t)) <-> m = sa_mac r \/ In m (map sa_mac t)).
Proof.
  induction t as [|r' t IH]; cbn [Dao.upsert_static map]; intros N.
  - split; [repeat constructor; simpl; tauto|]. intros m. simpl. intuition (subst; auto).
  - inversion N as [|? ? Nin N']; subst.
    destruct (String.eqb (sa_mac r) (sa_mac r')) eqn:E.
    + apply String.eqb_eq in E. cbn [map]. rewrite E. split; [exact N|].
      intros m. simpl. intuition (subst; auto).
    + apply String.eqb_neq in E. destruct (IH N') as [N2 K]. cbn [map]. split.
      * constructor; [|exact N2]. rewrite K. intros [H|H]; [congruence|contradiction].
      * intros m. simpl. rewrite K. intuition (subst; auto).
Qed.

Lemma fold_upsert_static rows : forall t,
  (NoDup (map sa_mac t) ->
   NoDup (map sa_mac (fold_left (fun t r => Dao.upsert_static r t) rows t))) /\
  (forall m, find_static m (fold_left (fun t r => Dao.upsert_static r t) rows t) =
     match last_with (fun r => String.eqb (sa_mac r) m) rows with
     | Some r => Some r
     | None => find_static m t
     end).
Proof.
  induction rows as [|r rows IH]; intros t; [split; [auto|reflexivity]|].
  cbn [fold_left last_with]. destruct (IH (Dao.upsert_static r t)) as [N F]. split.
  - intros Nt. apply N. apply upsert_static_keys. exact Nt.
  - intros m. rewrite F. destruct (last_with _ rows); [reflexivity|].
    rewrite find_upsert_static. destruct (String.eqb (sa_mac r) m); reflexivity.
Qed.

(** [add_static_ap_bulk] ([INSERT ... ON CONFLICT(mac) DO UPDATE SET] every
    column): when it succeeds, a lookup by MAC finds the last row of the
    batch with that MAC, or the old row when the batch has none, and the
    table keeps one row per MAC. *)
Theorem add_static_ap_bulk_lookup rows s s'
    (H : Dao.add_static_ap_bulk rows s = Ok s') :
  Dao.mobile_track s' = Dao.mobile_track s /\
  (NoDup (map sa_mac (Dao.static_ap s)) -> NoDup (map sa_mac (Dao.static_ap s'))) /\
  (forall m, find_static m (Dao.static_ap s') =
     match last_with (fun r => String.eqb (sa_mac r) m) rows with
     | Some r => Some r
     | None => find_static m (Dao.static_ap s)
     end).
Proof.
  unfold Dao.add_static_ap_bulk in H. rewrite insert_static_eq in H.
  destruct (forallb Dao.static_row_ok rows); [|discriminate].
  cbn [bind] in H. injection H as <-. cbn [Dao.static_ap Dao.mobile_track].
  split; [reflexivity|]. apply fold_upsert_static.
Qed.

Lemma add_static_ap_bulk_lookup_witness :
  Dao.add_static_ap_bulk [mkStaticRow "a" 1 1 0 0 5 2; mkStaticRow "a" 2 2 0 0 9 4]
    (Dao.mkStore [mkStaticRow "a" 0 0 0 0 1 1; mkStaticRow "b" 0 0 0 0 1 1] []) =
  Ok (Dao.mkStore [mkStaticRow "a" 2 2 0 0 9 4; mkStaticRow "b" 0 0 0 0 1 1] []) /\
  (Dao.mobile_track (Dao.mkStore [mkStaticRow "a" 2 2 0 0 9 4; mkStaticRow "b" 0 0 0 0 1 1] []) =
   Dao.mobile_track (Dao.mkStore [mkStaticRow "a" 0 0 0 0 1 1; mkStaticRow "b" 0 0 0 0 1 1] []) /\
  (NoDup (map sa_mac (Dao.static_ap (Dao.mkStore [mkStaticRow "a" 0 0 0 0 1 1; mkStaticRow "b" 0 0 0 0 1 1] []))) ->
   NoDup (map sa_mac (Dao.static_ap (Dao.mkStore [mkStaticRow "a" 2 2 0 0 9 4; mkStaticRow "b" 0 0 0 0 1 1] [])))) /\
  (forall m, find_static m (Dao.static_ap (Dao.mkStore [mkStaticRow "a" 2 2 0 0 9 4; mkStaticRow "b" 0 0 0 0 1 1] [])) =
     match last_with (fun r => String.eqb (sa_mac r) m) [mkStaticRow "a" 1 1 0 0 5 2; mkStaticRow "a" 2 2 0 0 9 4] with
     | Some r => Some r
     | None => find_static m (Dao.static_ap (Dao.mkStore [mkStaticRow "a" 0 0 0 0 1 1; mkStaticRow "b" 0 0 0 0 1 1] []))
     end)).
Proof.
  assert (H : Dao.add_static_ap_bulk [mkStaticRow "a" 1 1 0 0 5 2; mkStaticRow "a" 2 2 0 0 9 4]
    (Dao.mkStore [mkStaticRow "a" 0 0 0 0 1 1; mkStaticRow "b" 0 0 0 0 1 1] []) =
    Ok (Dao.mkStore [mkStaticRow "a" 2 2 0 0 9 4; mkStaticRow "b" 0 0 0 0 1 1] []))
    by (vm_compute; reflexivity).
  split; [exact H|]. exact (add_static_ap_bulk_lookup _ _ _ H).
Defined.

Definition kp (k : string * Z) (r : MobileTrackPoint) : bool :=
  String.eqb (mt_mac r) (fst k) && Z.eqb (mt_ts r) (snd k).

Lemma kp_iff k r : kp k r = true <-> Tracks.key r = k.
Proof.
  destruct k as [m t]. unfold kp, Tracks.key. cbn [fst snd].
  rewrite Bool.andb_true_iff, String.eqb_eq, Z.eqb_eq. split; [intros [-> ->]; reflexivity|].
  intros E; injection E as -> ->; auto.
Qed.

Lemma same_key_iff r r' : Dao.same_key r r' = true <-> Tracks.key r = Tracks.key r'.
Proof.
  unfold Dao.same_key, Tracks.key.
  rewrite Bool.andb_true_iff, String.eqb_eq, Z.eqb_eq. split; [intros [-> ->]; reflexivity|].
  intros E; injection E as -> ->; auto.
Qed.

Lemma find_replace_mobile k r t :
  find_mobile k (Dao.replace_mobile r t) = if kp k r then Some r else find_mobile k t.
Proof.
  unfold find_mobile, Dao.replace_mobile. fold (kp k).
  assert (FC : forall (p : MobileTrackPoint -> bool) x l,
    find p (x :: l) = if p x then Some x else find p l) by reflexivity.
  induction t as [|r' t IH]; cbn [filter app].
  - rewrite FC. destruct (kp k r); reflexivity.
  - destruct (Dao.same_key r r') eqn:S; cbn [negb app]; rewrite ?FC.
    + rewrite IH. apply same_key_iff in S.
      destruct (kp k r) eqn:K; [reflexivity|].
      destruct (kp k r') eqn:K'; [|reflexivity].
      apply kp_iff in K'. rewrite <- S in K'. apply kp_iff in K'. congruence.
    + rewrite IH. destruct (kp k r') eqn:K'; [|reflexivity].
      destruct (kp k r) eqn:K; [|reflexivity].
      apply kp_iff in K, K'. assert (Dao.same_key r r' = true) by (apply same_key_iff; congruence).
      congruence.
Qed.

Lemma replace_mobile_keys r t :
  NoDup (map Tracks.key t) -> NoDup (map Tracks.key (Dao.replace_mobile r t)).
Proof.
  unfold Dao.replace_mobile. intros N. rewrite map_app. cbn [map].
  apply NoDup_app; [| |].
  - induction t as [|r' t IH]; cbn [filter]; [constructor|].
    inversion N as [|? ? Nin N']; subst.
    destruct (negb (Dao.same_key r r')); [|exact (IH N')].
    cbn [map]. constructor; [|exact (IH N')].
    intros I. apply Nin. apply in_map_iff in I as (x & E & I).
    apply filter_In in I as [I _]. rewrite <- E. apply in_map. exact I.
  - repeat constructor. simpl. tauto.
  - intros x I1 [E|[]]. subst x. apply in_map_iff in I1 as (y & E & I).
    apply filter_In in I as [_ F]. apply Bool.negb_true_iff in F.
    assert (Dao.same_key r y = true) by (apply same_key_iff; congruence). congruence.
Qed.

Lemma fold_replace_mobile rows : forall t,
  (NoDup (map Tracks.key t) ->
   NoDup (map Tracks.key (fold_left (fun t r => Dao.replace_mobile r t) rows t))) /\
  (forall k, find_mobile k (fold_left (fun t r => Dao.replace_mobile r t) rows t) =
     match last_with (kp k) rows with
     | Some r => Some r
     | None => find_mobile k t
     end).
Proof.
  induction rows as [|r rows IH]; intros t; [split; [auto|reflexivity]|].
  cbn [fold_left last_with]. destruct (IH (Dao.replace_mobile r t)) as [N F]. split.
  - intros Nt. apply N. apply replace_mobile_keys. exact Nt.
  - intros k. rewrite F. destruct (last_with _ rows); [reflexivity|].
    rewrite find_replace_mobile. destruct (kp k r); reflexivity.
Qed.

(** [add_mobile_track_bulk] ([INSERT OR REPLACE] on the key [(mac, ts)]):
    when it succeeds, a lookup by [(mac, ts)] finds the last row of the
    batch with that key, or the old row when the batch has none, and the
    table keeps one row per key. *)
Theorem add_mobile_track_bulk_lookup rows s s'
    (H : Dao.add_mobile_track_bulk rows s = Ok s') :
  Dao.static_ap s' = Dao.static_ap s /\
  (NoDup (map Tracks.key (Dao.mobile_track s)) -> NoDup (map Tracks.key (Dao.mobile_track s'))) /\
  (forall k, find_mobile k (Dao.mobile_track s') =
     match last_with (kp k) rows with
     | Some r => Some r
     | None => find_mobile k (Dao.mobile_track s)
     end).
Proof.
  unfold Dao.add_mobile_track_bulk in H. rewrite insert_mobile_eq in H.
  destruct (forallb Dao.mobile_row_ok rows); [|discriminate].
  cbn [bind] in H. injection H as <-. cbn [Dao.static_ap Dao.mobile_track].
  split; [reflexivity|]. apply fold_replace_mobile.
Qed.

Lemma add_mobile_track_bulk_lookup_witness :
  Dao.add_mobile_track_bulk [mkMTP "m" 5 1 1; mkMTP "m" 5 2 2]
    (Dao.mkStore [] [mkMTP "m" 5 0 0; mkMTP "m" 6 0 0]) =
  Ok (Dao.mkStore [] [mkMTP "m" 6 0 0; mkMTP "m" 5 2 2]) /\
  (Dao.static_ap (Dao.mkStore [] [mkMTP "m" 6 0 0; mkMTP "m" 5 2 2]) =
   Dao.static_ap (Dao.mkStore [] [mkMTP "m" 5 0 0; mkMTP "m" 6 0 0]) /\
  (NoDup (map Tracks.key (Dao.mobile_track (Dao.mkStore [] [mkMTP "m" 5 0 0; mkMTP "m" 6 0 0]))) ->
   NoDup (map Tracks.key (Dao.mobile_track (Dao.mkStore [] [mkMTP "m" 6 0 0; mkMTP "m" 5 2 2])))) /\
  (forall k, find_mobile k (Dao.mobile_track (Dao.mkStore [] [mkMTP "m" 6 0 0; mkMTP "m" 5 2 2])) =
     match last_with (kp k) [mkMTP "m" 5 1 1; mkMTP "m" 5 2 2] with
     | Some r => Some r
     | None => find_mobile k (Dao.mobile_track (Dao.mkStore [] [mkMTP "m" 5 0 0; mkMTP "m" 6 0 0]))
     end)).
Proof.
  assert (H : Dao.add_mobile_track_bulk [mkMTP "m" 5 1 1; mkMTP "m" 5 2 2]
    (Dao.mkStore [] [mkMTP "m" 5 0 0; mkMTP "m" 6 0 0]) =
    Ok (Dao.mkStore [] [mkMTP "m" 6 0 0; mkMTP "m" 5 2 2])) by (vm_compute; reflexivity).
  split; [exact H|]. exact (add_mobile_track_bulk_lookup _ _ _ H).
Defined.

End DaoFacts.

(* ------------------------------------------------------------------ *)
(** ** More of the classifier *)

Module PipelineFacts.
Import PyFacts Splitter Lists Tracks Nonneg Static.

(** The keys of a Python dict filled by [d[k] ...] over [l]: first
    occurrences, in order. *)
Definition first_keys (l : list string) : list string :=
  fold_left (fun acc k => if existsb (String.eqb k) acc then acc else acc ++ [k]) l [].

Lemma existsb_eqb k l : existsb (String.eqb k) l = true <-> In k l.
Proof.
  rewrite existsb_exists. split.
  - intros (x & I & E). apply String.eqb_eq in E. subst. exact I.
  - intros I. exists k. split; [exact I|apply String.eqb_refl].
Qed.

Lemma upd_fst {V} (dflt : V) k f d :
  map fst (upd dflt k f d) =
  if existsb (String.eqb k) (map fst d) then map fst d else map fst d ++ [k].
Proof.
  induction d as [|[k' v] d IH]; [reflexivity|]. cbn [upd map fst existsb].
  destruct (String.eqb k k') eqn:E; [reflexivity|]. cbn [map fst orb]. rewrite IH.
  destruct (existsb _ _); reflexivity.
Qed.

Lemma collapse_keys ws : forall acc acc',
  Classifier.collapse ws acc = Ok acc' ->
  map fst acc' =
  fold_left (fun acc k => if existsb (String.eqb k) acc then acc else acc ++ [k])
    (map wmac ws) (map fst acc).
Proof.
  induction ws as [|w ws IH]; intros acc acc' H.
  - injection H as <-. reflexivity.
  - cbn [Classifier.collapse] in H.
    apply bind_inv in H as (wts & _ & H). apply bind_inv in H as (la & _ & H).
    apply bind_inv in H as (lo & _ & H).
    rewrite (IH _ _ H). cbn [map fold_left]. rewrite upd_fst. reflexivity.
Qed.

Lemma mapM_static_keys fuel acc st :
  mapM (fun '(m, a) => Classifier.static_row fuel m a) acc = Ok st ->
  map sa_mac st = map fst acc.
Proof.
  revert st. induction acc as [|[k a] acc IH]; intros st H.
  - injection H as <-. reflexivity.
  - cbn [mapM] in H. apply bind_inv in H as (r & Hr & H).
    apply bind_inv in H as (rs & Hrs & H). injection H as <-.
    cbn [map fst]. rewrite (IH _ Hrs). apply static_row_spec in Hr as [-> _]. reflexivity.
Qed.

Lemma first_keys_nodup l : NoDup (first_keys l).
Proof.
  unfold first_keys.
  assert (G : forall acc, NoDup acc ->
    NoDup (fold_left (fun acc k => if existsb (String.eqb k) acc then acc else acc ++ [k]) l acc)).
  { induction l as [|k l IH]; intros acc N; [exact N|]. cbn [fold_left]. apply IH.
    destruct (existsb (String.eqb k) acc) eqn:E; [exact N|].
    apply NoDup_app; [exact N|repeat constructor; simpl; tauto|].
    intros x I [<-|[]]. apply existsb_eqb in I. congruence. }
  apply G. constructor.
Qed.

(** [_aggregate_static] emits one row per MAC, in the order in which the
    MACs' first stationary windows come out of [_windowize]: the keys of
    [win_centers_by_mac].  In particular no MAC gets two rows. *)
Theorem static_rows_order cfg fuel obs st mob
    (H : Classifier.run cfg fuel obs = Ok (st, mob)) :
  map sa_mac st =
    first_keys (map wmac (filter (is_stationary cfg) (Classifier.windowize cfg obs))) /\
  NoDup (map sa_mac st).
Proof.
  unfold Classifier.run in H.
  apply bind_inv in H as ([sw mw] & Hs & H).
  apply bind_inv in H as (rows & Ha & H). apply bind_inv in H as (mrows & _ & H).
  injection H as <- <-.
  apply split_stationary_filter in Hs as (_ & -> & _).
  unfold Classifier.aggregate_static in Ha. apply bind_inv in Ha as (acc & Hc & Hm).
  assert (E : map sa_mac rows = first_keys (map wmac (filter (is_stationary cfg)
                (Classifier.windowize cfg obs)))).
  { rewrite (mapM_static_keys _ _ _ Hm), (collapse_keys _ _ _ Hc). reflexivity. }
  split; [exact E|]. rewrite E. apply first_keys_nodup.
Qed.

Lemma static_rows_order_witness :
  Classifier.run driving 5000
    [mkObs "zz" 0 0 0 (-50); mkObs "cc" 5 0 0 (-50); mkObs "zz" 10 0 0.0001 (-60)] =
    Ok ([mkStaticRow "zz" 0 9.0909090909090961e-06 0 0 10 2; mkStaticRow "cc" 0 0 0 5 5 1], []) /\
  (map sa_mac [mkStaticRow "zz" 0 9.0909090909090961e-06 0 0 10 2; mkStaticRow "cc" 0 0 0 5 5 1] =
    first_keys (map wmac (filter (is_stationary driving) (Classifier.windowize driving
      [mkObs "zz" 0 0 0 (-50); mkObs "cc" 5 0 0 (-50); mkObs "zz" 10 0 0.0001 (-60)]))) /\
   NoDup (map sa_mac [mkStaticRow "zz" 0 9.0909090909090961e-06 0 0 10 2; mkStaticRow "cc" 0 0 0 5 5 1])).
Proof.
  assert (H : Classifier.run driving 5000
    [mkObs "zz" 0 0 0 (-50); mkObs "cc" 5 0 0 (-50); mkObs "zz" 10 0 0.0001 (-60)] =
    Ok ([mkStaticRow "zz" 0 9.0909090909090961e-06 0 0 10 2; mkStaticRow "cc" 0 0 0 5 5 1], []))
    by (vm_compute; reflexivity).
  split; [exact H|]. exact (static_rows_order _ _ _ _ _ H).
Defined.

Lemma close_window_keep cfg m cur :
  (min_window_len cfg <= 1)%Z -> cur <> [] ->
  flat_map points (Classifier.close_window cfg m cur) = cur.
Proof.
  intros Hm Hc. destruct cur as [|p0 r]; [contradiction|]. unfold Classifier.close_window.
  destruct (min_window_len cfg <=? Z.of_nat (List.length (p0 :: r)))%Z eqn:E.
  - cbn [flat_map points]. apply app_nil_r.
  - apply Z.leb_gt in E. cbn [List.length] in E. lia.
Qed.

Lemma window_loop_keep cfg m rest : forall prev cur,
  (min_window_len cfg <= 1)%Z -> cur <> [] ->
  flat_map points (Classifier.window_loop cfg m prev rest cur) = cur ++ rest.
Proof.
  induction rest as [|curr rest IH]; intros prev cur Hm Hc; cbn [Classifier.window_loop].
  - rewrite app_nil_r. apply close_window_keep; assumption.
  - destruct (t_max_gap cfg <=? ts curr - ts prev)%Z.
    + rewrite flat_map_app, close_window_keep, IH by (assumption || discriminate). reflexivity.
    + rewrite IH by (first [assumption | destruct cur; [contradiction|discriminate]]).
      rewrite <- app_assoc. reflexivity.
Qed.

Lemma upd_concat k o (d : list (string * list Obs)) :
  Permutation (List.concat (map snd (upd [] k (fun l => l ++ [o]) d))) (List.concat (map snd d) ++ [o]).
Proof.
  induction d as [|[k' v] d IH]; [reflexivity|]. cbn [upd].
  destruct (String.eqb k k'); cbn [map snd List.concat].
  - rewrite <- !app_assoc. apply Permutation_app_head. apply Permutation_app_comm.
  - rewrite <- app_assoc. apply Permutation_app_head. exact IH.
Qed.

Lemma group_obs_concat obs : Permutation (List.concat (map snd (Classifier.group_obs obs))) obs.
Proof.
  unfold Classifier.group_obs.
  assert (G : forall d, Permutation
    (List.concat (map snd (fold_left (fun d o => upd [] (mac o) (fun l => l ++ [o]) d) obs d)))
    (List.concat (map snd d) ++ obs)).
  { induction obs as [|o obs IH]; intros d; [rewrite app_nil_r; reflexivity|]. cbn [fold_left].
    rewrite IH. rewrite upd_concat. rewrite <- app_assoc. reflexivity. }
  apply G.
Qed.

(** With [min_window_len <= 1] (both presets), [_windowize] drops no
    observation and duplicates none: the windows' points, taken together,
    are the input observations, up to order. *)
Theorem windowize_keeps_all cfg obs (Hm : (min_window_len cfg <= 1)%Z) :
  Permutation (flat_map points (Classifier.windowize cfg obs)) obs.
Proof.
  unfold Classifier.windowize. rewrite <- (group_obs_concat obs) at 2.
  induction (Classifier.group_obs obs) as [|[k l] G IH]; [reflexivity|].
  cbn [flat_map map snd List.concat]. rewrite flat_map_app. apply Permutation_app; [|exact IH].
  unfold Classifier.windows_of_mac.
  destruct (sort_by_ts_spec l) as [_ P].
  destruct (sort_by_ts l) as [|p0 rest] eqn:E.
  - rewrite <- P. reflexivity.
  - rewrite window_loop_keep by (assumption || discriminate). exact P.
Qed.

Lemma windowize_keeps_all_witness :
  (min_window_len driving <= 1)%Z /\
  Permutation (flat_map points (Classifier.windowize driving
    [mkObs "a" 500 0 0 0; mkObs "b" 0 0 0 0; mkObs "a" 0 0 0 0]))
    [mkObs "a" 500 0 0 0; mkObs "b" 0 0 0 0; mkObs "a" 0 0 0 0].
Proof.
  assert (H : (min_window_len driving <= 1)%Z) by (vm_compute; discriminate).
  split; [exact H|]. exact (windowize_keeps_all driving _ H).
Defined.

(** [haversine] never returns a negative distance ([2 * r * asin(sqrt h)]
    with [sqrt h >= 0]); it can return [NaN]. *)
Theorem haversine_not_negative a b d (H : Geo.haversine a b = Ok d) :
  (d <? 0)%float = false.
Proof. exact (haversine_nn a b d H). Qed.

Lemma haversine_not_negative_witness :
  Geo.haversine (0, 0) (0, 1) = Ok 111194.92664455871 /\ (111194.92664455871 <? 0)%float = false.
Proof.
  assert (H : Geo.haversine (0, 0) (0, 1) = Ok 111194.92664455871) by (vm_compute; reflexivity).
  split; [exact H|]. exact (haversine_not_negative _ _ _ H).
Defined.

End PipelineFacts.

(* ------------------------------------------------------------------ *)
(** ** wf/storage/dao.py: the Python half of [get_encryption_counts] *)

Module EncCounts.
Import Lists PipelineFacts.
#[local] Open Scope Z_scope.
#[local] Open Scope string_scope.

(** The character [" "] (code 32). *)
Definition space : Ascii.ascii := Ascii.ascii_of_nat 32.

(** [enc.split(" ")[0]]: the text before the first space (all of [enc]
    when it has none). *)
Fixpoint first_field (s : string) : string :=
  match s with
  | EmptyString => EmptyString
  | String c s' => if Ascii.eqb c space then EmptyString else String c (first_field s')
  end.

(** [proto = enc.split(" ")[0]; if proto == "WPA1": proto = "WPA"]. *)
Definition normalize (enc : string) : string :=
  let proto := first_field enc in
  if String.eqb proto "WPA1" then "WPA" else proto.

Definition protocols : list string := [""; "Open"; "WEP"; "WPA"; "WPA2"; "WPA3"].

(** The loop over [raw_counts]: [protocol_counts[proto] =
    protocol_counts.get(proto, 0) + cnt] for the kept protocols.  A row
    whose [encryption] is SQL [NULL] ([None]) makes [enc.split] raise
    [AttributeError]; that outcome is [None]. *)
Fixpoint aggregate (raw : list (option string * Z)) (acc : list (string * Z))
    : option (list (string * Z)) :=
  match raw with
  | [] => Some acc
  | (None, _) :: _ => None
  | (Some enc, cnt) :: raw' =>
      let proto := normalize enc in
      if existsb (String.eqb proto) protocols
      then aggregate raw' (upd 0 proto (fun c => c + cnt) acc)
      else aggregate raw' acc
  end.

(** [sorted(..., key=lambda pair: pair[1], reverse=True)]: a stable sort
    on decreasing counts (insertion keeps equal counts in their order). *)
Fixpoint insert_desc (x : string * Z) (l : list (string * Z)) : list (string * Z) :=
  match l with
  | [] => [x]
  | y :: l' => if (snd y <? snd x)%Z then x :: y :: l' else y :: insert_desc x l'
  end.

Definition sort_desc (l : list (string * Z)) : list (string * Z) :=
  fold_left (fun acc x => insert_desc x acc) l [].

Definition get_encryption_counts (raw : list (option string * Z))
    : option (list (string * Z)) :=
  match aggregate raw [] with
  | Some pc => Some (sort_desc pc)
  | None => None
  end.

(** What the totals should be: whether a row normalizes to [p], and the
    sum of the counts of those rows. *)
Definition row_is (p : string) (row : option string * Z) : bool :=
  match fst row with Some enc => String.eqb (normalize enc) p | None => false end.

Definition seen (p : string) (raw : list (option string * Z)) : bool :=
  existsb (row_is p) raw.

Definition total (p : string) (raw : list (option string * Z)) : Z :=
  fold_right (fun row acc => if row_is p row then snd row + acc else acc) 0 raw.

Definition lk (p : string) (l : list (string * Z)) : option Z :=
  match find (fun kv => String.eqb (fst kv) p) l with Some kv => Some (snd kv) | None => None end.

Definition odflt (o : option Z) : Z := match o with Some v => v | None => 0 end.

Lemma lk_upd p k f d :
  lk p (upd 0 k f d) = if String.eqb k p then Some (f (odflt (lk k d))) else lk p d.
Proof.
  unfold lk. induction d as [|[k' v] d IH]; cbn [upd find fst snd].
  - destruct (String.eqb k p); reflexivity.
  - destruct (String.eqb k k') eqn:E.
    + apply String.eqb_eq in E. subst k'. cbn [find fst snd]. rewrite String.eqb_refl.
      destruct (String.eqb k p); reflexivity.
    + cbn [find fst snd]. destruct (String.eqb k' p) eqn:E'.
      * apply String.eqb_eq in E'. subst p. rewrite E. reflexivity.
      * rewrite IH, (String.eqb_sym k' k), E. reflexivity.
Qed.

Lemma total_unseen p raw : seen p raw = false -> total p raw = 0.
Proof.
  induction raw as [|row raw IH]; [reflexivity|]. unfold seen, total. cbn [existsb fold_right].
  fold (total p raw). intros H. apply Bool.orb_false_iff in H as [H1 H2]. rewrite H1. apply IH, H2.
Qed.

Lemma aggregate_lk raw : forall acc pc p,
  aggregate raw acc = Some pc ->
  lk p pc = if existsb (String.eqb p) protocols && seen p raw
            then Some (odflt (lk p acc) + total p raw) else lk p acc.
Proof.
  induction raw as [|[[enc|] c] raw IH]; intros acc pc p H; cbn [aggregate] in H.
  - injection H as <-. rewrite andb_false_r. reflexivity.
  - unfold seen, total. cbn [existsb fold_right]. fold (seen p raw) (total p raw).
    unfold row_is at 1 2. cbn [fst snd].
    destruct (String.eqb (normalize enc) p) eqn:Q.
    + apply String.eqb_eq in Q. subst p.
      destruct (existsb (String.eqb (normalize enc)) protocols) eqn:K.
      * rewrite (IH _ _ _ H), lk_upd, String.eqb_refl. cbn [andb orb].
        rewrite K. destruct (seen (normalize enc) raw) eqn:Sn; cbn [andb orb odflt]; [f_equal; lia|].
        rewrite total_unseen by exact Sn. f_equal. lia.
      * rewrite (IH _ _ _ H), K. reflexivity.
    + cbn [orb]. destruct (existsb (String.eqb (normalize enc)) protocols).
      * rewrite (IH _ _ _ H), lk_upd, Q. reflexivity.
      * exact (IH _ _ _ H).
  - discriminate.
Qed.

Lemma aggregate_keys raw : forall acc pc,
  aggregate raw acc = Some pc ->
  (NoDup (map fst acc) -> NoDup (map fst pc)) /\
  (forall p, In p (map fst pc) -> In p (map fst acc) \/ In p protocols).
Proof.
  induction raw as [|[[enc|] c] raw IH]; intros acc pc H; cbn [aggregate] in H.
  - injection H as <-. auto.
  - destruct (existsb (String.eqb (normalize enc)) protocols) eqn:K.
    + destruct (IH _ _ H) as [N I]. split.
      * intros Na. apply N, upd_nodup, Na.
      * intros p Ip. destruct (I p Ip) as [Ip'|Ip']; [|right; exact Ip'].
        apply upd_keys in Ip' as [->|Ip']; [right; apply existsb_eqb, K|left; exact Ip'].
    + exact (IH _ _ H).
  - discriminate.
Qed.

Lemma insert_desc_perm x l : Permutation (insert_desc x l) (x :: l).
Proof.
  induction l as [|y l IH]; [reflexivity|]. cbn [insert_desc].
  destruct (snd y <? snd x)%Z; [reflexivity|]. rewrite IH. apply perm_swap.
Qed.

Definition desc (x y : string * Z) : Prop := snd y <= snd x.

Lemma insert_desc_sorted x l : Sorted desc l -> Sorted desc (insert_desc x l).
Proof.
  induction l as [|y l IH]; intros S; cbn [insert_desc]; [repeat constructor|].
  destruct (snd y <? snd x)%Z eqn:E.
  - apply Z.ltb_lt in E. constructor; [exact S|]. constructor. unfold desc. lia.
  - apply Z.ltb_ge in E. inversion S as [|? ? S' H']; subst. constructor; [apply IH, S'|].
    destruct l as [|z l]; cbn [insert_desc]; [constructor; unfold desc; lia|].
    destruct (snd z <? snd x)%Z; constructor; unfold desc; [lia|].
    inversion H'; assumption.
Qed.

Lemma sort_desc_spec l : Sorted desc (sort_desc l) /\ Permutation (sort_desc l) l.
Proof.
  unfold sort_desc.
  assert (G : forall acc, Sorted desc acc ->
    Sorted desc (fold_left (fun acc x => insert_desc x acc) l acc) /\
    Permutation (fold_left (fun acc x => insert_desc x acc) l acc) (rev l ++ acc)).
  { induction l as [|x l IH]; intros acc S; cbn [fold_left rev]; [split; [exact S|reflexivity]|].
    destruct (IH (insert_desc x acc)) as [S' P']; [apply insert_desc_sorted, S|].
    split; [exact S'|]. rewrite P', insert_desc_perm, <- app_assoc. reflexivity. }
  destruct (G [] (Sorted_nil _)) as [S P]. split; [exact S|]. rewrite P, app_nil_r.
  symmetry. apply Permutation_rev.
Qed.

Lemma lk_in p c l : NoDup (map fst l) -> (In (p, c) l <-> lk p l = Some c).
Proof.
  unfold lk. induction l as [|[k v] l IH]; intros N; cbn [find fst snd In]; [split; [tauto|discriminate]|].
  inversion N as [|? ? Nin N']; subst. destruct (String.eqb k p) eqn:E.
  - apply String.eqb_eq in E. subst k. cbn [snd]. split.
    + intros [E|I]; [congruence|]. exfalso. apply Nin. apply (in_map fst) in I. exact I.
    + intros E; injection E as <-. left. reflexivity.
  - rewrite <- IH by exact N'. split; [intros [E'|I]; [|exact I]|tauto].
    injection E' as -> _. rewrite String.eqb_refl in E. discriminate.
Qed.

(** [get_encryption_counts], from the query's rows on: every protocol
    appears once, only the six kept protocols appear ("WPA1 ..." counted
    as "WPA"), each with the sum of the counts of the rows that normalize
    to it, and the list is sorted by decreasing count. *)
Theorem encryption_counts_spec raw out (H : get_encryption_counts raw = Some out) :
  Sorted desc out /\ NoDup (map fst out) /\
  (forall p c, In (p, c) out <-> In p protocols /\ seen p raw = true /\ c = total p raw).
Proof.
  unfold get_encryption_counts in H. destruct (aggregate raw []) as [pc|] eqn:A; [|discriminate].
  injection H as <-. destruct (sort_desc_spec pc) as [S P].
  destruct (aggregate_keys _ _ _ A) as [N _]. specialize (N (NoDup_nil _)).
  assert (N' : NoDup (map fst (sort_desc pc))) by (eapply Permutation_NoDup; [|exact N];
    apply Permutation_map; symmetry; exact P).
  split; [exact S|]. split; [exact N'|].
  intros p c. split.
  - intros I. apply (Permutation_in _ P) in I. apply (lk_in _ _ _ N) in I.
    rewrite (aggregate_lk _ _ _ p A) in I.
    destruct (existsb (String.eqb p) protocols) eqn:K; [|discriminate].
    destruct (seen p raw); [|discriminate]. injection I as <-.
    split; [apply existsb_eqb, K|]. split; [reflexivity|]. reflexivity.
  - intros (Ip & Sp & ->). apply (Permutation_in _ (Permutation_sym P)).
    apply (lk_in _ _ _ N). rewrite (aggregate_lk _ _ _ p A).
    apply existsb_eqb in Ip. rewrite Ip, Sp. reflexivity.
Qed.

Lemma encryption_counts_spec_witness :
  get_encryption_counts [(Some "WPA2 PSK", 5); (Some "WPA1 TKIP", 2); (Some "WPA PSK", 4);
                         (Some "Other", 9); (Some "", 1); (Some "WPA2 EAP", 3)] =
    Some [("WPA2", 8); ("WPA", 6); ("", 1)] /\
  (Sorted desc [("WPA2", 8); ("WPA", 6); ("", 1)] /\ NoDup (map fst [("WPA2", 8); ("WPA", 6); ("", 1)]) /\
   (forall p c, In (p, c) [("WPA2", 8); ("WPA", 6); ("", 1)] <-> In p protocols /\
      seen p [(Some "WPA2 PSK", 5); (Some "WPA1 TKIP", 2); (Some "WPA PSK", 4);
              (Some "Other", 9); (Some "", 1); (Some "WPA2 EAP", 3)] = true /\
      c = total p [(Some "WPA2 PSK", 5); (Some "WPA1 TKIP", 2); (Some "WPA PSK", 4);
                   (Some "Other", 9); (Some "", 1); (Some "WPA2 EAP", 3)])).
Proof.
  assert (H : get_encryption_counts [(Some "WPA2 PSK", 5); (Some "WPA1 TKIP", 2); (Some "WPA PSK", 4);
                         (Some "Other", 9); (Some "", 1); (Some "WPA2 EAP", 3)] =
    Some [("WPA2", 8); ("WPA", 6); ("", 1)]) by (vm_compute; reflexivity).
  split; [exact H|]. exact (encryption_counts_spec _ _ H).
Defined.

(** A device whose [encryption] is [NULL] makes [enc.split(" ")] raise
    ([AttributeError] on [None]): [get_encryption_counts] fails exactly
    when one of the grouped rows has a [NULL] encryption. *)
Theorem encryption_counts_null raw :
  get_encryption_counts raw = None <-> exists c, In (None, c) raw.
Proof.
  unfold get_encryption_counts.
  assert (G : forall acc, aggregate raw acc = None <-> exists c, In (None, c) raw).
  { induction raw as [|[[enc|] c] raw IH]; intros acc; cbn [aggregate In].
    - split; [discriminate|intros [c []]].
    - destruct (existsb _ protocols); rewrite IH; split;
        [intros [c' I]; exists c'; right; exact I|intros [c' [E|I]]; [discriminate|exists c'; exact I]
        |intros [c' I]; exists c'; right; exact I|intros [c' [E|I]]; [discriminate|exists c'; exact I]].
    - split; [intros _; exists c; left; reflexivity|reflexivity]. }
  rewrite <- (G []). destruct (aggregate raw []); split; congruence.
Qed.

End EncCounts.

(* ------------------------------------------------------------------ *)
(** ** [upsert_device] and [add_devices_bulk] (wf/storage/dao.py) *)

Module Devices.
Import DaoFacts.
#[local] Open Scope Z_scope.

(** [Device] (wf/utils/validate.py). *)
Record Device := mkDevice {
  d_mac : string;
  d_type : option string;
  d_first_ts : option Z;
  d_last_ts : option Z;
  d_oui_manuf : option string;
  d_encryption : option string;
  d_is_randomized : bool;
  d_ssid : option string
}.

(** A row of the [devices] table, [is_randomized] stored as an integer. *)
Record DeviceRow := mkDeviceRow {
  dv_mac : string;
  dv_type : option string;
  dv_first_ts : option Z;
  dv_last_ts : option Z;
  dv_oui_manuf : option string;
  dv_encryption : option string;
  dv_is_randomized : Z;
  dv_ssid : option string
}.

(** The bound parameters, [int(device.is_randomized)] included. *)
Definition params (d : Device) : DeviceRow :=
  mkDeviceRow (d_mac d) (d_type d) (d_first_ts d) (d_last_ts d) (d_oui_manuf d)
    (d_encryption d) (if d_is_randomized d then 1 else 0) (d_ssid d).

(** SQLite's multi-argument [MIN(a, b)] and [MAX(a, b)]: [NULL] as soon as
    one argument is [NULL]. *)
Definition sql_min (a b : option Z) : option Z :=
  match a, b with Some x, Some y => Some (Z.min x y) | _, _ => None end.

Definition sql_max (a b : option Z) : option Z :=
  match a, b with Some x, Some y => Some (Z.max x y) | _, _ => None end.

(** [ON CONFLICT(mac) DO UPDATE SET ...]: a bare column is the stored
    row's value, [excluded.c] the new row's; [type] is not in the [SET]
    list and keeps its stored value. *)
Definition on_conflict (old ex : DeviceRow) : DeviceRow :=
  mkDeviceRow (dv_mac old) (dv_type old)
    (sql_min (dv_first_ts old) (dv_first_ts ex))
    (sql_max (dv_last_ts old) (dv_last_ts ex))
    (dv_oui_manuf ex) (dv_encryption ex) (dv_is_randomized ex) (dv_ssid ex).

(** One execution of the [INSERT ... ON CONFLICT(mac) DO UPDATE] statement.
    The schema file is not part of the sources; [mac] is taken as the
    table's key (the statement's conflict target) and no other constraint
    is taken to reject a row. *)
Fixpoint upsert_row (ex : DeviceRow) (t : list DeviceRow) : list DeviceRow :=
  match t with
  | [] => [ex]
  | r :: t' =>
      if String.eqb (dv_mac ex) (dv_mac r) then on_conflict r ex :: t'
      else r :: upsert_row ex t'
  end.

(** [upsert_device]: one statement in its own transaction. *)
Definition upsert_device (d : Device) (t : list DeviceRow) : list DeviceRow :=
  upsert_row (params d) t.

(** [add_devices_bulk]: [executemany] of the same statement, in order. *)
Definition add_devices_bulk (ds : list Device) (t : list DeviceRow) : list DeviceRow :=
  fold_left (fun t d => upsert_row (params d) t) ds t.

Definition find_dev (m : string) (t : list DeviceRow) : option DeviceRow :=
  find (fun r => String.eqb (dv_mac r) m) t.

(** [v] is the SQL aggregate of the values [l] for the order [R]: [NULL]
    exactly when one of them is, else one of them, [R]-below all. *)
Definition is_sql_agg (R : Z -> Z -> Prop) (l : list (option Z)) (v : option Z) : Prop :=
  (v = None <-> In None l) /\
  (forall z, v = Some z -> In (Some z) l /\ forall x, In (Some x) l -> R z x).

Definition opt_field {A} (f : DeviceRow -> A) (o : option DeviceRow) : list A :=
  match o with Some r => [f r] | None => [] end.

Lemma agg_single R (HR : forall a, R a a) y : is_sql_agg R [y] y.
Proof.
  split; cbn [In].
  - split; [intros E; left; congruence|intros [E|[]]; congruence].
  - intros z ->. split; [left; reflexivity|]. intros x [E|[]]. injection E as ->. apply HR.
Qed.

Lemma agg_min2 x y : is_sql_agg Z.le [x; y] (sql_min x y).
Proof.
  destruct x as [a|], y as [b|]; cbn [sql_min]; split; cbn [In].
  all: try (split; [intros E; first [discriminate E|left; reflexivity|right; left; reflexivity]
                   |intros H; first [reflexivity|destruct H as [E|[E|[]]]; discriminate E]]).
  all: intros z E; try discriminate E.
  injection E as <-. split.
  - destruct (Z.min_spec a b) as [[_ ->]|[_ ->]]; [left|right; left]; reflexivity.
  - intros x [E|[E|[]]]; injection E as <-; lia.
Qed.

Lemma agg_max2 x y : is_sql_agg Z.ge [x; y] (sql_max x y).
Proof.
  destruct x as [a|], y as [b|]; cbn [sql_max]; split; cbn [In].
  all: try (split; [intros E; first [discriminate E|left; reflexivity|right; left; reflexivity]
                   |intros H; first [reflexivity|destruct H as [E|[E|[]]]; discriminate E]]).
  all: intros z E; try discriminate E.
  injection E as <-. split.
  - destruct (Z.max_spec a b) as [[_ ->]|[_ ->]]; [right; left|left]; reflexivity.
  - intros x [E|[E|[]]]; injection E as <-; lia.
Qed.

Lemma agg_subst R (HT : forall a b c, R a b -> R b c -> R a c) l0 x rest v :
  is_sql_agg R (x :: rest) v -> is_sql_agg R l0 x -> is_sql_agg R (l0 ++ rest) v.
Proof.
  intros [N1 S1] [N2 S2]. split.
  - rewrite N1, in_app_iff, <- N2. cbn [In]. split; intros [E|E]; auto.
  - intros z Hz. destruct (S1 z Hz) as [I M]. destruct x as [z'|].
    + destruct (S2 z' eq_refl) as [I' M']. split.
      * apply in_or_app. destruct I as [E|I]; [injection E as ->; left; exact I'|right; exact I].
      * intros y Iy. apply in_app_iff in Iy as [Iy|Iy].
        -- apply (HT _ z'); [apply M; left; reflexivity|apply M', Iy].
        -- apply M; right; exact Iy.
    + exfalso. assert (E : v = None) by (apply N1; left; reflexivity). congruence.
Qed.

Lemma find_upsert_row m ex t :
  find_dev m (upsert_row ex t) =
  if String.eqb (dv_mac ex) m
  then Some (match find_dev m t with Some r => on_conflict r ex | None => ex end)
  else find_dev m t.
Proof.
  unfold find_dev. induction t as [|r t IH]; cbn [upsert_row find].
  - destruct (String.eqb (dv_mac ex) m); reflexivity.
  - destruct (String.eqb (dv_mac ex) (dv_mac r)) eqn:E.
    + apply String.eqb_eq in E. cbn [find on_conflict dv_mac]. rewrite E.
      destruct (String.eqb (dv_mac r) m); reflexivity.
    + cbn [find]. destruct (String.eqb (dv_mac r) m) eqn:E'.
      * apply String.eqb_eq in E'. subst m. rewrite E. reflexivity.
      * exact IH.
Qed.

Definition merge_step (m : string) (o : option DeviceRow) (d : Device) : option DeviceRow :=
  if String.eqb (d_mac d) m
  then Some (match o with Some r => on_conflict r (params d) | None => params d end)
  else o.

Lemma find_bulk m ds : forall t,
  find_dev m (add_devices_bulk ds t) = fold_left (merge_step m) ds (find_dev m t).
Proof.
  unfold add_devices_bulk. induction ds as [|d ds IH]; intros t; cbn [fold_left]; [reflexivity|].
  rewrite IH, find_upsert_row. reflexivity.
Qed.

Lemma last_with_none {A} (p : A -> bool) l : last_with p l = None <-> find p l = None.
Proof.
  induction l as [|x l IH]; cbn [last_with find]; [tauto|].
  destruct (p x); [destruct (last_with p l); split; congruence|].
  rewrite <- IH. destruct (last_with p l); split; congruence.
Qed.

Lemma find_none_filter {A} (p : A -> bool) l : find p l = None -> filter p l = [].
Proof.
  induction l as [|x l IH]; cbn [find filter]; [reflexivity|].
  destruct (p x); [discriminate|exact IH].
Qed.

Lemma app_snoc {A} (l0 : list A) x L : l0 ++ x :: L = (l0 ++ [x]) ++ L.
Proof. rewrite <- app_assoc. reflexivity. Qed.

Lemma merge_fold m ds : forall o, (forall r, o = Some r -> dv_mac r = m) ->
  match find (fun d => String.eqb (d_mac d) m) ds with
  | None => fold_left (merge_step m) ds o = o
  | Some d0 =>
      exists r, fold_left (merge_step m) ds o = Some r /\ dv_mac r = m /\
        dv_type r = match o with Some r0 => dv_type r0 | None => d_type d0 end /\
        is_sql_agg Z.le (opt_field dv_first_ts o ++
          map d_first_ts (filter (fun d => String.eqb (d_mac d) m) ds)) (dv_first_ts r) /\
        is_sql_agg Z.ge (opt_field dv_last_ts o ++
          map d_last_ts (filter (fun d => String.eqb (d_mac d) m) ds)) (dv_last_ts r) /\
        forall dl, last_with (fun d => String.eqb (d_mac d) m) ds = Some dl ->
          dv_oui_manuf r = d_oui_manuf dl /\ dv_encryption r = d_encryption dl /\
          dv_is_randomized r = (if d_is_randomized dl then 1 else 0) /\ dv_ssid r = d_ssid dl
  end.
Proof.
  induction ds as [|d ds IH]; intros o Ho; [reflexivity|].
  cbn [find fold_left filter last_with map].
  destruct (String.eqb (d_mac d) m) eqn:E; cbn [map].
  - remember (match o with Some r => on_conflict r (params d) | None => params d end) as r1 eqn:R1.
    assert (O1 : merge_step m o d = Some r1) by (unfold merge_step; rewrite E, R1; reflexivity).
    rewrite O1.
    assert (M1 : dv_mac r1 = m).
    { apply String.eqb_eq in E. subst r1. destruct o as [r0|]; [exact (Ho r0 eq_refl)|exact E]. }
    assert (T1 : dv_type r1 = match o with Some r0 => dv_type r0 | None => d_type d end)
      by (subst r1; destruct o; reflexivity).
    assert (F1 : is_sql_agg Z.le (opt_field dv_first_ts o ++ [d_first_ts d]) (dv_first_ts r1)).
    { subst r1. destruct o; simpl; [apply agg_min2|apply agg_single; intros; lia]. }
    assert (L1 : is_sql_agg Z.ge (opt_field dv_last_ts o ++ [d_last_ts d]) (dv_last_ts r1)).
    { subst r1. destruct o; simpl; [apply agg_max2|apply agg_single; intros; lia]. }
    assert (X1 : dv_oui_manuf r1 = d_oui_manuf d /\ dv_encryption r1 = d_encryption d /\
                 dv_is_randomized r1 = (if d_is_randomized d then 1 else 0) /\ dv_ssid r1 = d_ssid d)
      by (subst r1; destruct o; repeat split).
    assert (Ho1 : forall r, Some r1 = Some r -> dv_mac r = m)
      by (intros r Er; injection Er as <-; exact M1).
    specialize (IH _ Ho1).
    destruct (find (fun d => String.eqb (d_mac d) m) ds) eqn:F.
    + destruct IH as (r & Hf & Hm & Ht & Hmin & Hmax & Hl). exists r.
      split; [exact Hf|]. split; [exact Hm|]. split; [rewrite Ht; exact T1|].
      split; [rewrite app_snoc; exact (agg_subst _ Z.le_trans _ _ _ _ Hmin F1)|].
      split; [rewrite app_snoc; refine (agg_subst _ _ _ _ _ _ Hmax L1); intros; lia|].
      intros dl Hdl. destruct (last_with (fun d => String.eqb (d_mac d) m) ds) eqn:L.
      * apply Hl. exact Hdl.
      * apply last_with_none in L. congruence.
    + exists r1. split; [exact IH|]. split; [exact M1|]. split; [exact T1|].
      rewrite (find_none_filter _ _ F). cbn [map]. split; [exact F1|]. split; [exact L1|].
      rewrite (proj2 (last_with_none _ _) F). intros dl Hdl. injection Hdl as <-. exact X1.
  - assert (O1 : merge_step m o d = o) by (unfold merge_step; rewrite E; reflexivity).
    rewrite O1. specialize (IH o Ho).
    destruct (find (fun d => String.eqb (d_mac d) m) ds) eqn:F; [|exact IH].
    destruct IH as (r & Hf & Hm & Ht & Hmin & Hmax & Hl). exists r.
    do 5 (split; [assumption|]).
    intros dl Hdl. destruct (last_with (fun d => String.eqb (d_mac d) m) ds) eqn:L.
    + apply Hl. exact Hdl.
    + discriminate Hdl.
Qed.

(** [upsert_device] and [add_devices_bulk]: a MAC none of the devices
    carries keeps its row; for a MAC some device carries, there is one row
    after the call, whose [type] is the stored one if there was a row
    (the [DO UPDATE] never sets it) and else the first device's, whose
    [first_ts] / [last_ts] are the minimum / maximum of the stored value
    and the devices' values, [NULL] for good as soon as one of them is
    [NULL], and whose other fields come from the last device with that
    MAC. *)
Theorem add_devices_bulk_lookup ds t m :
  match find (fun d => String.eqb (d_mac d) m) ds with
  | None => find_dev m (add_devices_bulk ds t) = find_dev m t
  | Some d0 =>
      exists r, find_dev m (add_devices_bulk ds t) = Some r /\ dv_mac r = m /\
        dv_type r = match find_dev m t with Some r0 => dv_type r0 | None => d_type d0 end /\
        is_sql_agg Z.le (opt_field dv_first_ts (find_dev m t) ++
          map d_first_ts (filter (fun d => String.eqb (d_mac d) m) ds)) (dv_first_ts r) /\
        is_sql_agg Z.ge (opt_field dv_last_ts (find_dev m t) ++
          map d_last_ts (filter (fun d => String.eqb (d_mac d) m) ds)) (dv_last_ts r) /\
        forall dl, last_with (fun d => String.eqb (d_mac d) m) ds = Some dl ->
          dv_oui_manuf r = d_oui_manuf dl /\ dv_encryption r = d_encryption dl /\
          dv_is_randomized r = (if d_is_randomized dl then 1 else 0) /\ dv_ssid r = d_ssid dl
  end.
Proof.
  rewrite find_bulk. apply merge_fold.
  intros r Hr. apply find_some in Hr as [_ E]. apply String.eqb_eq, E.
Qed.

End Devices.

(* ------------------------------------------------------------------ *)
(** ** [get_mobile_tracks] (wf/storage/dao.py): from the query's rows on *)

Module MobileTracks.
Import PipelineFacts.
#[local] Open Scope Z_scope.

(** A row of the query, in the [ORDER BY mt.mac, mt.ts] order it returns;
    the columns of the two [LEFT JOIN]s may be [NULL]. *)
Record TrackRow := mkTrackRow {
  q_mac : string;
  q_ts : Z;
  q_lat : float;
  q_lon : float;
  q_ssid : option string;
  q_encryption : option string;
  q_oui_manuf : option string;
  q_is_randomized : option Z;
  q_device_type : option string;
  q_n_obs : option Z
}.

(** A point [{"ts", "lat", "lon"}]. *)
Record TrackPoint := mkTrackPoint { tp_ts : Z; tp_lat : float; tp_lon : float }.

(** The dict [tracks[m]]. *)
Record TrackDict := mkTrackDict {
  td_mac : string;
  td_ssid : option string;
  td_encryption : option string;
  td_oui_manuf : option string;
  td_is_randomized : bool;
  td_device_type : option string;
  td_n_obs : option Z;
  td_points : list TrackPoint
}.

(** [MobileTrack] (wf/utils/validate.py): [n_obs: int]. *)
Record MobileTrack := mkMobileTrack {
  mk_mac : string;
  mk_ssid : option string;
  mk_encryption : option string;
  mk_oui_manuf : option string;
  mk_is_randomized : bool;
  mk_device_type : option string;
  mk_n_obs : Z;
  mk_points : list TrackPoint
}.

(** [bool(row["is_randomized"])]: [bool(None)] and [bool(0)] are [False]. *)
Definition py_bool (o : option Z) : bool :=
  match o with Some z => negb (Z.eqb z 0) | None => false end.

Definition new_track (r : TrackRow) : TrackDict :=
  mkTrackDict (q_mac r) (q_ssid r) (q_encryption r) (q_oui_manuf r)
    (py_bool (q_is_randomized r)) (q_device_type r) (q_n_obs r) [].

Definition point_of (r : TrackRow) : TrackPoint := mkTrackPoint (q_ts r) (q_lat r) (q_lon r).

Definition add_pts (ps : list TrackPoint) (t : TrackDict) : TrackDict :=
  mkTrackDict (td_mac t) (td_ssid t) (td_encryption t) (td_oui_manuf t)
    (td_is_randomized t) (td_device_type t) (td_n_obs t) (td_points t ++ ps).

(** [tracks[m]["points"].append(...)]. *)
Definition append_point (m : string) (p : TrackPoint) (tracks : list TrackDict) : list TrackDict :=
  map (fun t => if String.eqb (td_mac t) m then add_pts [p] t else t) tracks.

(** One iteration of [for row in rows]: [tracks[m]] created from the row
    when [m not in tracks], then the point appended. *)
Definition group_step (tracks : list TrackDict) (r : TrackRow) : list TrackDict :=
  let tracks' :=
    if existsb (fun t => String.eqb (td_mac t) (q_mac r)) tracks then tracks
    else tracks ++ [new_track r] in
  append_point (q_mac r) (point_of r) tracks'.

Definition group (rows : list TrackRow) : list TrackDict := fold_left group_step rows [].

(** [MobileTrack] built from the dict [t]: pydantic rejects [n_obs = None] for an [int]
    field ([ValidationError], here [None]). *)
Definition validate (t : TrackDict) : option MobileTrack :=
  match td_n_obs t with
  | Some n => Some (mkMobileTrack (td_mac t) (td_ssid t) (td_encryption t) (td_oui_manuf t)
                      (td_is_randomized t) (td_device_type t) n (td_points t))
  | None => None
  end.

Fixpoint validate_all (l : list TrackDict) : option (list MobileTrack) :=
  match l with
  | [] => Some []
  | t :: l' =>
      match validate t with
      | Some x => match validate_all l' with Some xs => Some (x :: xs) | None => None end
      | None => None
      end
  end.

(** One [MobileTrack] per value of [tracks], in insertion order. *)
Definition get_mobile_tracks (rows : list TrackRow) : option (list MobileTrack) :=
  validate_all (group rows).

Definition find_track (m : string) (l : list TrackDict) : option TrackDict :=
  find (fun t => String.eqb (td_mac t) m) l.

Definition row_of (m : string) (r : TrackRow) : bool := String.eqb (q_mac r) m.

Lemma group_step_keys tracks r :
  map td_mac (group_step tracks r) =
  (fun acc k => if existsb (String.eqb k) acc then acc else acc ++ [k]) (map td_mac tracks) (q_mac r).
Proof.
  unfold group_step, append_point. rewrite map_map.
  rewrite (map_ext _ td_mac) by (intros t; destruct (String.eqb (td_mac t) (q_mac r)); reflexivity).
  assert (X : existsb (fun t => String.eqb (td_mac t) (q_mac r)) tracks =
              existsb (String.eqb (q_mac r)) (map td_mac tracks)).
  { clear. induction tracks as [|t l IH]; cbn [existsb map]; [reflexivity|].
    rewrite String.eqb_sym, IH. reflexivity. }
  rewrite X. destruct (existsb (String.eqb (q_mac r)) (map td_mac tracks)); [reflexivity|].
  rewrite map_app. reflexivity.
Qed.

Lemma group_keys rows : map td_mac (group rows) = first_keys (map q_mac rows).
Proof.
  unfold group, first_keys.
  assert (G : forall acc, map td_mac (fold_left group_step rows acc) =
    fold_left (fun acc k => if existsb (String.eqb k) acc then acc else acc ++ [k])
      (map q_mac rows) (map td_mac acc)).
  { induction rows as [|r rows IH]; intros acc; [reflexivity|].
    cbn [fold_left map]. rewrite IH, group_step_keys. reflexivity. }
  apply (G []).
Qed.

Lemma find_track_append_point m k p l :
  find_track m (append_point k p l) =
  match find_track m l with
  | Some t => Some (if String.eqb k m then add_pts [p] t else t)
  | None => None
  end.
Proof.
  unfold find_track, append_point. induction l as [|t l IH]; [reflexivity|].
  simpl. destruct (String.eqb (td_mac t) k) eqn:E.
  - apply String.eqb_eq in E. subst k. cbn [add_pts td_mac].
    destruct (String.eqb (td_mac t) m); [reflexivity|exact IH].
  - destruct (String.eqb (td_mac t) m) eqn:E'; [|exact IH].
    apply String.eqb_eq in E'. subst m. rewrite ?String.eqb_refl, (String.eqb_sym k), E. reflexivity.
Qed.

Lemma find_track_app m l t :
  find_track m (l ++ [t]) =
  match find_track m l with
  | Some x => Some x
  | None => if String.eqb (td_mac t) m then Some t else None
  end.
Proof.
  unfold find_track. induction l as [|x l IH]; cbn [app find].
  - destruct (String.eqb (td_mac t) m); reflexivity.
  - destruct (String.eqb (td_mac x) m); [reflexivity|exact IH].
Qed.

Lemma find_track_step m tracks r :
  find_track m (group_step tracks r) =
  if row_of m r
  then Some (add_pts [point_of r]
               match find_track m tracks with Some t => t | None => new_track r end)
  else find_track m tracks.
Proof.
  unfold group_step, row_of. rewrite find_track_append_point.
  destruct (existsb (fun t => String.eqb (td_mac t) (q_mac r)) tracks) eqn:X.
  - destruct (String.eqb (q_mac r) m) eqn:E.
    + apply String.eqb_eq in E. subst m.
      destruct (find_track (q_mac r) tracks) eqn:F; [reflexivity|].
      exfalso. apply existsb_exists in X as (t & I & Et).
      unfold find_track in F. apply (find_none _ _ F) in I. congruence.
    + destruct (find_track m tracks); reflexivity.
  - rewrite find_track_app. destruct (String.eqb (q_mac r) m) eqn:E.
    + apply String.eqb_eq in E. subst m.
      destruct (find_track (q_mac r) tracks) eqn:F.
      * exfalso. unfold find_track in F. apply find_some in F as [I Et].
        assert (existsb (fun t => String.eqb (td_mac t) (q_mac r)) tracks = true)
          by (apply existsb_exists; exists t; split; assumption). congruence.
      * cbn [new_track td_mac]. rewrite String.eqb_refl. reflexivity.
    + destruct (find_track m tracks); [reflexivity|]. cbn [new_track td_mac]. rewrite E. reflexivity.
Qed.

Lemma add_pts_app ps qs t : add_pts qs (add_pts ps t) = add_pts (ps ++ qs) t.
Proof. unfold add_pts. cbn. rewrite app_assoc. reflexivity. Qed.

Lemma find_track_fold m rows : forall acc,
  find_track m (fold_left group_step rows acc) =
  match find_track m acc with
  | Some t => Some (add_pts (map point_of (filter (row_of m) rows)) t)
  | None =>
      match find (row_of m) rows with
      | Some r0 => Some (add_pts (map point_of (filter (row_of m) rows)) (new_track r0))
      | None => None
      end
  end.
Proof.
  induction rows as [|r rows IH]; intros acc; cbn [fold_left filter find map].
  - destruct (find_track m acc) as [t|]; [|reflexivity]. unfold add_pts. rewrite app_nil_r.
    destruct t; reflexivity.
  - rewrite IH, find_track_step. destruct (row_of m r) eqn:E; cbn [map].
    + destruct (find_track m acc); rewrite add_pts_app; reflexivity.
    + reflexivity.
Qed.

Lemma find_track_group m rows :
  find_track m (group rows) =
  match find (row_of m) rows with
  | Some r0 => Some (add_pts (map point_of (filter (row_of m) rows)) (new_track r0))
  | None => None
  end.
Proof. unfold group. rewrite find_track_fold. reflexivity. Qed.

Lemma find_track_in m l t : NoDup (map td_mac l) -> In t l -> td_mac t = m -> find_track m l = Some t.
Proof.
  unfold find_track. induction l as [|x l IH]; intros N I E; [destruct I|].
  inversion N as [|? ? Nin N']; subst. cbn [find].
  destruct I as [<-|I]; [rewrite String.eqb_refl; reflexivity|].
  destruct (String.eqb (td_mac x) (td_mac t)) eqn:Ex.
  - apply String.eqb_eq in Ex. exfalso. apply Nin. rewrite Ex. apply in_map, I.
  - apply IH; [exact N'|exact I|reflexivity].
Qed.

Lemma validate_all_some l out : validate_all l = Some out -> Forall2 (fun t x => validate t = Some x) l out.
Proof.
  revert out. induction l as [|t l IH]; intros out H; cbn [validate_all] in H.
  - injection H as <-. constructor.
  - destruct (validate t) eqn:V; [|discriminate]. destruct (validate_all l) eqn:W; [|discriminate].
    injection H as <-. constructor; [exact V|apply IH; reflexivity].
Qed.

Lemma validate_all_none l : validate_all l = None <-> exists t, In t l /\ td_n_obs t = None.
Proof.
  induction l as [|t l IH]; cbn [validate_all In].
  - split; [discriminate|intros (t & [] & _)].
  - unfold validate at 1. destruct (td_n_obs t) eqn:N.
    + assert (A : (match validate_all l with Some xs => Some (mkMobileTrack (td_mac t) (td_ssid t)
                     (td_encryption t) (td_oui_manuf t) (td_is_randomized t) (td_device_type t) z
                     (td_points t) :: xs) | None => None end = None) <-> validate_all l = None)
        by (destruct (validate_all l); split; congruence).
      rewrite A, IH. split.
      * intros (x & I & Nx). exists x. split; [right; exact I|exact Nx].
      * intros (x & [<-|I] & Nx); [congruence|]. exists x. split; [exact I|exact Nx].
    + split; [intros _; exists t; split; [left; reflexivity|exact N]|reflexivity].
Qed.

Lemma validate_mac t x : validate t = Some x -> mk_mac x = td_mac t.
Proof. unfold validate. destruct (td_n_obs t); [intros E; injection E as <-; reflexivity|discriminate]. Qed.

Lemma forall2_macs l out : Forall2 (fun t x => validate t = Some x) l out -> map mk_mac out = map td_mac l.
Proof.
  induction 1 as [|t x l out V _ IH]; [reflexivity|]. cbn [map]. rewrite IH, (validate_mac _ _ V). reflexivity.
Qed.

Lemma forall2_in_right l out x :
  Forall2 (fun t x => validate t = Some x) l out -> In x out -> exists t, In t l /\ validate t = Some x.
Proof.
  induction 1 as [|t y l out V _ IH]; [intros []|]. intros [<-|I].
  - exists t. split; [left; reflexivity|exact V].
  - destruct (IH I) as (t' & I' & V'). exists t'. split; [right; exact I'|exact V'].
Qed.

Lemma group_nodup rows : NoDup (map td_mac (group rows)).
Proof. rewrite group_keys. apply first_keys_nodup. Qed.

Lemma in_group rows t :
  In t (group rows) ->
  exists r0, find (row_of (td_mac t)) rows = Some r0 /\
             t = add_pts (map point_of (filter (row_of (td_mac t)) rows)) (new_track r0).
Proof.
  intros I. pose proof (find_track_in (td_mac t) _ _ (group_nodup rows) I eq_refl) as F.
  rewrite find_track_group in F. destruct (find (row_of (td_mac t)) rows) as [r0|]; [|discriminate].
  injection F as F. exists r0. split; [reflexivity|symmetry; exact F].
Qed.

(** [get_mobile_tracks], from the rows of its query on: one track per MAC,
    in the order of the MACs' first rows; a track's points are the
    [(ts, lat, lon)] of all rows of its MAC, in row order; its metadata
    come from the first row of its MAC, [is_randomized] being
    [bool(...)] of the column ([False] for [NULL] and [0]). *)
Theorem get_mobile_tracks_shape rows out (H : get_mobile_tracks rows = Some out) :
  map mk_mac out = first_keys (map q_mac rows) /\
  forall tr, In tr out ->
    mk_points tr = map point_of (filter (row_of (mk_mac tr)) rows) /\
    exists r0, find (row_of (mk_mac tr)) rows = Some r0 /\
      mk_ssid tr = q_ssid r0 /\ mk_encryption tr = q_encryption r0 /\
      mk_oui_manuf tr = q_oui_manuf r0 /\ mk_is_randomized tr = py_bool (q_is_randomized r0) /\
      mk_device_type tr = q_device_type r0 /\ q_n_obs r0 = Some (mk_n_obs tr).
Proof.
  pose proof (validate_all_some _ _ H) as F2. split.
  - rewrite (forall2_macs _ _ F2). apply group_keys.
  - intros tr I. destruct (forall2_in_right _ _ _ F2 I) as (t & It & V).
    rewrite (validate_mac _ _ V). destruct (in_group _ _ It) as (r0 & Fr & Et).
    rewrite Et in V. unfold validate in V.
    cbn [add_pts new_track td_n_obs td_mac td_ssid td_encryption td_oui_manuf
      td_is_randomized td_device_type td_points app] in V.
    destruct (q_n_obs r0) as [n|] eqn:Nr; [|discriminate]. injection V as <-.
    cbn [mk_points mk_ssid mk_encryption mk_oui_manuf mk_is_randomized mk_device_type mk_n_obs app].
    split; [reflexivity|]. exists r0. repeat split; assumption.
Qed.

(** [get_mobile_tracks] raises (pydantic's [ValidationError] on
    [n_obs: int]) exactly when the first row of some MAC has a [NULL]
    [n_obs], i.e. a tracked MAC with no row in [observations]. *)
Theorem get_mobile_tracks_null rows :
  get_mobile_tracks rows = None <->
  exists r, In r rows /\ find (row_of (q_mac r)) rows = Some r /\ q_n_obs r = None.
Proof.
  unfold get_mobile_tracks. rewrite validate_all_none. split.
  - intros (t & It & Nt). destruct (in_group _ _ It) as (r0 & Fr & Et).
    exists r0. pose proof (find_some _ _ Fr) as [Ir Er]. unfold row_of in Er.
    apply String.eqb_eq in Er. rewrite Er. split; [exact Ir|]. split; [exact Fr|].
    rewrite Et in Nt. exact Nt.
  - intros (r & Ir & Fr & Nr).
    pose proof (find_track_group (q_mac r) rows) as F. rewrite Fr in F.
    apply find_some in F as [It _]. eexists. split; [exact It|]. exact Nr.
Qed.

Definition example_rows : list TrackRow :=
  [mkTrackRow "aa"%string 1 1.5%float 2.5%float (Some "net"%string) (Some "WPA2"%string) None (Some 1) (Some "Wi-Fi AP"%string) (Some 3);
   mkTrackRow "aa"%string 4 1.6%float 2.6%float (Some "other"%string) None None (Some 0) None (Some 3);
   mkTrackRow "bb"%string 2 3.5%float 4.5%float None None None None None (Some 1)].

Lemma get_mobile_tracks_shape_witness :
  get_mobile_tracks example_rows =
    Some [mkMobileTrack "aa"%string (Some "net"%string) (Some "WPA2"%string) None true (Some "Wi-Fi AP"%string) 3
            [mkTrackPoint 1 1.5%float 2.5%float; mkTrackPoint 4 1.6%float 2.6%float];
          mkMobileTrack "bb"%string None None None false None 1 [mkTrackPoint 2 3.5%float 4.5%float]] /\
  (map mk_mac [mkMobileTrack "aa"%string (Some "net"%string) (Some "WPA2"%string) None true (Some "Wi-Fi AP"%string) 3
            [mkTrackPoint 1 1.5%float 2.5%float; mkTrackPoint 4 1.6%float 2.6%float];
          mkMobileTrack "bb"%string None None None false None 1 [mkTrackPoint 2 3.5%float 4.5%float]]
     = first_keys (map q_mac example_rows) /\
   forall tr, In tr [mkMobileTrack "aa"%string (Some "net"%string) (Some "WPA2"%string) None true (Some "Wi-Fi AP"%string) 3
            [mkTrackPoint 1 1.5%float 2.5%float; mkTrackPoint 4 1.6%float 2.6%float];
          mkMobileTrack "bb"%string None None None false None 1 [mkTrackPoint 2 3.5%float 4.5%float]] ->
    mk_points tr = map point_of (filter (row_of (mk_mac tr)) example_rows) /\
    exists r0, find (row_of (mk_mac tr)) example_rows = Some r0 /\
      mk_ssid tr = q_ssid r0 /\ mk_encryption tr = q_encryption r0 /\
      mk_oui_manuf tr = q_oui_manuf r0 /\ mk_is_randomized tr = py_bool (q_is_randomized r0) /\
      mk_device_type tr = q_device_type r0 /\ q_n_obs r0 = Some (mk_n_obs tr)).
Proof.
  assert (H : get_mobile_tracks example_rows =
    Some [mkMobileTrack "aa"%string (Some "net"%string) (Some "WPA2"%string) None true (Some "Wi-Fi AP"%string) 3
            [mkTrackPoint 1 1.5%float 2.5%float; mkTrackPoint 4 1.6%float 2.6%float];
          mkMobileTrack "bb"%string None None None false None 1 [mkTrackPoint 2 3.5%float 4.5%float]])
    by (vm_compute; reflexivity).
  split; [exact H|]. exact (get_mobile_tracks_shape _ _ H).
Defined.

End MobileTracks.
